(** * Obsidian translate server: the note translation pipeline

    A shallow embedding of [src/utils/translation.ts] (TranslationService),
    [src/utils/file-system.ts] (FileSystemHelper), [src/tools/translate.ts]
    (TranslateTool) and the handler of the tool calls of the server
    ([src/index.ts]), with the properties of the translation pipeline and
    of the search of the vault stated over it.

    A JavaScript string is modelled as the [string] of the bytes of its
    UTF-8 encoding; asynchronous calls are sequenced, since every call of
    the source is awaited before the next one starts, but for the
    translations of one chunk of [translateBatch], which are run in the
    order they are started in. *)

From Stdlib Require Import Ascii String ZArith Lia.
From stdpp Require Import base option list strings pretty gmap.

Local Open Scope string_scope.

(** ** JavaScript string primitives *)

Module Js.

(** [s.startsWith(p)], returning what follows the prefix. *)
Fixpoint strip_prefix (p s : string) : option string :=
  match p with
  | EmptyString => Some s
  | String a p' =>
      match s with
      | EmptyString => None
      | String b s' => if Ascii.eqb a b then strip_prefix p' s' else None
      end
  end.

(** The first occurrence of [pat] in [s]: the text before it and the text
    after it. *)
Fixpoint find_first (pat s : string) : option (string * string) :=
  match strip_prefix pat s with
  | Some rest => Some (EmptyString, rest)
  | None =>
      match s with
      | EmptyString => None
      | String c s' =>
          match find_first pat s' with
          | Some (before, after) => Some (String c before, after)
          | None => None
          end
      end
  end.

(** [s.includes(pat)]. *)
Definition includes (pat s : string) : bool :=
  match find_first pat s with Some _ => true | None => false end.

(** GetSubstitution of ECMA-262 for a string pattern (no capture groups):
    [$$] is a dollar sign, [$&] the matched text, [$`] the text before the
    match, [$'] the text after it; every other [$] stands for itself. *)
Fixpoint get_substitution (matched before after repl : string) : string :=
  match repl with
  | EmptyString => EmptyString
  | String c t =>
      if Ascii.eqb c "$" then
        match t with
        | String d r =>
            if Ascii.eqb d "$" then String "$" (get_substitution matched before after r)
            else if Ascii.eqb d "&" then matched +:+ get_substitution matched before after r
            else if Ascii.eqb d "`" then before +:+ get_substitution matched before after r
            else if Ascii.eqb d "'" then after +:+ get_substitution matched before after r
            else String c (get_substitution matched before after t)
        | EmptyString => String c EmptyString
        end
      else String c (get_substitution matched before after t)
  end.

(** [s.replace(pat, repl)] with a string pattern: only the first occurrence
    is replaced, and [repl] is a replacement template. *)
Definition replace_string (s pat repl : string) : string :=
  match find_first pat s with
  | Some (before, after) =>
      before +:+ get_substitution pat before after repl +:+ after
  | None => s
  end.

(** A regular expression is represented by its matcher at the head of the
    remaining input: the matched text and what follows it. *)
Definition matcher := string → option (string * string).

(** [s.replace(re, callback)] for a global regular expression whose matches
    are never empty. The callback threads a state (the closure variables it
    updates). After a match the scan resumes behind it; [fuel] bounds the
    number of positions visited. *)
Fixpoint replace_all_fuel {St : Type} (fuel : nat) (re : matcher)
    (callback : string → St → string * St) (s : string) (st : St) : string * St :=
  match fuel with
  | O => (s, st)
  | S fuel' =>
      match s with
      | EmptyString => (EmptyString, st)
      | String c s' =>
          match re s with
          | Some (m, rest) =>
              let '(r, st1) := callback m st in
              let '(out, st2) := replace_all_fuel fuel' re callback rest st1 in
              (r +:+ out, st2)
          | None =>
              let '(out, st2) := replace_all_fuel fuel' re callback s' st in
              (String c out, st2)
          end
      end
  end.

Definition replace_all {St : Type} (re : matcher)
    (callback : string → St → string * St) (s : string) (st : St) : string * St :=
  replace_all_fuel (S (String.length s)) re callback s st.

(** The characters [String.prototype.trim] removes (WhiteSpace and
    LineTerminator of ECMA-262), by the bytes of their UTF-8 encoding.
    One byte: TAB, LF, VT, FF, CR and SP. *)
Definition white_space1 (c : ascii) : bool :=
  let n := nat_of_ascii c in
  (((9 <=? n) && (n <=? 13)) || (n =? 32))%nat.

(** Two bytes: U+00A0 (C2 A0). *)
Definition white_space2 (c1 c2 : ascii) : bool :=
  ((nat_of_ascii c1 =? 194) && (nat_of_ascii c2 =? 160))%nat.

(** Three bytes: U+1680 (E1 9A 80); U+2000 to U+200A (E2 80 80 to E2 80 8A),
    U+2028, U+2029 and U+202F (E2 80 A8, A9 and AF); U+205F (E2 81 9F);
    U+3000 (E3 80 80); U+FEFF (EF BB BF). *)
Definition white_space3 (c1 c2 c3 : ascii) : bool :=
  let n1 := nat_of_ascii c1 in
  let n2 := nat_of_ascii c2 in
  let n3 := nat_of_ascii c3 in
  (((n1 =? 225) && (n2 =? 154) && (n3 =? 128))
   || ((n1 =? 226) && (n2 =? 128)
       && (((128 <=? n3) && (n3 <=? 138)) || (n3 =? 168) || (n3 =? 169) || (n3 =? 175)))
   || ((n1 =? 226) && (n2 =? 129) && (n3 =? 159))
   || ((n1 =? 227) && (n2 =? 128) && (n3 =? 128))
   || ((n1 =? 239) && (n2 =? 187) && (n3 =? 191)))%nat.

(** The text is made of white space only. *)
Fixpoint all_white_space (s : string) : bool :=
  match s with
  | EmptyString => true
  | String c1 s1 =>
      if white_space1 c1 then all_white_space s1
      else
        match s1 with
        | String c2 s2 =>
            if white_space2 c1 c2 then all_white_space s2
            else
              match s2 with
              | String c3 s3 => if white_space3 c1 c2 c3 then all_white_space s3 else false
              | EmptyString => false
              end
        | EmptyString => false
        end
  end.

Fixpoint trim_start (s : string) : string :=
  match s with
  | EmptyString => EmptyString
  | String c1 s1 =>
      if white_space1 c1 then trim_start s1
      else
        match s1 with
        | String c2 s2 =>
            if white_space2 c1 c2 then trim_start s2
            else
              match s2 with
              | String c3 s3 => if white_space3 c1 c2 c3 then trim_start s3 else s
              | EmptyString => s
              end
        | EmptyString => s
        end
  end.

(** The longest suffix made of white space is removed. *)
Fixpoint trim_end (s : string) : string :=
  match s with
  | EmptyString => EmptyString
  | String c s' => if all_white_space s then EmptyString else String c (trim_end s')
  end.

Definition trim (s : string) : string := trim_end (trim_start s).

(** Truthiness of a string: the empty string is falsy. *)
Definition truthy (s : string) : bool :=
  match s with EmptyString => false | _ => true end.

(** A [Map] or an object with string keys: entries in insertion order;
    setting a key that is present keeps its position. *)
Fixpoint map_set {V : Type} (k : string) (v : V) (m : list (string * V)) : list (string * V) :=
  match m with
  | [] => [(k, v)]
  | (k', v') :: m' =>
      if String.eqb k k' then (k, v) :: m' else (k', v') :: map_set k v m'
  end.

(** [s.split('/')]. *)
Fixpoint split_slash (s : string) : list string :=
  match s with
  | EmptyString => [EmptyString]
  | String c s' =>
      if Ascii.eqb c "/" then EmptyString :: split_slash s'
      else
        match split_slash s' with
        | h :: t => String c h :: t
        | [] => [String c EmptyString]
        end
  end.

(** [parts.join('/')]. *)
Fixpoint join_slash (parts : list string) : string :=
  match parts with
  | [] => EmptyString
  | [p] => p
  | p :: parts' => p +:+ "/" +:+ join_slash parts'
  end.

(** [parts.slice(0, -1)]. *)
Definition drop_last {A : Type} (parts : list A) : list A := removelast parts.

(** [s.replace(re, repl)] for a regular expression without the global flag
    and without capture groups: the leftmost match is replaced. *)
Fixpoint replace_first_from (re : matcher) (repl : string) (before s : string) : string :=
  match re s with
  | Some (m, rest) => get_substitution m before rest repl +:+ rest
  | None =>
      match s with
      | EmptyString => EmptyString
      | String c s' => String c (replace_first_from re repl (before +:+ String c EmptyString) s')
      end
  end.

Definition replace_first (re : matcher) (repl : string) (s : string) : string :=
  replace_first_from re repl EmptyString s.

End Js.

(** ** TranslationService: protecting and restoring code *)

Module Guard.

Definition backtick : ascii := "`".

(** The longest prefix without a backtick, and the rest. *)
Fixpoint span_no_backtick (s : string) : string * string :=
  match s with
  | EmptyString => (EmptyString, EmptyString)
  | String c s' =>
      if Ascii.eqb c backtick then (EmptyString, s)
      else let '(run, rest) := span_no_backtick s' in (String c run, rest)
  end.

(** The regular expression [/`([^`]+)`/]: a backtick, one or more characters
    other than a backtick (greedy), a backtick. *)
Definition inline_re : Js.matcher := fun s =>
  match s with
  | String c r =>
      if Ascii.eqb c backtick then
        match span_no_backtick r with
        | (String a code, String _ rest) =>
            Some (String backtick (String a code +:+ String backtick EmptyString), rest)
        | _ => None
        end
      else None
  | EmptyString => None
  end.

(** The character class [[\\s\\S]] as the source writes it inside a regular
    expression literal: an escaped backslash, [s], an escaped backslash, [S]. *)
Definition fence_class (c : ascii) : bool :=
  (Ascii.eqb c "\" || Ascii.eqb c "s" || Ascii.eqb c "S")%bool.

Definition fence : string := "```".

(** [[\\s\\S]*?```]: as few characters of the class as possible, then a
    closing fence. Returns the text consumed and the rest. *)
Fixpoint fence_tail (s : string) : option (string * string) :=
  match Js.strip_prefix fence s with
  | Some rest => Some (fence, rest)
  | None =>
      match s with
      | String c s' =>
          if fence_class c then
            match fence_tail s' with
            | Some (m, rest) => Some (String c m, rest)
            | None => None
            end
          else None
      | EmptyString => None
      end
  end.

(** The regular expression [/```[\\s\\S]*?```/]. *)
Definition fenced_re : Js.matcher := fun s =>
  match Js.strip_prefix fence s with
  | Some r =>
      match fence_tail r with
      | Some (m, rest) => Some (fence +:+ m, rest)
      | None => None
      end
  | None => None
  end.

Definition inline_placeholder (n : nat) : string :=
  "__INLINE_CODE_" +:+ pretty n +:+ "__".

Definition block_placeholder (n : nat) : string :=
  "__CODE_BLOCK_" +:+ pretty n +:+ "__".

(** The closure state of the two callbacks: [counter] and [placeholders]. *)
Definition guard_state : Type := nat * list (string * string).

(** The callback of both replacements: the placeholder for the current
    value of [counter], which is then incremented, and the match recorded
    under the placeholder. *)
Definition callback (placeholder_of : nat → string) (m : string) (st : guard_state)
    : string * guard_state :=
  let '(counter, placeholders) := st in
  let placeholder := placeholder_of counter in
  (placeholder, (S counter, Js.map_set placeholder m placeholders)).

Definition inline_callback : string → guard_state → string * guard_state :=
  callback inline_placeholder.

Definition block_callback : string → guard_state → string * guard_state :=
  callback block_placeholder.

(** [protectCodeBlocks]: inline code first, then code blocks, on the result
    of the first replacement. *)
Definition protectCodeBlocks (content : string) : string * list (string * string) :=
  let st0 : guard_state := (0, []) in
  let '(protectedContent, st1) := Js.replace_all inline_re inline_callback content st0 in
  let '(protectedContent', st2) := Js.replace_all fenced_re block_callback protectedContent st1 in
  (protectedContent', snd st2).

(** [restoreCodeBlocks]: [placeholders.forEach] visits the entries in
    insertion order. *)
Definition restoreCodeBlocks (content : string) (placeholders : list (string * string)) : string :=
  fold_left (fun restoredContent '(placeholder, original) =>
               Js.replace_string restoredContent placeholder original)
            placeholders content.

End Guard.

(** ** Exceptions, the world and the effect monad *)

(** A thrown value: an [Error] object (its [name] and [message]) or any other
    value, kept by its rendering as a string. *)
Inductive thrown :=
  | ErrorObj (name message : string)
  | NonError (rendering : string).

(** [new Error(message)]. *)
Definition new_Error (message : string) : thrown := ErrorObj "Error" message.

(** [`${error}`]: for an [Error], [Error.prototype.toString]. *)
Definition render (e : thrown) : string :=
  match e with
  | ErrorObj name message =>
      if negb (Js.truthy name) then message
      else if negb (Js.truthy message) then name
      else name +:+ ": " +:+ message
  | NonError r => r
  end.

(** [error instanceof Error]. *)
Definition instanceof_Error (e : thrown) : bool :=
  match e with ErrorObj _ _ => true | NonError _ => false end.

(** [ErrorCode] of [src/types/index.ts]. *)
Module ErrorCode.
Definition INVALID_URL := "INVALID_OBSIDIAN_URL".
Definition FILE_NOT_FOUND := "FILE_NOT_FOUND".
Definition VAULT_MISMATCH := "VAULT_MISMATCH".
Definition TRANSLATION_FAILED := "TRANSLATION_FAILED".
Definition BACKUP_FAILED := "BACKUP_FAILED".
Definition PERMISSION_DENIED := "PERMISSION_DENIED".
Definition INVALID_PATH := "INVALID_PATH".
End ErrorCode.

(** A file system entry. *)
Inductive node :=
  | File (content : string) (mtime : Z)
  | Dir.

(** A segment of a response of the generation service. *)
Inductive content_block :=
  | TextBlock (text : string)
  | OtherBlock (type : string).

(** The request [messages.create] receives: one user message. *)
Record message_request := {
  model : string;
  max_tokens : Z;
  user_content : string
}.

Inductive event :=
  | FsAccess (path : string)
  | FsReadFile (path : string)
  | FsMkdir (path : string)
  | FsWriteFile (path content : string)
  | FsStat (path : string)
  | FsReaddir (path : string)
  | FsUnlink (path : string)
  | Generate (request : message_request)
  | ConsoleError (text : string)
  | ConsoleWarn (text : string).

(** Everything outside the program: the file tree (absolute path to entry;
    the hierarchy is not enforced), the paths at which a write is refused
    (permissions, a missing parent, a full disk), the clock as the sequence
    of its successive readings, the generation service as a function of the
    number of earlier calls and of the request, and the trace of the calls
    made so far. *)
Record world := {
  nodes : gmap string node;
  refused : gset string;
  clock : nat → Z;
  ticks : nat;
  generation : nat → message_request → thrown + list content_block;
  calls : nat;
  trace : list event
}.

Definition set_nodes (n : gmap string node) (w : world) : world :=
  {| nodes := n; refused := refused w; clock := clock w; ticks := ticks w;
     generation := generation w; calls := calls w; trace := trace w |}.

Definition log (e : event) (w : world) : world :=
  {| nodes := nodes w; refused := refused w; clock := clock w; ticks := ticks w;
     generation := generation w; calls := calls w; trace := (trace w ++ [e])%list |}.

Definition tick (w : world) : world :=
  {| nodes := nodes w; refused := refused w; clock := clock w; ticks := S (ticks w);
     generation := generation w; calls := calls w; trace := trace w |}.

Definition called (w : world) : world :=
  {| nodes := nodes w; refused := refused w; clock := clock w; ticks := ticks w;
     generation := generation w; calls := S (calls w); trace := trace w |}.

(** A computation: from a world to a value or an exception, and a world. *)
Definition M (A : Type) : Type := world → (thrown + A) * world.

Definition ret {A} (a : A) : M A := fun w => (inr a, w).

Definition throw {A} (e : thrown) : M A := fun w => (inl e, w).

Definition bind {A B} (m : M A) (k : A → M B) : M B := fun w =>
  match m w with
  | (inr a, w') => k a w'
  | (inl e, w') => (inl e, w')
  end.

(** [try { m } catch (error) { handler }]. *)
Definition try_catch {A} (m : M A) (handler : thrown → M A) : M A := fun w =>
  match m w with
  | (inr a, w') => (inr a, w')
  | (inl e, w') => handler e w'
  end.

(** A synchronous call that may throw. *)
Definition lift {A} (r : thrown + A) : M A :=
  match r with inl e => throw e | inr a => ret a end.

Notation "'let*' x ':=' m 'in' k" := (bind m (fun x => k))
  (at level 10, x pattern, m at level 100, k at level 200).

(** [for (const x of xs) { body }]. *)
Fixpoint for_of {A} (xs : list A) (body : A → M unit) : M unit :=
  match xs with
  | [] => ret tt
  | x :: xs' => let* _ := body x in for_of xs' body
  end.

(** ** The runtime: clock, console, generation service, file system *)

Module Runtime.

(** [Date.now()] and [new Date()]: the next reading of the clock. *)
Definition Date_now : M Z := fun w => (inr (clock w (ticks w)), tick w).

Definition console_error (text : string) : M unit := fun w => (inr tt, log (ConsoleError text) w).

Definition console_warn (text : string) : M unit := fun w => (inr tt, log (ConsoleWarn text) w).

(** [anthropic.messages.create(request)]. *)
Definition messages_create (request : message_request) : M (list content_block) := fun w =>
  (generation w (calls w) request, called (log (Generate request) w)).

(** The errors of the file system calls, with the message Node gives them:
    the code, its description, the system call and the path. *)
Definition errno (code description syscall path : string) : thrown :=
  new_Error (code +:+ ": " +:+ description +:+ ", " +:+ syscall +:+ " '" +:+ path +:+ "'").
Definition ENOENT (syscall path : string) : thrown :=
  errno "ENOENT" "no such file or directory" syscall path.
Definition EISDIR (syscall path : string) : thrown :=
  errno "EISDIR" "illegal operation on a directory" syscall path.
Definition ENOTDIR (syscall path : string) : thrown :=
  errno "ENOTDIR" "not a directory" syscall path.
Definition EACCES (syscall path : string) : thrown :=
  errno "EACCES" "permission denied" syscall path.
Definition EEXIST (syscall path : string) : thrown :=
  errno "EEXIST" "file already exists" syscall path.
(** Reading a directory fails in [read], after it was opened: the message
    has no path. *)
Definition EISDIR_read : thrown :=
  new_Error "EISDIR: illegal operation on a directory, read".

Definition fs_access (path : string) : M unit := fun w =>
  let w' := log (FsAccess path) w in
  match nodes w !! path with
  | Some _ => (inr tt, w')
  | None => (inl (ENOENT "access" path), w')
  end.

Definition fs_readFile (path : string) : M string := fun w =>
  let w' := log (FsReadFile path) w in
  match nodes w !! path with
  | Some (File content _) => (inr content, w')
  | Some Dir => (inl (EISDIR_read), w')
  | None => (inl (ENOENT "open" path), w')
  end.

(** [fs.mkdir(path, { recursive: true })]. *)
Definition fs_mkdir (path : string) : M unit := fun w =>
  let w' := log (FsMkdir path) w in
  match nodes w !! path with
  | Some Dir => (inr tt, w')
  | Some (File _ _) => (inl (EEXIST "mkdir" path), w')
  | None =>
      if decide (path ∈ refused w) then (inl (EACCES "mkdir" path), w')
      else (inr tt, set_nodes (<[path := Dir]> (nodes w)) w')
  end.

(** [fs.writeFile(path, content)]: the entry becomes a file with this
    content, last modified now; a refused write changes nothing. *)
Definition fs_writeFile (path content : string) : M unit := fun w =>
  let w' := log (FsWriteFile path content) w in
  if decide (path ∈ refused w) then (inl (EACCES "open" path), w')
  else
    match nodes w !! path with
    | Some Dir => (inl (EISDIR "open" path), w')
    | _ => (inr tt, set_nodes (<[path := File content (clock w (ticks w))]> (nodes w)) w')
    end.

Record stats := { size : Z; mtime_of : Z; is_file : bool }.

Definition fs_stat (path : string) : M stats := fun w =>
  let w' := log (FsStat path) w in
  match nodes w !! path with
  | Some (File content mtime) =>
      (inr {| size := Z.of_nat (String.length content); mtime_of := mtime; is_file := true |}, w')
  | Some Dir => (inr {| size := 0; mtime_of := 0; is_file := false |}, w')
  | None => (inl (ENOENT "stat" path), w')
  end.

(** The entries directly inside a directory: name and whether it is a file. *)
Definition child_of (dir : string) (entry : string * node) : option (string * bool) :=
  match Js.strip_prefix (dir +:+ "/") (fst entry) with
  | Some name =>
      if (Js.truthy name && negb (Js.includes "/" name))%bool
      then Some (name, match snd entry with File _ _ => true | Dir => false end)
      else None
  | None => None
  end.

(** [fs.readdir(path, { withFileTypes: true })]. *)
Definition fs_readdir (path : string) : M (list (string * bool)) := fun w =>
  let w' := log (FsReaddir path) w in
  match nodes w !! path with
  | Some Dir => (inr (omap (child_of path) (map_to_list (nodes w))), w')
  | Some (File _ _) => (inl (ENOTDIR "scandir" path), w')
  | None => (inl (ENOENT "scandir" path), w')
  end.

Definition fs_unlink (path : string) : M unit := fun w =>
  let w' := log (FsUnlink path) w in
  match nodes w !! path with
  | Some (File _ _) =>
      if decide (path ∈ refused w) then (inl (EACCES "unlink" path), w')
      else (inr tt, set_nodes (delete path (nodes w)) w')
  | Some Dir => (inl (EISDIR "unlink" path), w')
  | None => (inl (ENOENT "unlink" path), w')
  end.

End Runtime.

(** ** Libraries and modules the three classes import *)

(** Front matter as [gray-matter] returns it: an object whose values are
    YAML data. *)
Inductive yaml :=
  | YString (s : string)
  | YMapping (entries : list (string * string))
  | YOther (source : string).

Definition frontmatter : Type := list (string * yaml).

Record parsed_url := { vault : string; path : string }.

(** What the source imports and this development does not define: the
    [path] module of Node, [Date], [gray-matter], and the static methods of
    [ObsidianUrlParser] ([src/utils/obsidian-url.ts]). *)
Record externals := {
  join : string → string → string;
  dirname : string → string;
  basename : string → string → string;
  extname : string → string;
  (** [new Date(millis).toISOString()] *)
  toISOString : Z → string;
  (** the time [days] days before [millis], as [setDate(getDate() - days)] computes it *)
  minus_days : Z → Z → Z;
  (** [matter(content)]: the [data] and [content] of the result *)
  matter : string → thrown + (frontmatter * string);
  (** [matter.stringify(content, data)], which parses [content] first and
      throws what that parsing throws *)
  matter_stringify : string → frontmatter → thrown + string;
  parse : string → thrown + parsed_url;
  validateVault : string → string → thrown + unit;
  validatePath : string → thrown + unit
}.

(** ** The [path] module of Node (POSIX) *)

Module Posix.

Definition eq_str (a b : string) : bool := String.eqb a b.

(** [normalizeString]: the segments kept, most recent first. *)
Fixpoint normalize_segments (allowAboveRoot : bool) (res segs : list string) : list string :=
  match segs with
  | [] => rev res
  | seg :: segs' =>
      if (eq_str seg "" || eq_str seg ".")%bool then normalize_segments allowAboveRoot res segs'
      else if eq_str seg ".." then
        match res with
        | top :: res' =>
            if eq_str top ".." then
              normalize_segments allowAboveRoot (if allowAboveRoot then ".." :: res else res) segs'
            else normalize_segments allowAboveRoot res' segs'
        | [] => normalize_segments allowAboveRoot (if allowAboveRoot then [".."] else []) segs'
        end
      else normalize_segments allowAboveRoot (seg :: res) segs'
  end.

Definition is_absolute (p : string) : bool :=
  match p with String c _ => Ascii.eqb c "/" | EmptyString => false end.

Fixpoint ends_with_slash (p : string) : bool :=
  match p with
  | EmptyString => false
  | String c EmptyString => Ascii.eqb c "/"
  | String _ p' => ends_with_slash p'
  end.

Definition normalize (p : string) : string :=
  match p with
  | EmptyString => "."
  | _ =>
      let isAbsolute := is_absolute p in
      let trailingSeparator := ends_with_slash p in
      let q := Js.join_slash (normalize_segments (negb isAbsolute) [] (Js.split_slash p)) in
      match q with
      | EmptyString => if isAbsolute then "/" else if trailingSeparator then "./" else "."
      | _ =>
          let q' := if trailingSeparator then q +:+ "/" else q in
          if isAbsolute then "/" +:+ q' else q'
      end
  end.

Definition join (a b : string) : string :=
  match a, b with
  | EmptyString, EmptyString => "."
  | EmptyString, _ => normalize b
  | _, EmptyString => normalize a
  | _, _ => normalize (a +:+ "/" +:+ b)
  end.

Definition is_slash (c : ascii) : bool := Ascii.eqb c "/".

Fixpoint drop_while (f : ascii → bool) (l : list ascii) : list ascii :=
  match l with
  | c :: l' => if f c then drop_while f l' else l
  | [] => []
  end.

Fixpoint take_while (f : ascii → bool) (l : list ascii) : list ascii :=
  match l with
  | c :: l' => if f c then c :: take_while f l' else []
  | [] => []
  end.

Definition dirname (p : string) : string :=
  match p with
  | EmptyString => "."
  | String c0 rest =>
      let hasRoot := is_slash c0 in
      let r := drop_while (fun c => negb (is_slash c))
                 (drop_while is_slash (rev (list_ascii_of_string rest))) in
      match r with
      | [] => if hasRoot then "/" else "."
      | _ :: r' =>
          match r' with
          | [] => if hasRoot then "//" else String c0 EmptyString
          | _ => String c0 (string_of_list_ascii (rev r'))
          end
      end
  end.

(** The last segment of a path, trailing slashes ignored. *)
Definition last_segment (p : string) : string :=
  string_of_list_ascii
    (rev (take_while (fun c => negb (is_slash c))
            (drop_while is_slash (rev (list_ascii_of_string p))))).

Fixpoint strip_suffix_rev (suffix s : list ascii) : option (list ascii) :=
  match suffix with
  | [] => Some s
  | a :: suffix' =>
      match s with
      | b :: s' => if Ascii.eqb a b then strip_suffix_rev suffix' s' else None
      | [] => None
      end
  end.

Definition basename (p ext : string) : string :=
  let b := last_segment p in
  if (Js.truthy ext && (String.length ext <=? String.length p)%nat)%bool then
    if eq_str ext p then EmptyString
    else
      match strip_suffix_rev (rev (list_ascii_of_string ext)) (rev (list_ascii_of_string b)) with
      | Some [] => b
      | Some stem => string_of_list_ascii (rev stem)
      | None => b
      end
  else b.

Definition is_dot (c : ascii) : bool := Ascii.eqb c ".".

Definition extname (p : string) : string :=
  let b := list_ascii_of_string (last_segment p) in
  let r := rev b in
  let tail := take_while (fun c => negb (is_dot c)) r in
  match drop_while (fun c => negb (is_dot c)) r with
  | [] => EmptyString
  | _ :: [] => EmptyString
  | _ :: _ =>
      if eq_str (string_of_list_ascii b) ".." then EmptyString
      else String "." (string_of_list_ascii (rev tail))
  end.

End Posix.

(** ** Records of [src/types/index.ts] *)

Module BackupInfo.
Record t := {
  originalPath : string;
  backupPath : string;
  timestamp : string;
  size : Z
}.
End BackupInfo.

Module TranslationResult.
Record t := {
  originalContent : string;
  translatedContent : string;
  backupPath : string;
  timestamp : string
}.
End TranslationResult.

(** The [mode] of a request: the three values of its type, or whatever else
    arrives at run time. *)
Inductive mode :=
  | replace
  | append
  | parallel
  | other_mode (value : string).

Module TranslationRequest.
Record t := {
  url : string;
  targetLanguage : option string;
  mode : option mode
}.
End TranslationRequest.

Definition newline : string := String (ascii_of_nat 10) EmptyString.

Definition default_language : string := "日本語".

(** [value || fallback] on an optional string. *)
Definition or_string (value : option string) (fallback : string) : string :=
  match value with
  | Some s => if Js.truthy s then s else fallback
  | None => fallback
  end.

(** [request.mode || 'replace']. *)
Definition or_replace (value : option mode) : mode :=
  match value with
  | Some (other_mode EmptyString) => replace
  | Some m => m
  | None => replace
  end.

Definition mode_text (m : mode) : string :=
  match m with
  | replace => "replace"
  | append => "append"
  | parallel => "parallel"
  | other_mode v => v
  end.

(** [.] of a regular expression: any character but a line terminator. *)
Definition line_terminator (c : ascii) : bool :=
  (Nat.eqb (nat_of_ascii c) 10 || Nat.eqb (nat_of_ascii c) 13)%bool.

(** The regular expression [/\\.md$/] of [updateFileByMode]: a backslash, any
    character, [md], the end of the input. *)
Definition md_re : Js.matcher := fun s =>
  match s with
  | String b (String c (String m (String d EmptyString))) =>
      if (Ascii.eqb b "\" && negb (line_terminator c) && Ascii.eqb m "m" && Ascii.eqb d "d")%bool
      then Some (s, EmptyString) else None
  | _ => None
  end.

Section Classes.

Variable X : externals.

(** *** FileSystemHelper *)

Record FileSystemHelper := {
  vaultPath : string;
  backupRetentionDays : Z
}.

Variable this : FileSystemHelper.

Definition getAbsolutePath (relativePath : string) : string :=
  join X (vaultPath this) relativePath.

Definition exists_ (filePath : string) : M bool :=
  try_catch
    (let* _ := Runtime.fs_access (getAbsolutePath filePath) in ret true)
    (fun _ => ret false).

Definition readFile (filePath : string) : M string :=
  try_catch
    (let absolutePath := getAbsolutePath filePath in
     Runtime.fs_readFile absolutePath)
    (fun error =>
       throw (new_Error (ErrorCode.FILE_NOT_FOUND +:+ ": Cannot read file '" +:+ filePath
                         +:+ "': " +:+ render error))).

Definition writeFile (filePath content : string) : M unit :=
  try_catch
    (let absolutePath := getAbsolutePath filePath in
     let* _ := Runtime.fs_mkdir (dirname X absolutePath) in
     Runtime.fs_writeFile absolutePath content)
    (fun error =>
       throw (new_Error (ErrorCode.PERMISSION_DENIED +:+ ": Cannot write file '" +:+ filePath
                         +:+ "': " +:+ render error))).

Definition backup_file_name (filePath : string) (timestamp : Z) : string :=
  let ext := extname X filePath in
  let baseName := basename X filePath ext in
  baseName +:+ ".backup-" +:+ pretty timestamp +:+ ext.

Definition createBackup (filePath : string) : M BackupInfo.t :=
  try_catch
    (let absolutePath := getAbsolutePath filePath in
     let* content := Runtime.fs_readFile absolutePath in
     let* timestamp := Runtime.Date_now in
     let dir := dirname X filePath in
     let backupFileName := backup_file_name filePath timestamp in
     let backupPath := join X dir backupFileName in
     let backupAbsolutePath := getAbsolutePath backupPath in
     let* _ := Runtime.fs_writeFile backupAbsolutePath content in
     let* stats := Runtime.fs_stat backupAbsolutePath in
     ret {| BackupInfo.originalPath := filePath;
            BackupInfo.backupPath := backupPath;
            BackupInfo.timestamp := toISOString X timestamp;
            BackupInfo.size := Runtime.size stats |})
    (fun error =>
       throw (new_Error (ErrorCode.BACKUP_FAILED +:+ ": Cannot create backup for '" +:+ filePath
                         +:+ "': " +:+ render error))).

Definition cleanupOldBackups (directory : string) : M unit :=
  try_catch
    (let dirPath := getAbsolutePath directory in
     let* files := Runtime.fs_readdir dirPath in
     let* now := Runtime.Date_now in
     let cutoffDate := minus_days X now (backupRetentionDays this) in
     for_of files (fun file =>
       if (snd file && Js.includes ".backup-" (fst file))%bool then
         let filePath := join X dirPath (fst file) in
         let* stats := Runtime.fs_stat filePath in
         if (Runtime.mtime_of stats <? cutoffDate)%Z then Runtime.fs_unlink filePath
         else ret tt
       else ret tt))
    (fun error =>
       Runtime.console_warn ("Warning: Failed to cleanup old backups in '" +:+ directory
                             +:+ "': " +:+ render error)).

(** *** TranslationService *)

Definition model_id : string := "claude-3-haiku-20240307".

Definition createTranslationPrompt (content targetLanguage : string) : string :=
  "以下のMarkdownテキストを" +:+ targetLanguage +:+ "に翻訳してください。" +:+ newline
  +:+ newline
  +:+ "翻訳時の注意事項：" +:+ newline
  +:+ "1. コードブロック（```で囲まれた部分）は翻訳しないでください" +:+ newline
  +:+ "2. WikiLink形式（[[リンク]]）とMarkdownリンク形式（[テキスト](URL)）は構造を保持してください" +:+ newline
  +:+ "3. 見出し（#）の階層構造は保持してください" +:+ newline
  +:+ "4. 箇条書きやナンバリングの形式は保持してください" +:+ newline
  +:+ "5. 自然で読みやすい" +:+ targetLanguage +:+ "に翻訳してください" +:+ newline
  +:+ "6. 技術用語は適切な日本語に翻訳するか、必要に応じて英語のまま残してください" +:+ newline
  +:+ newline
  +:+ "翻訳するテキスト：" +:+ newline
  +:+ content +:+ newline
  +:+ newline
  +:+ "翻訳されたテキストのみを出力してください。説明や追加のコメントは不要です。".

Definition translation_request (prompt : string) : message_request :=
  {| model := model_id; max_tokens := 4000; user_content := prompt |}.

(** [response.content[0].type === 'text' ? response.content[0].text : bodyContent];
    reading [type] of a missing first segment throws a [TypeError]. *)
Definition first_text (response : list content_block) (bodyContent : string) : thrown + string :=
  match response with
  | TextBlock text :: _ => inr text
  | OtherBlock _ :: _ => inr bodyContent
  | [] => inl (ErrorObj "TypeError" "Cannot read properties of undefined (reading 'type')")
  end.

Definition translated_entry (date targetLanguage : string) : yaml :=
  YMapping [("date", date); ("target_language", targetLanguage); ("model", model_id)].

Definition translateContent (content : string) (targetLanguage : option string) : M string :=
  let targetLanguage := default default_language targetLanguage in
  try_catch
    (let* parsed := lift (matter X content) in
     let '(frontmatter, bodyContent) := parsed in
     if negb (Js.truthy (Js.trim bodyContent)) then ret content
     else
       let prompt := createTranslationPrompt bodyContent targetLanguage in
       let* response := Runtime.messages_create (translation_request prompt) in
       let* translatedContent := lift (first_text response bodyContent) in
       let* date := Runtime.Date_now in
       let updatedFrontmatter :=
         Js.map_set "translated" (translated_entry (toISOString X date) targetLanguage)
                    frontmatter in
       lift (matter_stringify X translatedContent updatedFrontmatter))
    (fun error =>
       throw (new_Error (ErrorCode.TRANSLATION_FAILED +:+ ": Translation failed: "
                         +:+ render error))).

(** *** TranslateTool *)

Variable configuredVault : string.

Definition append_separator : string := "\n\n---\n\n# 翻訳版\n\n".

Definition parallel_path (filePath : string) : string :=
  Js.replace_first md_re ".ja.md" filePath.

Definition updateFileByMode (filePath originalContent translatedContent : string)
    (m : mode) : M unit :=
  match m with
  | replace => writeFile filePath translatedContent
  | append =>
      let appendedContent := originalContent +:+ append_separator +:+ translatedContent in
      writeFile filePath appendedContent
  | parallel =>
      let parallelPath := parallel_path filePath in
      writeFile parallelPath translatedContent
  | other_mode v =>
      throw (new_Error (ErrorCode.TRANSLATION_FAILED +:+ ": Invalid mode '" +:+ v +:+ "'"))
  end.

(** [path.split('/').slice(0, -1).join('/')]. *)
Definition containing_directory (p : string) : string :=
  Js.join_slash (Js.drop_last (Js.split_slash p)).

Definition execute (request : TranslationRequest.t) : M TranslationResult.t :=
  try_catch
    (let* parsedUrl := lift (parse X (TranslationRequest.url request)) in
     let* _ := lift (validateVault X (vault parsedUrl) configuredVault) in
     let* _ := lift (validatePath X (path parsedUrl)) in
     let* found := exists_ (path parsedUrl) in
     if negb found then
       throw (new_Error (ErrorCode.FILE_NOT_FOUND +:+ ": File '" +:+ path parsedUrl
                         +:+ "' not found"))
     else
       let* originalContent := readFile (path parsedUrl) in
       let* backupInfo := createBackup (path parsedUrl) in
       let* translatedContent :=
         translateContent originalContent
           (Some (or_string (TranslationRequest.targetLanguage request) default_language)) in
       let* _ := updateFileByMode (path parsedUrl) originalContent translatedContent
                   (or_replace (TranslationRequest.mode request)) in
       let* _ := cleanupOldBackups (containing_directory (path parsedUrl)) in
       ret {| TranslationResult.originalContent := originalContent;
              TranslationResult.translatedContent := translatedContent;
              TranslationResult.backupPath := BackupInfo.backupPath backupInfo;
              TranslationResult.timestamp := BackupInfo.timestamp backupInfo |})
    (fun error =>
       if instanceof_Error error then throw error
       else throw (new_Error (ErrorCode.TRANSLATION_FAILED +:+ ": Unknown error occurred"))).

(** The request [executeBatch] builds for one address. *)
Definition batch_request (url : string) (targetLanguage : option string) : TranslationRequest.t :=
  {| TranslationRequest.url := url;
     TranslationRequest.targetLanguage := Some (default default_language targetLanguage);
     TranslationRequest.mode := Some replace |}.

(** The loop of [executeBatch] over the method it calls, [this.execute];
    [results] is the array built so far. *)
Fixpoint executeBatch_loop (this_execute : TranslationRequest.t → M TranslationResult.t)
    (urls : list string) (targetLanguage : option string)
    (results : list TranslationResult.t) : M (list TranslationResult.t) :=
  match urls with
  | [] => ret results
  | url :: urls' =>
      let* results' :=
        try_catch
          (let* result := this_execute (batch_request url targetLanguage) in
           ret (results ++ [result])%list)
          (fun error =>
             let* _ := Runtime.console_error ("Failed to translate " +:+ url +:+ ": "
                                              +:+ render error) in
             ret results) in
      executeBatch_loop this_execute urls' targetLanguage results'
  end.

Definition executeBatch (urls : list string) (targetLanguage : option string)
    : M (list TranslationResult.t) :=
  executeBatch_loop execute urls targetLanguage [].

End Classes.

(** ** ObsidianUrlParser *)

Module ObsidianUrlParser.

Definition hex_digit (c : ascii) : option nat :=
  let n := nat_of_ascii c in
  if ((48 <=? n) && (n <=? 57))%nat then Some (n - 48)
  else if ((65 <=? n) && (n <=? 70))%nat then Some (n - 55)
  else if ((97 <=? n) && (n <=? 102))%nat then Some (n - 87)
  else None.

(** Percent-decoding; a [%] that two hexadecimal digits do not follow is kept. *)
Fixpoint percent_decode (s : string) : string :=
  match s with
  | EmptyString => EmptyString
  | String c t =>
      if Ascii.eqb c "%" then
        match t with
        | String h (String l r) =>
            match hex_digit h, hex_digit l with
            | Some a, Some b => String (ascii_of_nat (16 * a + b)) (percent_decode r)
            | _, _ => String c (percent_decode t)
            end
        | _ => String c (percent_decode t)
        end
      else String c (percent_decode t)
  end.

(** Path separators normalised to forward slashes. *)
Fixpoint forward_slashes (s : string) : string :=
  match s with
  | EmptyString => EmptyString
  | String c t => String (if Ascii.eqb c "\" then "/"%char else c) (forward_slashes t)
  end.

Fixpoint split_on (sep : ascii) (s : string) : list string :=
  match s with
  | EmptyString => [EmptyString]
  | String c s' =>
      if Ascii.eqb c sep then EmptyString :: split_on sep s'
      else
        match split_on sep s' with
        | h :: t => String c h :: t
        | [] => [String c EmptyString]
        end
  end.

(** The value of the first query parameter called [key]. *)
Fixpoint query_param (key : string) (params : list string) : option string :=
  match params with
  | [] => None
  | p :: params' =>
      match Js.strip_prefix (key +:+ "=") p with
      | Some v => Some v
      | None => query_param key params'
      end
  end.

(** Modelled from the spec: [parse] of [src/utils/obsidian-url.ts], which
    is not among the sources. It fails with the malformed-address error
    unless the address uses the [obsidian] scheme, targets the [open]
    action and carries the [vault] and [file] parameters; it percent-decodes
    the path and normalises its separators to forward slashes. *)
Definition parse (address : string) : thrown + parsed_url :=
  match Js.strip_prefix "obsidian://open?" address with
  | None =>
      inl (new_Error (ErrorCode.INVALID_URL +:+ ": Invalid Obsidian URL '" +:+ address +:+ "'"))
  | Some query =>
      let params := split_on "&" query in
      match query_param "vault" params, query_param "file" params with
      | Some v, Some f =>
          if (Js.truthy v && Js.truthy f)%bool
          then inr {| vault := v; path := forward_slashes (percent_decode f) |}
          else inl (new_Error (ErrorCode.INVALID_URL +:+ ": Missing vault or file parameter"))
      | _, _ =>
          inl (new_Error (ErrorCode.INVALID_URL +:+ ": Missing vault or file parameter"))
      end
  end.

(** Modelled from the spec: [validateVault] of [src/utils/obsidian-url.ts]:
    an exact, case-sensitive comparison with the configured collection. *)
Definition validateVault (requested configured : string) : thrown + unit :=
  if String.eqb requested configured then inr tt
  else inl (new_Error (ErrorCode.VAULT_MISMATCH +:+ ": Vault '" +:+ requested
                       +:+ "' does not match configured vault '" +:+ configured +:+ "'")).

Definition drive_letter (p : string) : bool :=
  match p with
  | String c (String colon _) =>
      let n := nat_of_ascii c in
      (Ascii.eqb colon ":"
       && (((65 <=? n) && (n <=? 90)) || ((97 <=? n) && (n <=? 122)))%nat)%bool
  | _ => false
  end.

Definition hidden_segment (seg : string) : bool :=
  match seg with String c _ => Ascii.eqb c "." | EmptyString => false end.

(** Modelled from the spec: [validatePath] of [src/utils/obsidian-url.ts]:
    the traversal check ([..] or [~]), then absoluteness (a leading
    separator or a drive letter), then hidden segments; the first violation
    is reported. *)
Definition validatePath (p : string) : thrown + unit :=
  if (Js.includes ".." p || Js.includes "~" p)%bool then
    inl (new_Error (ErrorCode.INVALID_PATH +:+ ": Path traversal is not allowed"))
  else if (Posix.is_absolute p || drive_letter p)%bool then
    inl (new_Error (ErrorCode.INVALID_PATH +:+ ": Absolute paths are not allowed"))
  else if existsb hidden_segment (Js.split_slash p) then
    inl (new_Error (ErrorCode.INVALID_PATH +:+ ": Hidden files are not allowed"))
  else inr tt.

End ObsidianUrlParser.

(** ** [Date] and [gray-matter], for closed examples *)

Module Libs.

Local Open Scope Z_scope.

Definition pad (width : nat) (n : Z) : string :=
  let digits := pretty n in
  string_of_list_ascii (replicate (width - String.length digits)%nat "0"%char) +:+ digits.

(** [toISOString] in the proleptic Gregorian calendar, for the years 0 to 9999. *)
Definition toISOString (millis : Z) : string :=
  let days := millis / 86400000 in
  let ms := millis mod 86400000 in
  let z := days + 719468 in
  let era := z / 146097 in
  let doe := z - era * 146097 in
  let yoe := (doe - doe / 1460 + doe / 36524 - doe / 146096) / 365 in
  let doy := doe - (365 * yoe + yoe / 4 - yoe / 100) in
  let mp := (5 * doy + 2) / 153 in
  let d := doy - (153 * mp + 2) / 5 + 1 in
  let m := if mp <? 10 then mp + 3 else mp - 9 in
  let y := yoe + era * 400 + (if m <=? 2 then 1 else 0) in
  pad 4 y +:+ "-" +:+ pad 2 m +:+ "-" +:+ pad 2 d +:+ "T"
  +:+ pad 2 (ms / 3600000) +:+ ":" +:+ pad 2 (ms / 60000 mod 60) +:+ ":"
  +:+ pad 2 (ms / 1000 mod 60) +:+ "." +:+ pad 3 (ms mod 1000) +:+ "Z".

(** [setDate(getDate() - days)] where the local time zone is UTC. *)
Definition minus_days (millis days : Z) : Z := millis - days * 86400000.

Local Close Scope Z_scope.

Definition fm_delimiter : string := "---" +:+ newline.

(** The longest prefix without a line feed, and what follows the line feed. *)
Fixpoint cut_line (s : string) : string * option string :=
  match s with
  | EmptyString => (EmptyString, None)
  | String c s' =>
      if Nat.eqb (nat_of_ascii c) 10 then (EmptyString, Some s')
      else let '(l, rest) := cut_line s' in (String c l, rest)
  end.

(** A line [key: value] of a front matter block. *)
Definition parse_entry (line : string) : string * yaml :=
  match Js.find_first ": " line with
  | Some (k, v) => (k, YString v)
  | None => (line, YOther EmptyString)
  end.

(** The lines up to the closing delimiter, and the body behind it. *)
Fixpoint read_block (fuel : nat) (s : string) : option (frontmatter * string) :=
  match fuel with
  | O => None
  | S fuel' =>
      match cut_line s with
      | (line, Some rest) =>
          if String.eqb line "---" then Some ([], rest)
          else
            match read_block fuel' rest with
            | Some (data, body) => Some (parse_entry line :: data, body)
            | None => None
            end
      | (line, None) => if String.eqb line "---" then Some ([], EmptyString) else None
      end
  end.

(** [matter(content)] for front matter made of [key: value] lines: without
    an opening delimiter, or without a closing one, the whole text is the
    body. *)
Definition matter (content : string) : thrown + (frontmatter * string) :=
  match Js.strip_prefix fm_delimiter content with
  | Some rest =>
      match read_block (S (String.length rest)) rest with
      | Some r => inr r
      | None => inr ([], content)
      end
  | None => inr ([], content)
  end.

Definition print_entry (e : string * yaml) : string :=
  match snd e with
  | YString v => fst e +:+ ": " +:+ v +:+ newline
  | YOther _ => fst e +:+ newline
  | YMapping kvs =>
      fst e +:+ ":" +:+ newline
      +:+ fold_right (fun kv acc => "  " +:+ fst kv +:+ ": " +:+ snd kv +:+ newline +:+ acc)
            EmptyString kvs
  end.

Fixpoint ends_with_newline (s : string) : bool :=
  match s with
  | EmptyString => false
  | String c EmptyString => Nat.eqb (nat_of_ascii c) 10
  | String _ s' => ends_with_newline s'
  end.

(** [matter.stringify(content, data)]: [content] is parsed as [matter]
    parses it, and the keys of [data] are set in the front matter found
    there; the result is the block, then the body, which is made to end
    with a line feed. *)
Definition matter_stringify (content : string) (data : frontmatter) : thrown + string :=
  match matter content with
  | inl e => inl e
  | inr (found, text) =>
      let merged := fold_left (fun acc e => Js.map_set (fst e) (snd e) acc) data found in
      let body := if ends_with_newline text then text else text +:+ newline in
      inr (fm_delimiter
           +:+ fold_right (fun e acc => print_entry e +:+ acc) EmptyString merged
           +:+ fm_delimiter +:+ body)
  end.

End Libs.

(** The libraries as a POSIX process sees them. *)
Definition node_externals : externals :=
  {| join := Posix.join;
     dirname := Posix.dirname;
     basename := Posix.basename;
     extname := Posix.extname;
     toISOString := Libs.toISOString;
     minus_days := Libs.minus_days;
     matter := Libs.matter;
     matter_stringify := Libs.matter_stringify;
     parse := ObsidianUrlParser.parse;
     validateVault := ObsidianUrlParser.validateVault;
     validatePath := ObsidianUrlParser.validatePath |}.

(** ** Vocabulary of the properties *)

(** The content of the file at an absolute path, if there is a file. *)
Definition content_at (w : world) (p : string) : option string :=
  match nodes w !! p with
  | Some (File content _) => Some content
  | _ => None
  end.

(** A write to this path would go through. *)
Definition writable (w : world) (p : string) : Prop :=
  (p ∉ refused w) ∧ nodes w !! p ≠ Some Dir.

(** The run from [w] to [w'] appended the events [evs], all of which satisfy [P]. *)
Definition emits (P : event → Prop) (w w' : world) : Prop :=
  ∃ evs, trace w' = (trace w ++ evs)%list ∧ Forall P evs.

(** Every run of [m] respects the relation [R] between the worlds. *)
Definition keeps {A} (R : world → world → Prop) (m : M A) : Prop :=
  ∀ w r w', m w = (r, w') → R w w'.

(** The text is empty or made of white space only: of the characters
    [trim] removes. *)
Definition whitespace_only (s : string) : bool := Js.all_white_space s.

(** An event other than a call of the generation service. *)
Definition no_generate (e : event) : Prop :=
  match e with Generate _ => False | _ => True end.



(** The error [translateContent] throws for the cause it caught. *)
Definition translation_failed (cause : thrown) : thrown :=
  new_Error (ErrorCode.TRANSLATION_FAILED +:+ ": Translation failed: " +:+ render cause).

Section Vocabulary.

Variable X : externals.
Variable this : FileSystemHelper.

Local Abbreviation abs := (getAbsolutePath X this).

(** The path of the backup taken of [filePath] at the time [millis]. *)
Definition backup_path (filePath : string) (millis : Z) : string :=
  join X (dirname X filePath)
    (basename X filePath (extname X filePath) +:+ ".backup-" +:+ pretty millis
     +:+ extname X filePath).

Definition backup_failed (filePath : string) (cause : thrown) : thrown :=
  new_Error (ErrorCode.BACKUP_FAILED +:+ ": Cannot create backup for '" +:+ filePath
             +:+ "': " +:+ render cause).

(** The world after a backup that went through. *)
Definition backed_up (filePath content : string) (w : world) : world :=
  let target := abs (backup_path filePath (clock w (ticks w))) in
  log (FsStat target)
    (set_nodes (<[target := File content (clock w (S (ticks w)))]> (nodes w))
       (log (FsWriteFile target content) (tick (log (FsReadFile (abs filePath)) w)))).

End Vocabulary.

(** ** A vault for closed examples *)

Module Example.

Definition store : FileSystemHelper :=
  {| vaultPath := "/vault"; backupRetentionDays := 30 |}.

Definition start_millis : Z := 1700000000000.

(** A vault with the note [notes/a.md]; the service answers [answer]. *)
Definition vault_with (content : string) (answer : thrown + list content_block) : world :=
  {| nodes := {[ "/vault/notes" := Dir; "/vault/notes/a.md" := File content 1600000000000 ]};
     refused := ∅;
     clock := fun n => (Z.of_nat n + start_millis)%Z;
     ticks := 0;
     generation := fun _ _ => answer;
     calls := 0;
     trace := [] |}.

Definition address (file : string) : string :=
  "obsidian://open?vault=Main&file=" +:+ file.

(** A vault with the notes [notes/a.md] and [notes/c.md]. *)
Definition two_notes : world :=
  {| nodes := {[ "/vault/notes" := Dir;
                 "/vault/notes/a.md" := File "Hello" 1600000000000;
                 "/vault/notes/c.md" := File "World" 1600000000000 ]};
     refused := ∅;
     clock := fun n => (Z.of_nat n + start_millis)%Z;
     ticks := 0;
     generation := fun _ _ => inr [TextBlock "Bonjour"];
     calls := 0;
     trace := [] |}.

(** Three addresses; there is no note [notes/b.md]. *)
Definition three_addresses : list string :=
  [address "notes/a.md"; address "notes/b.md"; address "notes/c.md"].

Definition request (file : string) (m : mode) : TranslationRequest.t :=
  {| TranslationRequest.url := address file;
     TranslationRequest.targetLanguage := Some "French";
     TranslationRequest.mode := Some m |}.

(** The batch over the three addresses. *)
Definition batch : (thrown + list TranslationResult.t) * world :=
  executeBatch node_externals store "Main" three_addresses (Some "French") two_notes.

Definition batch_results : list TranslationResult.t :=
  match fst batch with inr results => results | inl _ => [] end.

(** The document [matter.stringify] makes of a text and a front matter. *)
Definition composed (text : string) (data : frontmatter) : string :=
  match matter_stringify node_externals text data with
  | inr document => document
  | inl _ => EmptyString
  end.


(** A note with an inline code span, and an answer of the service that has
    lost the backticks. *)
Definition note_with_code : string := "Run `npm install` first.".

Definition answer_without_code : thrown + list content_block :=
  inr [TextBlock "Lancez npm install d'abord."].

(** A service that refuses the call. *)
Definition overloaded : thrown + list content_block :=
  inl (new_Error "529 overloaded").

(** The pipeline on [notes/a.md], which holds [content]. *)
Definition run (content : string) (answer : thrown + list content_block) (m : mode)
    : (thrown + TranslationResult.t) * world :=
  execute node_externals store "Main" (request "notes/a.md" m) (vault_with content answer).

(** A document made of a metadata block only. *)
Definition metadata_only : string :=
  "---" +:+ newline +:+ "title: Note" +:+ newline +:+ "---" +:+ newline.

(** U+3000 and U+00A0, as their UTF-8 bytes. *)
Definition ideographic_space : string := String "227" (String "128" (String "128" EmptyString)).
Definition no_break_space : string := String "194" (String "160" EmptyString).

(** A document whose body is an ideographic space, a no-break space, a
    tabulation and a line break. *)
Definition wide_blank_body : string :=
  ideographic_space +:+ no_break_space +:+ String "009" newline.
Definition wide_blank : string := metadata_only +:+ wide_blank_body.

End Example.

Section Stages.

Variable X : externals.
Variable this : FileSystemHelper.
Variable configuredVault : string.

(** What the handler of [execute] throws for the value it caught. *)
Definition rethrown (error : thrown) : thrown :=
  if instanceof_Error error then error
  else new_Error (ErrorCode.TRANSLATION_FAILED +:+ ": Unknown error occurred").

(** The address of a request, once parsed and validated. *)
Definition located (request : TranslationRequest.t) : thrown + parsed_url :=
  match parse X (TranslationRequest.url request) with
  | inl e => inl e
  | inr parsedUrl =>
      match validateVault X (vault parsedUrl) configuredVault with
      | inl e => inl e
      | inr _ =>
          match validatePath X (path parsedUrl) with
          | inl e => inl e
          | inr _ => inr parsedUrl
          end
      end
  end.

Definition not_found (filePath : string) : thrown :=
  new_Error (ErrorCode.FILE_NOT_FOUND +:+ ": File '" +:+ filePath +:+ "' not found").

(** The stages of [execute] behind the backup: translate, apply, clean up. *)
Definition translate_and_apply (request : TranslationRequest.t) (filePath : string)
    (originalContent : string) (backupInfo : BackupInfo.t) : M TranslationResult.t :=
  let* translatedContent :=
    translateContent X originalContent
      (Some (or_string (TranslationRequest.targetLanguage request) default_language)) in
  let* _ := updateFileByMode X this filePath originalContent translatedContent
              (or_replace (TranslationRequest.mode request)) in
  let* _ := cleanupOldBackups X this (containing_directory filePath) in
  ret {| TranslationResult.originalContent := originalContent;
         TranslationResult.translatedContent := translatedContent;
         TranslationResult.backupPath := BackupInfo.backupPath backupInfo;
         TranslationResult.timestamp := BackupInfo.timestamp backupInfo |}.

End Stages.

(** ** Vocabulary of the batch *)

(** The results among the outcomes. *)
Definition successes {A} (outcomes : list (thrown + A)) : list A :=
  omap (fun o => match o with inr a => Some a | inl _ => None end) outcomes.

Section Batch.

Variable this_execute : TranslationRequest.t → M TranslationResult.t.

(** One pass of the loop of [executeBatch]: the outcome of the pipeline for
    the address; a failure is written to the console. *)
Definition batch_item (url : string) (targetLanguage : option string) (w : world)
    : (thrown + TranslationResult.t) * world :=
  match this_execute (batch_request url targetLanguage) w with
  | (inl error, w') =>
      (inl error,
       log (ConsoleError ("Failed to translate " +:+ url +:+ ": " +:+ render error)) w')
  | (inr result, w') => (inr result, w')
  end.

(** The outcome of every address of the batch, in the order of the input,
    each pipeline starting in the world the one before it left. *)
Fixpoint batch_outcomes (urls : list string) (targetLanguage : option string) (w : world)
    : list (thrown + TranslationResult.t) * world :=
  match urls with
  | [] => ([], w)
  | url :: urls' =>
      let '(o, w1) := batch_item url targetLanguage w in
      let '(os, w2) := batch_outcomes urls' targetLanguage w1 in
      (o :: os, w2)
  end.

End Batch.

(** ** Vocabulary of the guard *)

(** The text has no backslash. *)
Fixpoint no_backslash (s : string) : bool :=
  match s with
  | EmptyString => true
  | String c s' => (negb (Ascii.eqb c "\") && no_backslash s')%bool
  end.

(** The text has no backtick. *)
Fixpoint no_backtick (s : string) : bool :=
  match s with
  | EmptyString => true
  | String c s' => (negb (Ascii.eqb c Guard.backtick) && no_backtick s')%bool
  end.

(** An inline code span: a backtick, one character or more none of which is
    a backtick, a backtick. *)
Definition inline_span (s : string) : Prop :=
  ∃ code, code ≠ EmptyString ∧ no_backtick code = true
          ∧ s = String Guard.backtick (code +:+ String Guard.backtick EmptyString).

(** A fenced block with an inline-looking span inside. *)
Definition fenced_with_inline : string :=
  "```" +:+ newline +:+ "`x`" +:+ newline +:+ "```".

(** ** Further vocabulary *)

(** The contents of the files are the same in both worlds. *)
Definition same_files (w w' : world) : Prop :=
  ∀ q, content_at w' q = content_at w q.

(** From [w] to [w'] entries were removed at most, and each one removed
    satisfies [expired] for the path and the entry it had. *)
Definition only_removed (expired : string → node → Prop) (w w' : world) : Prop :=
  ∀ q, nodes w' !! q = nodes w !! q
       ∨ (nodes w' !! q = None ∧ ∃ n, nodes w !! q = Some n ∧ expired q n).

(** The value of a key of a [Map] or an object. *)
Fixpoint map_get {V : Type} (k : string) (m : list (string * V)) : option V :=
  match m with
  | [] => None
  | (k', v) :: m' => if String.eqb k k' then Some v else map_get k m'
  end.

Module Example2.

(** A vault in which [notes/locked.md] cannot be written. *)
Definition with_locked : world :=
  {| nodes := {[ "/vault/notes" := Dir;
                 "/vault/notes/a.md" := File "Hello" 1600000000000 ]};
     refused := {[ "/vault/notes/locked.md" ]};
     clock := fun n => (Z.of_nat n + Example.start_millis)%Z;
     ticks := 0;
     generation := fun _ _ => inr [TextBlock "Bonjour"];
     calls := 0;
     trace := [] |}.

(** A vault with a note, a backup of it taken long ago and a recent one. *)
Definition with_backups : world :=
  {| nodes := {[ "/vault/notes" := Dir;
                 "/vault/notes/a.md" := File "Hello" 1600000000000;
                 "/vault/notes/a.backup-1600000000000.md" := File "Old" 1600000000000;
                 "/vault/notes/a.backup-1699999999000.md" := File "New" 1699999999000 ]};
     refused := ∅;
     clock := fun n => (Z.of_nat n + Example.start_millis)%Z;
     ticks := 0;
     generation := fun _ _ => inr [TextBlock "Bonjour"];
     calls := 0;
     trace := [] |}.

End Example2.

Module Example3.

(** A note with front matter that already records a translation. *)
Definition translated_before : string :=
  "---" +:+ newline +:+ "title: Note" +:+ newline +:+ "translated: yesterday" +:+ newline
  +:+ "author: A" +:+ newline +:+ "---" +:+ newline +:+ "Hello".

(** An answer whose first segment is not a text. *)
Definition tool_answer : thrown + list content_block :=
  inr [OtherBlock "tool_use"; TextBlock "Bonjour"].

(** An answer without segments. *)
Definition empty_answer : thrown + list content_block := inr [].

End Example3.

(** ** [translateBatch] of TranslationService *)

Section TranslateBatch.

Variable X : externals.

(** [Promise.allSettled(batch.map(content => this.translateContent(content,
    targetLanguage)))]: the outcome of every translation of the chunk, in
    the order of the chunk; it never rejects. The translations of a chunk are
    started together: their requests are issued in the order of the chunk,
    which is the order they are run in here, and only the order in which
    their answers are handled, hence which reading of the clock each one
    gets, is left open by the source. *)
Fixpoint allSettled (batch : list string) (targetLanguage : option string)
    : M (list (thrown + string)) :=
  match batch with
  | [] => ret []
  | content :: batch' =>
      let* result := (fun w => let '(r, w') := translateContent X content targetLanguage w in
                               (inr r, w')) in
      let* results := allSettled batch' targetLanguage in
      ret (result :: results)
  end.

(** The body of the inner loop: [results.push(result.value)] or
    [results.push(contents[results.length])]; an index out of range reads
    [undefined], which is [None]. *)
Definition push_settled (contents : list string) (results : list (option string))
    (result : thrown + string) : list (option string) :=
  match result with
  | inr value => (results ++ [Some value])%list
  | inl _ => (results ++ [contents !! List.length results])%list
  end.

Definition batchSize : nat := 3.

(** The loop [for (let i = 0; i < contents.length; i += batchSize)]; [fuel]
    bounds the number of chunks. *)
Fixpoint translateBatch_from (fuel : nat) (contents : list string)
    (targetLanguage : option string) (i : nat) (results : list (option string))
    : M (list (option string)) :=
  match fuel with
  | O => ret results
  | S fuel' =>
      if (i <? List.length contents)%nat then
        let batch := take batchSize (drop i contents) in
        let* batchResults := allSettled batch targetLanguage in
        translateBatch_from fuel' contents targetLanguage (i + batchSize)
          (fold_left (push_settled contents) batchResults results)
      else ret results
  end.

Definition translateBatch (contents : list string) (targetLanguage : option string)
    : M (list (option string)) :=
  translateBatch_from (S (List.length contents)) contents
    (Some (default default_language targetLanguage)) 0 [].

End TranslateBatch.

Module Example4.

(** Four documents; the service fails on every call. *)
Definition four_documents : list string := ["One"; "Two"; "Three"; "Four"].

Definition batch_when_overloaded : (thrown + list (option string)) * world :=
  translateBatch node_externals four_documents (Some "French")
    (Example.vault_with "Hello" Example.overloaded).

End Example4.

(** ** Vocabulary of the pipeline *)

(** The path (in the vault) and the content [updateFileByMode] writes. *)
Definition applied (m : mode) (filePath originalContent translatedContent : string)
    : string * string :=
  match m with
  | append => (filePath, originalContent +:+ append_separator +:+ translatedContent)
  | parallel => (parallel_path filePath, translatedContent)
  | _ => (filePath, translatedContent)
  end.

(** An event of a cleanup. *)
Definition cleanup_event (e : event) : Prop :=
  match e with
  | FsReaddir _ | FsStat _ | FsUnlink _ | ConsoleWarn _ => True
  | _ => False
  end.

(** The error of [updateFileByMode] for a mode it does not know. *)
Definition invalid_mode (value : string) : thrown :=
  new_Error (ErrorCode.TRANSLATION_FAILED +:+ ": Invalid mode '" +:+ value +:+ "'").

(** ** Vocabulary of the round trip *)

(** The text does not contain the character. *)
Fixpoint lacks (x : ascii) (s : string) : bool :=
  match s with
  | EmptyString => true
  | String c s' => (negb (Ascii.eqb c x) && lacks x s')%bool
  end.

(** [weave holes guarded original]: [guarded] is [original] in which, from
    left to right, the values of [holes] have been replaced by their keys,
    one place for each hole and nothing else changed. *)
Inductive weave : list (string * string) → string → string → Prop :=
  | weave_nil : weave [] EmptyString EmptyString
  | weave_char (c : ascii) (holes : list (string * string)) (guarded original : string) :
      weave holes guarded original →
      weave holes (String c guarded) (String c original)
  | weave_hole (key value : string) (holes : list (string * string))
      (guarded original : string) :
      weave holes guarded original →
      weave ((key, value) :: holes) (key +:+ guarded) (value +:+ original).

(** In the text, the first underscore, if there is one, is followed by an
    underscore. *)
Fixpoint underscore_doubled (s : string) : bool :=
  match s with
  | EmptyString => true
  | String c s' =>
      if Ascii.eqb c "_" then
        match s' with
        | String d _ => Ascii.eqb d "_"
        | EmptyString => false
        end
      else underscore_doubled s'
  end.

Definition is_digit (c : ascii) : bool :=
  ((48 <=? nat_of_ascii c) && (nat_of_ascii c <=? 57))%nat.

Fixpoint all_digits (s : string) : bool :=
  match s with
  | EmptyString => true
  | String c s' => (is_digit c && all_digits s')%bool
  end.

(** A character a fenced match is made of: a backtick or a character of the
    class. *)
Definition fence_char (c : ascii) : bool :=
  (Ascii.eqb c Guard.backtick || Guard.fence_class c)%bool.

Fixpoint fence_chars (s : string) : bool :=
  match s with
  | EmptyString => true
  | String c s' => (fence_char c && fence_chars s')%bool
  end.

(** One step of [restoreCodeBlocks]. *)
Definition restore_step (restoredContent : string) (entry : string * string) : string :=
  let '(placeholder, original) := entry in
  Js.replace_string restoredContent placeholder original.

(** [weave2 inline blocks guarded original]: as [weave], with holes of two
    lists, each list from left to right. *)
Inductive weave2 :
    list (string * string) → list (string * string) → string → string → Prop :=
  | weave2_nil : weave2 [] [] EmptyString EmptyString
  | weave2_char (c : ascii) (inline blocks : list (string * string))
      (guarded original : string) :
      weave2 inline blocks guarded original →
      weave2 inline blocks (String c guarded) (String c original)
  | weave2_inline (key value : string) (inline blocks : list (string * string))
      (guarded original : string) :
      weave2 inline blocks guarded original →
      weave2 ((key, value) :: inline) blocks (key +:+ guarded) (value +:+ original)
  | weave2_block (key value : string) (inline blocks : list (string * string))
      (guarded original : string) :
      weave2 inline blocks guarded original →
      weave2 inline ((key, value) :: blocks) (key +:+ guarded) (value +:+ original).

(** A text made of characters other than the underscore and of placeholders
    of code blocks. *)
Inductive block_guarded : string → Prop :=
  | block_guarded_nil : block_guarded EmptyString
  | block_guarded_char (c : ascii) (s : string) :
      Ascii.eqb c "_" = false → block_guarded s → block_guarded (String c s)
  | block_guarded_key (n : nat) (s : string) :
      block_guarded s → block_guarded (Guard.block_placeholder n +:+ s).

(** An occurrence found behind a prefix that was skipped. *)
Definition shifted (prefix : string) (found : option (string * string))
    : option (string * string) :=
  match found with
  | Some (before, after) => Some (prefix +:+ before, after)
  | None => None
  end.

(** ** FileSystemHelper: searching the vault *)

(** [s.startsWith(prefix)]. *)
Definition startsWith (prefix s : string) : bool :=
  match Js.strip_prefix prefix s with Some _ => true | None => false end.

(** [s.endsWith(suffix)]. *)
Fixpoint endsWith (suffix s : string) : bool :=
  (String.eqb suffix s
   || match s with
      | String _ s' => endsWith suffix s'
      | EmptyString => false
      end)%bool.

(** [s.replace(/^\//, '')]. *)
Definition strip_leading_slash (s : string) : string :=
  match s with
  | String c s' => if Ascii.eqb c "/" then s' else s
  | EmptyString => EmptyString
  end.

Section Search.

Variable X : externals.
Variable this : FileSystemHelper.

(** [s.toLowerCase()]. *)
Variable toLowerCase : string → string.

(** The body of the loop of [getAllMarkdownFiles] for one entry of the
    directory, [getAllMarkdownFiles] itself being [recurse]. An entry is a
    directory when it is not a file. The result is the array [files] after
    the step, or [None] when the bound on the depth was reached below. *)
Definition visit (recurse : string → M (option (list string))) (directory : string)
    (item : string * bool) (files : list string) : M (option (list string)) :=
  let itemPath := join X directory (fst item) in
  if (negb (snd item) && negb (startsWith "." (fst item)))%bool then
    let* subFiles := recurse itemPath in
    ret (match subFiles with
         | Some subFiles => Some (files ++ subFiles)%list
         | None => None
         end)
  else if (snd item && endsWith ".md" (fst item))%bool then
    ret (Some (files ++ [itemPath])%list)
  else ret (Some files).

(** The loop of [getAllMarkdownFiles] inside its [try]: an exception ends
    the loop, and the method returns the files pushed so far. *)
Fixpoint walk (recurse : string → M (option (list string))) (directory : string)
    (items : list (string * bool)) (files : list string) : M (option (list string)) :=
  match items with
  | [] => ret (Some files)
  | item :: items' => fun w =>
      match visit recurse directory item files w with
      | (inr (Some files'), w') => walk recurse directory items' files' w'
      | (inr None, w') => (inr None, w')
      | (inl _, w') => (inr (Some files), w')
      end
  end.

(** [getAllMarkdownFiles]; the recursion follows the nesting of the
    directories, at most [depth] levels: [None] when that bound is reached. *)
Fixpoint getAllMarkdownFiles (depth : nat) (directory : string) : M (option (list string)) :=
  match depth with
  | O => ret None
  | S depth' => fun w =>
      match Runtime.fs_readdir directory w with
      | (inr items, w') => walk (getAllMarkdownFiles depth') directory items [] w'
      | (inl _, w') => (inr (Some []), w')
      end
  end.

(** [file.replace(this.vaultPath, '').replace(/^\//, '')]. *)
Definition relative_path (file : string) : string :=
  strip_leading_slash (Js.replace_string file (vaultPath this) EmptyString).

(** The loop of [searchFiles]: [results] after the files were visited. *)
Fixpoint search_loop (searchTerm : string) (files : list string) (results : list string)
    : M (list string) :=
  match files with
  | [] => ret results
  | file :: files' =>
      let* results' :=
        try_catch
          (let* content := Runtime.fs_readFile file in
           if Js.includes (toLowerCase searchTerm) (toLowerCase content)
           then ret (results ++ [relative_path file])%list
           else ret results)
          (fun _ => ret results) in
      search_loop searchTerm files' results'
  end.

Definition searchFiles (depth : nat) (searchTerm directory : string)
    : M (option (list string)) :=
  try_catch
    (let dirPath := getAbsolutePath X this directory in
     let* files := getAllMarkdownFiles depth dirPath in
     match files with
     | Some files =>
         let* results := search_loop searchTerm files [] in
         ret (Some results)
     | None => ret None
     end)
    (fun error => throw (new_Error ("Search failed: " +:+ render error))).

End Search.

(** *** Vocabulary of the search *)

(** The entries of a directory, as [readdir] lists them. *)
Definition entries (ns : gmap string node) (directory : string) : list (string * bool) :=
  omap (Runtime.child_of directory) (map_to_list ns).

(** A listing of a directory, or the reading of a file. *)
Definition listing (e : event) : Prop :=
  match e with FsReaddir _ => True | _ => False end.

Definition reading (e : event) : Prop :=
  match e with FsReaddir _ | FsReadFile _ => True | _ => False end.

(** [p] is the path the walk makes for a file of the store whose name ends
    in [.md], in a directory of the store. *)
Definition markdown_file_of (X : externals) (ns : gmap string node) (p : string) : Prop :=
  ∃ d name content mtime,
    ns !! d = Some Dir
    ∧ ns !! (d +:+ "/" +:+ name) = Some (File content mtime)
    ∧ endsWith ".md" name = true
    ∧ p = join X d name.

(** The length of the longest path of the store. *)
Definition longest_path (ns : gmap string node) : nat :=
  foldr (fun e n => Nat.max (String.length (fst e)) n) 0 (map_to_list ns).

(** For every directory of the store, [join] makes the path of each of its
    subdirectories by putting a slash between the two. *)
Definition joins_extend (X : externals) (ns : gmap string node) : bool :=
  forallb (fun e =>
             match snd e with
             | Dir =>
                 forallb (fun item =>
                            (snd item
                             || String.eqb (join X (fst e) (fst item))
                                  (fst e +:+ "/" +:+ fst item))%bool)
                         (entries ns (fst e))
             | File _ _ => true
             end)
          (map_to_list ns).

(** Every run of [m] returns a value and leaves the store as it is, after
    events that all satisfy [P]. *)
Definition returns_quietly {A} (P : event → Prop) (m : M A) : Prop :=
  ∀ w, ∃ a w', m w = (inr a, w') ∧ nodes w' = nodes w ∧ emits P w w'.

Module Example5.

(** Lower case for texts of ASCII letters. *)
Definition lower_char (c : ascii) : ascii :=
  let n := nat_of_ascii c in
  if ((65 <=? n) && (n <=? 90))%nat then ascii_of_nat (n + 32) else c.

Fixpoint ascii_lower (s : string) : string :=
  match s with
  | EmptyString => EmptyString
  | String c s' => String (lower_char c) (ascii_lower s')
  end.

(** A vault with a note at the root, a directory with two notes and a
    picture, a directory inside it, and a hidden directory. *)
Definition library : world :=
  {| nodes := {[ "/vault" := Dir;
                 "/vault/index.md" := File "Tea and Coffee" 1600000000000;
                 "/vault/notes" := Dir;
                 "/vault/notes/a.md" := File "green TEA" 1600000000000;
                 "/vault/notes/b.md" := File "water" 1600000000000;
                 "/vault/notes/c.png" := File "tea" 1600000000000;
                 "/vault/notes/deep" := Dir;
                 "/vault/notes/deep/d.md" := File "Teapot" 1600000000000;
                 "/vault/.obsidian" := Dir;
                 "/vault/.obsidian/e.md" := File "tea" 1600000000000 ]};
     refused := ∅;
     clock := fun n => (Z.of_nat n + Example.start_millis)%Z;
     ticks := 0;
     generation := fun _ _ => inr [];
     calls := 0;
     trace := [] |}.

End Example5.

(** ** The server: calling the translation tool *)

(** [McpError] of the protocol library, with the codes the server uses. *)
Module Mcp.
Inductive code :=
  | InvalidParams
  | InternalError
  | MethodNotFound.
Record error := {
  error_code : code;
  error_message : string
}.
End Mcp.

(** The arguments object of a call of [translate_obsidian_note]: each of
    the three is a string or is missing. A call may also come without an
    arguments object: [args] is then [undefined], which is [None] where the
    handlers take it. *)
Record translate_arguments := {
  arg_url : option string;
  arg_targetLanguage : option string;
  arg_mode : option mode
}.

(** The response of a tool call: the text of its one content item. *)
Record tool_response := {
  response_text : string
}.

(** [mapErrorCode] of the server. *)
Definition mapErrorCode (errorMessage : string) : Mcp.code :=
  if Js.includes ErrorCode.INVALID_URL errorMessage then Mcp.InvalidParams
  else if Js.includes ErrorCode.FILE_NOT_FOUND errorMessage then Mcp.InvalidParams
  else if Js.includes ErrorCode.VAULT_MISMATCH errorMessage then Mcp.InvalidParams
  else if Js.includes ErrorCode.PERMISSION_DENIED errorMessage then Mcp.InternalError
  else Mcp.InternalError.

(** [error instanceof Error ? error.message : String(error)]. *)
Definition message_of (error : thrown) : string :=
  match error with
  | ErrorObj _ message => message
  | NonError rendering => rendering
  end.

(** The [TypeError] of destructuring [undefined]. *)
Definition destructuring_undefined : thrown :=
  ErrorObj "TypeError" "Cannot destructure property 'url' of 'args' as it is undefined.".

Section Server.

Variable X : externals.
Variable this : FileSystemHelper.
Variable configuredVault : string.

(** [s.substring(0, n)] and [s.length], which count UTF-16 code units. *)
Variable substring_to : nat → string → string.
Variable length_of : string → nat.

(** The handlers of the five other tools, applied to the arguments of the
    call. A handler returns a response or throws: an [McpError] is the left
    value of its result, any other exception is an exception of [M]. *)
Variable handleCreateNote handleReadNote handleUpdateNote handleSearchNotes
  handleSearchNotesByTags : M (Mcp.error + tool_response).

(** The text of the response of [handleTranslateNote]; the source writes
    [\\n] in its template literals: a backslash and an [n]. *)
Definition translated_text (url : string) (result : TranslationResult.t) : string :=
  "✅ 翻訳が完了しました\n\n"
  +:+ "📁 ファイル: " +:+ url +:+ "\n"
  +:+ "🔄 バックアップ: " +:+ TranslationResult.backupPath result +:+ "\n"
  +:+ "⏰ 実行時刻: " +:+ TranslationResult.timestamp result +:+ "\n\n"
  +:+ "翻訳後のコンテンツ:\n"
  +:+ substring_to 500 (TranslationResult.translatedContent result)
  +:+ (if (500 <? length_of (TranslationResult.translatedContent result))%nat
       then "..." else EmptyString).

(** [const { url, targetLanguage, mode } = args] throws a [TypeError] when
    [args] is [undefined]. *)
Definition handleTranslateNote (args : option translate_arguments)
    : M (Mcp.error + tool_response) :=
  match args with
  | None => throw destructuring_undefined
  | Some args =>
      if Js.truthy (default EmptyString (arg_url args)) then
        let url := default EmptyString (arg_url args) in
        let* result :=
          execute X this configuredVault
            {| TranslationRequest.url := url;
               TranslationRequest.targetLanguage := arg_targetLanguage args;
               TranslationRequest.mode := arg_mode args |} in
        ret (inr {| response_text := translated_text url result |})
      else
        ret (inl {| Mcp.error_code := Mcp.InvalidParams;
                    Mcp.error_message := "URL is required" |})
  end.

(** The handler of [CallToolRequestSchema]. *)
Definition callTool (name : string) (args : option translate_arguments)
    : M (Mcp.error + tool_response) :=
  try_catch
    (if String.eqb name "translate_obsidian_note" then handleTranslateNote args
     else if String.eqb name "create_obsidian_note" then handleCreateNote
     else if String.eqb name "read_obsidian_note" then handleReadNote
     else if String.eqb name "update_obsidian_note" then handleUpdateNote
     else if String.eqb name "search_obsidian_notes" then handleSearchNotes
     else if String.eqb name "search_obsidian_notes_by_tags" then handleSearchNotesByTags
     else ret (inl {| Mcp.error_code := Mcp.MethodNotFound;
                      Mcp.error_message := "Unknown tool: " +:+ name |}))
    (fun error =>
       let errorMessage := message_of error in
       let errorCode := mapErrorCode errorMessage in
       ret (inl {| Mcp.error_code := errorCode; Mcp.error_message := errorMessage |})).

End Server.

(** The message holds the name of one of the three codes of errors that
    the server reports as invalid parameters. *)
Definition names_invalid_params (message : string) : bool :=
  (Js.includes ErrorCode.INVALID_URL message
   || Js.includes ErrorCode.FILE_NOT_FOUND message
   || Js.includes ErrorCode.VAULT_MISMATCH message)%bool.

Module Example6.

(** A call for the note [notes/b.md], which the vault does not hold. *)
Definition missing_note : translate_arguments :=
  {| arg_url := Some (Example.address "notes/b.md");
     arg_targetLanguage := Some "French";
     arg_mode := None |}.

(** A call without an address. *)
Definition no_address : translate_arguments :=
  {| arg_url := None; arg_targetLanguage := Some "French"; arg_mode := Some replace |}.

(** [substring(0, n)] of a text of ASCII characters, which are one code unit
    each. *)
Definition prefix (n : nat) (s : string) : string := String.substring 0 n s.

(** A tool that is never called in the examples. *)
Definition idle : M (Mcp.error + tool_response) :=
  ret (inr {| response_text := EmptyString |}).

End Example6.

(** [scanned re holes guarded original]: [guarded] is what the global
    replacement by [re] makes of [original], the matches being replaced by
    the keys of [holes], which holds them in their order: from left to
    right, where [re] matches, the match is replaced and the scan goes on
    behind it; where it does not, the character is kept. *)
Inductive scanned (re : Js.matcher) : list (string * string) → string → string → Prop :=
  | scanned_nil : scanned re [] EmptyString EmptyString
  | scanned_char (c : ascii) (holes : list (string * string)) (guarded original : string) :
      re (String c original) = None →
      scanned re holes guarded original →
      scanned re holes (String c guarded) (String c original)
  | scanned_hole (key value : string) (holes : list (string * string))
      (guarded original : string) :
      value ≠ EmptyString →
      re (value +:+ original) = Some (value, original) →
      scanned re holes guarded original →
      scanned re ((key, value) :: holes) (key +:+ guarded) (value +:+ original).


(** A fenced block of JavaScript. *)
Definition fenced_js : string :=
  "```js" +:+ newline +:+ "let x = 1;" +:+ newline +:+ "```".

(** The pattern matches at no position of the text. *)
Fixpoint matches_nowhere (re : Js.matcher) (s : string) : bool :=
  match re s with
  | Some _ => false
  | None =>
      match s with
      | EmptyString => true
      | String _ s' => matches_nowhere re s'
      end
  end.


(** * Properties *)

(** ** Runs and traces *)

Lemma emits_refl P w : emits P w w.
Proof. exists []. split; [by rewrite app_nil_r | constructor]. Qed.

Lemma emits_trans P w1 w2 w3 : emits P w1 w2 → emits P w2 w3 → emits P w1 w3.
Proof.
  intros (e1 & H1 & F1) (e2 & H2 & F2). exists (e1 ++ e2)%list. split.
  - rewrite H2, H1. by rewrite app_assoc.
  - by apply Forall_app.
Qed.

Lemma emits_log (P : event → Prop) e w : P e → emits P w (log e w).
Proof. intros He. exists [e]. split; [done | by repeat constructor]. Qed.

Lemma emits_weaken (P Q : event → Prop) w w' :
  (∀ e, P e → Q e) → emits P w w' → emits Q w w'.
Proof.
  intros HPQ (evs & Ht & F). exists evs. split; [done |].
  eapply Forall_impl; eauto.
Qed.

Section Keeps.

Context {R : world → world → Prop}.
Hypothesis R_refl : ∀ w, R w w.
Hypothesis R_trans : ∀ w1 w2 w3, R w1 w2 → R w2 w3 → R w1 w3.

Lemma keeps_ret {A} (a : A) : keeps R (ret a).
Proof. intros w r w' [= _ <-]. apply R_refl. Qed.

Lemma keeps_throw {A} (e : thrown) : keeps R (throw (A := A) e).
Proof. intros w r w' [= _ <-]. apply R_refl. Qed.

Lemma keeps_lift {A} (x : thrown + A) : keeps R (lift x).
Proof. destruct x; [apply keeps_throw | apply keeps_ret]. Qed.

Lemma keeps_bind {A B} (m : M A) (k : A → M B) :
  keeps R m → (∀ a, keeps R (k a)) → keeps R (bind m k).
Proof.
  intros Hm Hk w r w' H. unfold bind in H.
  destruct (m w) as [[e | a] w1] eqn:E.
  - injection H as _ <-. eapply Hm, E.
  - eapply R_trans; [eapply Hm, E | eapply Hk, H].
Qed.

Lemma keeps_try_catch {A} (m : M A) (h : thrown → M A) :
  keeps R m → (∀ e, keeps R (h e)) → keeps R (try_catch m h).
Proof.
  intros Hm Hh w r w' H. unfold try_catch in H.
  destruct (m w) as [[e | a] w1] eqn:E.
  - eapply R_trans; [eapply Hm, E | eapply Hh, H].
  - injection H as _ <-. eapply Hm, E.
Qed.

Lemma keeps_for_of {A} (xs : list A) (body : A → M unit) :
  (∀ x, keeps R (body x)) → keeps R (for_of xs body).
Proof.
  intros Hb. induction xs as [| x xs IH]; simpl.
  - apply keeps_ret.
  - apply keeps_bind; [apply Hb | intros _; apply IH].
Qed.

End Keeps.

Lemma emits_bind (P : event → Prop) {A B} (m : M A) (k : A → M B) :
  keeps (emits P) m → (∀ a, keeps (emits P) (k a)) → keeps (emits P) (bind m k).
Proof. exact (keeps_bind (emits_trans P) m k). Qed.

Lemma emits_try_catch (P : event → Prop) {A} (m : M A) (h : thrown → M A) :
  keeps (emits P) m → (∀ e, keeps (emits P) (h e)) → keeps (emits P) (try_catch m h).
Proof. exact (keeps_try_catch (emits_trans P) m h). Qed.

Lemma emits_ret (P : event → Prop) {A} (a : A) : keeps (emits P) (ret a).
Proof. exact (keeps_ret (emits_refl P) a). Qed.

Lemma emits_throw (P : event → Prop) {A} (e : thrown) : keeps (emits P) (throw (A := A) e).
Proof. exact (keeps_throw (emits_refl P) e). Qed.

(** ** White space *)

Lemma trim_start_white_space (s : string) :
  Js.all_white_space s = true → Js.trim_start s = EmptyString.
Proof.
  assert (H : ∀ n s, (String.length s ≤ n)%nat →
                Js.all_white_space s = true → Js.trim_start s = EmptyString).
  { clear s. induction n as [| n IH]; intros [| c1 s1] Hn; try done; [simpl in Hn; lia |].
    cbn [Js.all_white_space Js.trim_start]. simpl in Hn.
    destruct (Js.white_space1 c1); [apply IH; lia |].
    destruct s1 as [| c2 s2]; [done |]. simpl in Hn.
    destruct (Js.white_space2 c1 c2); [apply IH; lia |].
    destruct s2 as [| c3 s3]; [done |]. simpl in Hn.
    destruct (Js.white_space3 c1 c2 c3); [apply IH; lia | done]. }
  by apply (H (String.length s)).
Qed.

Lemma trim_whitespace_only (s : string) :
  whitespace_only s = true → Js.trim s = EmptyString.
Proof. unfold whitespace_only, Js.trim. intros H. by rewrite trim_start_white_space. Qed.

Lemma trim_end_empty (s : string) :
  Js.trim_end s = EmptyString → Js.all_white_space s = true.
Proof.
  destruct s as [| c s]; [done |]. cbn [Js.trim_end].
  by destruct (Js.all_white_space (String c s)).
Qed.

Lemma trim_start_whitespace (s : string) :
  Js.all_white_space (Js.trim_start s) = true → Js.all_white_space s = true.
Proof.
  assert (H : ∀ n s, (String.length s ≤ n)%nat →
                Js.all_white_space (Js.trim_start s) = true → Js.all_white_space s = true).
  { clear s. induction n as [| n IH]; intros [| c1 s1] Hn; try done; [simpl in Hn; lia |].
    cbn [Js.trim_start]. simpl in Hn.
    destruct (Js.white_space1 c1) eqn:E1.
    { intros H. cbn [Js.all_white_space]. rewrite E1. apply IH; [lia | done]. }
    destruct s1 as [| c2 s2]; [done |]. simpl in Hn.
    destruct (Js.white_space2 c1 c2) eqn:E2.
    { intros H. cbn [Js.all_white_space]. rewrite E1, E2. apply IH; [lia | done]. }
    destruct s2 as [| c3 s3]; [done |]. simpl in Hn.
    destruct (Js.white_space3 c1 c2 c3) eqn:E3; [| done].
    intros H. cbn [Js.all_white_space]. rewrite E1, E2, E3. apply IH; [lia | done]. }
  by apply (H (String.length s)).
Qed.

(** [trim] leaves nothing exactly when the text is empty or white space. *)
Lemma trim_empty_iff (s : string) :
  Js.trim s = EmptyString ↔ whitespace_only s = true.
Proof.
  split; [| apply trim_whitespace_only].
  intros H. apply trim_start_whitespace, trim_end_empty, H.
Qed.

(** ** The store *)

Section Store.

Variable X : externals.
Variable this : FileSystemHelper.

Local Abbreviation abs := (getAbsolutePath X this).

Lemma exists_run (filePath : string) (w : world) :
  exists_ X this filePath w
  = (inr (bool_decide (is_Some (nodes w !! abs filePath))), log (FsAccess (abs filePath)) w).
Proof.
  unfold exists_, try_catch, bind, Runtime.fs_access, ret.
  by destruct (nodes w !! abs filePath) eqn:E.
Qed.

Lemma readFile_run (filePath : string) (w : world) :
  readFile X this filePath w
  = (match nodes w !! abs filePath with
     | Some (File content _) => inr content
     | Some Dir =>
         inl (new_Error (ErrorCode.FILE_NOT_FOUND +:+ ": Cannot read file '" +:+ filePath
                         +:+ "': " +:+ render Runtime.EISDIR_read))
     | None =>
         inl (new_Error (ErrorCode.FILE_NOT_FOUND +:+ ": Cannot read file '" +:+ filePath
                         +:+ "': " +:+ render (Runtime.ENOENT "open" (abs filePath))))
     end, log (FsReadFile (abs filePath)) w).
Proof.
  unfold readFile, try_catch, Runtime.fs_readFile, throw.
  by destruct (nodes w !! abs filePath) as [[] |].
Qed.

Lemma createBackup_run (filePath : string) (w : world) :
  let millis := clock w (ticks w) in
  let target := abs (backup_path X filePath millis) in
  createBackup X this filePath w
  = match nodes w !! abs filePath with
    | Some (File content _) =>
        if decide (target ∈ refused w) then
          (inl (backup_failed filePath (Runtime.EACCES "open" target)),
           log (FsWriteFile target content) (tick (log (FsReadFile (abs filePath)) w)))
        else
          match nodes w !! target with
          | Some Dir =>
              (inl (backup_failed filePath (Runtime.EISDIR "open" target)),
               log (FsWriteFile target content) (tick (log (FsReadFile (abs filePath)) w)))
          | _ =>
              (inr {| BackupInfo.originalPath := filePath;
                      BackupInfo.backupPath := backup_path X filePath millis;
                      BackupInfo.timestamp := toISOString X millis;
                      BackupInfo.size := Z.of_nat (String.length content) |},
               backed_up X this filePath content w)
          end
    | Some Dir =>
        (inl (backup_failed filePath Runtime.EISDIR_read),
         log (FsReadFile (abs filePath)) w)
    | None =>
        (inl (backup_failed filePath (Runtime.ENOENT "open" (abs filePath))),
         log (FsReadFile (abs filePath)) w)
    end.
Proof.
  intros millis target.
  unfold createBackup, try_catch, bind, Runtime.fs_readFile, Runtime.Date_now,
    Runtime.fs_writeFile, Runtime.fs_stat, backup_failed, backup_file_name, throw, ret.
  destruct (nodes w !! abs filePath) as [[content mt |] |] eqn:E; simpl; try done.
  fold (backup_path X filePath (clock w (ticks w))). fold millis. fold target.
  destruct (decide (target ∈ refused w)) as [Hr | Hr]; simpl; [done |].
  destruct (nodes w !! target) as [[c' mt' |] |] eqn:Et; simpl; try done.
  all: by rewrite lookup_insert_eq.
Qed.

End Store.

(** ** Backups *)

(** C7: a backup that succeeds writes the content the file had at the call to
    the sibling [<base>.backup-<millis><ext>] in the directory of the path,
    leaves the content of the file and every other entry as they were, and
    returns the original path, the backup path, the time and the size of the
    backup; a backup fails exactly when the source cannot be read or the
    backup cannot be written, the failure is a [BACKUP_FAILED] error, and
    the file tree is then untouched. *)
Theorem createBackup_copies_source (X : externals) (this : FileSystemHelper)
    (filePath : string) (w : world) :
  let source := getAbsolutePath X this filePath in
  let millis := clock w (ticks w) in
  let backupPath :=
    join X (dirname X filePath)
      (basename X filePath (extname X filePath) +:+ ".backup-" +:+ pretty millis
       +:+ extname X filePath) in
  let target := getAbsolutePath X this backupPath in
  match createBackup X this filePath w with
  | (inr info, w') =>
      ∃ content,
        content_at w source = Some content ∧ writable w target
        ∧ info = {| BackupInfo.originalPath := filePath;
                    BackupInfo.backupPath := backupPath;
                    BackupInfo.timestamp := toISOString X millis;
                    BackupInfo.size := Z.of_nat (String.length content) |}
        ∧ content_at w' target = Some content
        ∧ content_at w' source = Some content
        ∧ ∀ q, q ≠ target → nodes w' !! q = nodes w !! q
  | (inl e, w') =>
      (content_at w source = None ∨ ¬ writable w target)
      ∧ (∃ cause, e = new_Error (ErrorCode.BACKUP_FAILED +:+ ": Cannot create backup for '"
                                 +:+ filePath +:+ "': " +:+ cause))
      ∧ nodes w' = nodes w
  end.
Proof.
  intros source millis backupPath target.
  rewrite createBackup_run.
  change (backup_path X filePath (clock w (ticks w))) with backupPath.
  change (getAbsolutePath X this backupPath) with target.
  change (getAbsolutePath X this filePath) with source.
  unfold content_at, writable.
  destruct (nodes w !! source) as [[content mt |] |] eqn:Es.
  - destruct (decide (target ∈ refused w)) as [Hr | Hr].
    { split; [right; tauto |]. split; [by eexists | done]. }
    assert (Hframe : ∀ q, q ≠ target →
              nodes (backed_up X this filePath content w) !! q = nodes w !! q).
    { intros q Hq. unfold backed_up; simpl. by rewrite lookup_insert_ne. }
    assert (Htarget : nodes (backed_up X this filePath content w) !! target
                      = Some (File content (clock w (S (ticks w))))).
    { unfold backed_up; simpl. apply lookup_insert_eq. }
    assert (Hsource : ∃ mt', nodes (backed_up X this filePath content w) !! source
                             = Some (File content mt')).
    { destruct (decide (source = target)) as [-> | Hne]; [by eexists |].
      exists mt. by rewrite Hframe. }
    destruct Hsource as [mt' Hsource].
    destruct (nodes w !! target) as [[c' mt'' |] |] eqn:Et.
    + exists content. rewrite Htarget, Hsource. by repeat split.
    + split; [right; intros [_ H]; by apply H |]. split; [by eexists | done].
    + exists content. rewrite Htarget, Hsource. by repeat split.
  - split; [by left |]. split; [by eexists | done].
  - split; [by left |]. split; [by eexists | done].
Qed.

(** ** The translation engine *)

Lemma translateContent_run (X : externals) (content : string) (lang : option string)
    (w : world) :
  translateContent X content lang w
  = let targetLanguage := default default_language lang in
    match matter X content with
    | inl e => (inl (translation_failed e), w)
    | inr (frontmatter, bodyContent) =>
        if negb (Js.truthy (Js.trim bodyContent)) then (inr content, w)
        else
          let request :=
            translation_request (createTranslationPrompt bodyContent targetLanguage) in
          let w1 := called (log (Generate request) w) in
          match generation w (calls w) request with
          | inl cause => (inl (translation_failed cause), w1)
          | inr response =>
              match first_text response bodyContent with
              | inl e => (inl (translation_failed e), w1)
              | inr text =>
                  match matter_stringify X text
                          (Js.map_set "translated"
                             (translated_entry (toISOString X (clock w (ticks w)))
                                targetLanguage)
                             frontmatter) with
                  | inl e => (inl (translation_failed e), tick w1)
                  | inr result => (inr result, tick w1)
                  end
              end
          end
    end.
Proof.
  unfold translateContent, try_catch, bind, lift, translation_failed, throw, ret.
  destruct (matter X content) as [e | [frontmatter bodyContent]]; simpl; [done |].
  destruct (negb (Js.truthy (Js.trim bodyContent))); simpl; [done |].
  unfold Runtime.messages_create.
  destruct (generation w (calls w) _) as [cause | response]; simpl; [done |].
  destruct (first_text response bodyContent); simpl; [done |].
  by destruct (matter_stringify X _ _).
Qed.

(** C8: when the body of the document is empty or made of white space only,
    [translateContent] returns its input as it is and leaves the world as it
    was: no call of the generation service is made or logged. *)
Theorem translateContent_blank_body (X : externals) (content : string)
    (lang : option string) (frontmatter : frontmatter) (bodyContent : string) (w : world) :
  matter X content = inr (frontmatter, bodyContent) →
  whitespace_only bodyContent = true →
  translateContent X content lang w = (inr content, w).
Proof.
  intros Hm Hws. rewrite translateContent_run, Hm. simpl.
  by rewrite (trim_whitespace_only _ Hws).
Qed.

Lemma translateContent_blank_body_witness :
  translateContent node_externals Example.wide_blank (Some "French")
    (Example.vault_with Example.wide_blank (inr [TextBlock "Bonjour"]))
  = (inr Example.wide_blank,
     Example.vault_with Example.wide_blank (inr [TextBlock "Bonjour"])).
Proof.
  apply (translateContent_blank_body node_externals Example.wide_blank (Some "French")
           [("title", YString "Note")] Example.wide_blank_body); reflexivity.
Defined.

(** The white space of [trim] is that of the language: the line terminators
    and the space separators of Unicode count, a letter does not. *)
Example whitespace_only_examples :
  whitespace_only EmptyString = true
  ∧ whitespace_only Example.ideographic_space = true
  ∧ whitespace_only Example.no_break_space = true
  ∧ whitespace_only (String "239" (String "187" (String "191" newline))) = true
  ∧ whitespace_only (String "226" (String "128" (String "168" " "))) = true
  ∧ whitespace_only (Example.ideographic_space +:+ "a") = false
  ∧ whitespace_only (String "194" (String "161" EmptyString)) = false
  ∧ whitespace_only (String "160" EmptyString) = false.
Proof. repeat split. Qed.

(** A document made of a metadata block only is returned as it is. *)
Example translateContent_metadata_only :
  fst (translateContent node_externals Example.metadata_only (Some "French")
         (Example.vault_with Example.metadata_only (inr [TextBlock "Bonjour"])))
  = inr Example.metadata_only.
Proof. reflexivity. Qed.

(** ** Writes and cleanup *)

Section Effects.

Variable X : externals.
Variable this : FileSystemHelper.

Local Abbreviation abs := (getAbsolutePath X this).

Lemma emits_writeFile (filePath content : string) :
  keeps (emits (fun e => e = FsMkdir (dirname X (abs filePath))
                         ∨ e = FsWriteFile (abs filePath) content))
    (writeFile X this filePath content).
Proof.
  intros w r w' H.
  unfold writeFile, try_catch, bind, Runtime.fs_mkdir, Runtime.fs_writeFile, throw in H.
  set (P := fun e => e = FsMkdir (dirname X (abs filePath))
                     ∨ e = FsWriteFile (abs filePath) content).
  assert (P1 : P (FsMkdir (dirname X (abs filePath)))) by (by left).
  assert (P2 : P (FsWriteFile (abs filePath) content)) by (by right).
  destruct (nodes w !! dirname X (abs filePath)) as [[c mt |] |] eqn:Ed; simpl in H.
  - injection H as _ <-. by apply emits_log.
  - destruct (decide (abs filePath ∈ refused w)); simpl in H.
    + injection H as _ <-.
      eapply emits_trans; [apply (emits_log P _ _ P1) | apply (emits_log P _ _ P2)].
    + destruct (nodes w !! abs filePath) as [[c mt |] |]; simpl in H;
        injection H as _ <-;
        (eapply emits_trans; [apply (emits_log P _ _ P1) |]);
        exists [FsWriteFile (abs filePath) content]; split; try done; by repeat constructor.
  - destruct (decide (dirname X (abs filePath) ∈ refused w)); simpl in H.
    + injection H as _ <-. by apply emits_log.
    + destruct (decide (abs filePath ∈ refused w)); simpl in H.
      * injection H as _ <-.
        exists [FsMkdir (dirname X (abs filePath)); FsWriteFile (abs filePath) content].
        split; [simpl; by rewrite <- app_assoc | by repeat constructor].
      * destruct (<[dirname X (abs filePath) := Dir]> (nodes w) !! abs filePath)
          as [[c mt |] |]; simpl in H; injection H as _ <-;
          exists [FsMkdir (dirname X (abs filePath)); FsWriteFile (abs filePath) content];
          (split; [simpl; by rewrite <- app_assoc | by repeat constructor]).
Qed.

(** A write that goes through is logged after the [mkdir] of its directory,
    and the file then has the content written. *)
Lemma writeFile_done (filePath content : string) (w w' : world) :
  writeFile X this filePath content w = (inr tt, w') →
  trace w' = (trace w ++ [FsMkdir (dirname X (abs filePath));
                          FsWriteFile (abs filePath) content])%list
  ∧ content_at w' (abs filePath) = Some content
  ∧ (∀ q, q ≠ abs filePath → q ≠ dirname X (abs filePath) → nodes w' !! q = nodes w !! q).
Proof.
  intros H.
  unfold writeFile, try_catch, bind, Runtime.fs_mkdir, Runtime.fs_writeFile, throw in H.
  unfold content_at.
  destruct (nodes w !! dirname X (abs filePath)) as [[c mt |] |] eqn:Ed; simpl in H.
  - discriminate.
  - destruct (decide (abs filePath ∈ refused w)); simpl in H; [discriminate |].
    destruct (nodes w !! abs filePath) as [[c mt |] |]; simpl in H; try discriminate;
      injection H as <-; simpl; rewrite lookup_insert_eq, <- app_assoc;
      (repeat split; try done); intros q Hq _; by rewrite lookup_insert_ne.
  - destruct (decide (dirname X (abs filePath) ∈ refused w)); simpl in H; [discriminate |].
    destruct (decide (abs filePath ∈ refused w)); simpl in H; [discriminate |].
    destruct (<[dirname X (abs filePath) := Dir]> (nodes w) !! abs filePath)
      as [[c mt |] |]; simpl in H; try discriminate;
      injection H as <-; simpl; rewrite lookup_insert_eq, <- app_assoc;
      (repeat split; try done); intros q Hq Hd; by rewrite !lookup_insert_ne.
Qed.

(** The events of a cleanup. *)
Lemma emits_cleanupOldBackups (directory : string) :
  keeps (emits (fun e => match e with
                         | FsReaddir _ | FsStat _ | FsUnlink _ | ConsoleWarn _ => True
                         | _ => False
                         end))
    (cleanupOldBackups X this directory).
Proof.
  set (P := fun e => match e with
                     | FsReaddir _ | FsStat _ | FsUnlink _ | ConsoleWarn _ => True
                     | _ => False
                     end).
  assert (Ht : ∀ w1 w2 w3, emits P w1 w2 → emits P w2 w3 → emits P w1 w3)
    by apply emits_trans.
  assert (Hr : ∀ w, emits P w w) by apply emits_refl.
  assert (Hstat : ∀ p, keeps (emits P) (Runtime.fs_stat p)).
  { intros p w r w' H. unfold Runtime.fs_stat in H.
    destruct (nodes w !! p) as [[] |]; injection H as _ <-; by apply emits_log. }
  assert (Hunlink : ∀ p, keeps (emits P) (Runtime.fs_unlink p)).
  { intros p w r w' H. unfold Runtime.fs_unlink in H.
    destruct (nodes w !! p) as [[] |]; [destruct (decide (p ∈ refused w)) | |];
      injection H as _ <-;
      try (by apply emits_log);
      exists [FsUnlink p]; split; try done; by repeat constructor. }
  unfold cleanupOldBackups.
  apply keeps_try_catch; try done.
  - apply keeps_bind; try done.
    { intros w r w' H. unfold Runtime.fs_readdir in H.
      destruct (nodes w !! _) as [[] |]; injection H as _ <-; by apply emits_log. }
    intros files. apply keeps_bind; try done.
    { intros w r w' H. injection H as _ <-. exists []. by rewrite app_nil_r. }
    intros now. apply keeps_for_of; try done.
    intros file. destruct (snd file && Js.includes ".backup-" (fst file))%bool.
    + apply keeps_bind; try done. intros stats.
      destruct (Runtime.mtime_of stats <? _)%Z; [apply Hunlink | by apply keeps_ret].
    + by apply keeps_ret.
  - intros e w r w' H. injection H as _ <-. by apply emits_log.
Qed.

(** A cleanup never throws. *)
Lemma cleanupOldBackups_returns (directory : string) (w : world) :
  ∃ w', cleanupOldBackups X this directory w = (inr tt, w').
Proof.
  unfold cleanupOldBackups, try_catch.
  destruct (bind _ _ w) as [[e | []] w1]; [| by eexists].
  unfold Runtime.console_warn. by eexists.
Qed.

End Effects.

(** ** The pipeline, stage by stage *)

Section Pipeline.

Variable X : externals.
Variable this : FileSystemHelper.
Variable configuredVault : string.

Local Abbreviation abs := (getAbsolutePath X this).

Lemma createBackup_throws_Error (filePath : string) (w w' : world) (e : thrown) :
  createBackup X this filePath w = (inl e, w') → instanceof_Error e = true.
Proof.
  rewrite createBackup_run.
  destruct (nodes w !! abs filePath) as [[c mt |] |].
  - destruct (decide (_ ∈ refused w)); [by intros [= <- _] |].
    destruct (nodes w !! _) as [[] |]; by intros [= <- _].
  - by intros [= <- _].
  - by intros [= <- _].
Qed.

Lemma translateContent_throws_Error (content : string) (lang : option string)
    (w w' : world) (e : thrown) :
  translateContent X content lang w = (inl e, w') → instanceof_Error e = true.
Proof.
  rewrite translateContent_run. simpl.
  destruct (matter X content) as [e0 | [fm body]]; [by intros [= <- _] |].
  destruct (negb _); [done |].
  destruct (generation w (calls w) _); [by intros [= <- _] |].
  destruct (first_text _ _); [by intros [= <- _] |].
  destruct (matter_stringify X _ _); [by intros [= <- _] | done].
Qed.

Lemma writeFile_throws_Error (filePath content : string) (w w' : world) (e : thrown) :
  writeFile X this filePath content w = (inl e, w') → instanceof_Error e = true.
Proof.
  unfold writeFile, try_catch, throw.
  destruct (bind _ _ w) as [[e0 | []] w1]; [by intros [= <- _] | done].
Qed.

Lemma updateFileByMode_throws_Error (filePath original translated : string) (m : mode)
    (w w' : world) (e : thrown) :
  updateFileByMode X this filePath original translated m w = (inl e, w') →
  instanceof_Error e = true.
Proof.
  destruct m; simpl; try apply writeFile_throws_Error.
  by intros [= <- _].
Qed.

Lemma translate_and_apply_throws_Error (request : TranslationRequest.t)
    (filePath original : string) (info : BackupInfo.t) (w w' : world) (e : thrown) :
  translate_and_apply X this request filePath original info w = (inl e, w') →
  instanceof_Error e = true.
Proof.
  unfold translate_and_apply, bind.
  destruct (translateContent _ _ _ w) as [[e1 | translated] w1] eqn:E1.
  { intros [= <- _]. eapply translateContent_throws_Error, E1. }
  destruct (updateFileByMode _ _ _ _ _ _ w1) as [[e2 | []] w2] eqn:E2.
  { intros [= <- _]. eapply updateFileByMode_throws_Error, E2. }
  destruct (cleanupOldBackups_returns X this (containing_directory filePath) w2) as [w3 ->].
  done.
Qed.

(** [execute], stage by stage: validation without any effect, the existence
    check, the read, the backup, and the rest. *)
Lemma execute_run (request : TranslationRequest.t) (w : world) :
  execute X this configuredVault request w
  = match located X configuredVault request with
    | inl e => (inl (rethrown e), w)
    | inr parsedUrl =>
        let filePath := path parsedUrl in
        let w1 := log (FsAccess (abs filePath)) w in
        match nodes w !! abs filePath with
        | None => (inl (not_found filePath), w1)
        | Some _ =>
            match readFile X this filePath w1 with
            | (inl e, w2) => (inl e, w2)
            | (inr originalContent, w2) =>
                match createBackup X this filePath w2 with
                | (inl e, w3) => (inl e, w3)
                | (inr backupInfo, w3) =>
                    translate_and_apply X this request filePath originalContent backupInfo w3
                end
            end
        end
    end.
Proof.
  unfold execute, located, translate_and_apply, try_catch at 1, bind, lift, throw, ret.
  destruct (parse X _) as [e | parsedUrl];
    [unfold rethrown; by destruct (instanceof_Error e) |].
  destruct (validateVault X _ _) as [e | []];
    [unfold rethrown; by destruct (instanceof_Error e) |].
  destruct (validatePath X _) as [e | []];
    [unfold rethrown; by destruct (instanceof_Error e) |].
  rewrite exists_run.
  destruct (nodes w !! abs (path parsedUrl)) as [n |] eqn:En; simpl; [| done].
  rewrite readFile_run. simpl. rewrite En.
  destruct n as [content mt |]; [| done].
  destruct (createBackup X this _ _) as [[e | backupInfo] w3] eqn:Eb.
  { by rewrite (createBackup_throws_Error _ _ _ _ Eb). }
  destruct (translateContent _ _ _ w3) as [[e1 | translated] w4] eqn:E1.
  { by rewrite (translateContent_throws_Error _ _ _ _ _ E1). }
  destruct (updateFileByMode _ _ _ _ _ _ w4) as [[e2 | []] w5] eqn:E2.
  { by rewrite (updateFileByMode_throws_Error _ _ _ _ _ _ _ E2). }
  by destruct (cleanupOldBackups_returns X this
                 (containing_directory (path parsedUrl)) w5) as [w6 ->].
Qed.

Lemma emits_absurd (w w' : world) (evs : list event) (request : message_request) :
  emits no_generate w w' → trace w' = (trace w ++ evs)%list → Generate request ∈ evs → False.
Proof.
  intros (evs' & Ht & Hall) Ht' Hin. rewrite Ht in Ht'. apply app_inv_head in Ht'. subst evs'.
  rewrite Forall_forall in Hall. exact (Hall _ Hin).
Qed.

(** Applying the translation and cleaning up make no call of the service. *)
Lemma apply_and_cleanup_quiet {A} (filePath original translated : string) (m : mode)
    (result : A) :
  keeps (emits no_generate)
    (let* _ := updateFileByMode X this filePath original translated m in
     let* _ := cleanupOldBackups X this (containing_directory filePath) in
     ret result).
Proof.
  apply emits_bind.
  - destruct m; simpl.
    1-3: intros w r w' H; eapply emits_weaken; [| eapply emits_writeFile, H];
         by intros e [-> | ->].
    apply emits_throw.
  - intros _. apply emits_bind.
    + intros w r w' H. eapply emits_weaken; [| eapply emits_cleanupOldBackups, H].
      by intros [].
    + intros _. apply emits_ret.
Qed.

(** The translation stage: a run in which the call of the service fails ends
    with [TRANSLATION_FAILED] around the cause, without touching the files. *)
Lemma translate_and_apply_error (request : TranslationRequest.t)
    (filePath original : string) (info : BackupInfo.t) (w w' : world)
    (r : thrown + TranslationResult.t) (evs : list event) (req : message_request)
    (cause : thrown) :
  translate_and_apply X this request filePath original info w = (r, w') →
  trace w' = (trace w ++ evs)%list →
  Generate req ∈ evs →
  generation w (calls w) req = inl cause →
  r = inl (translation_failed cause) ∧ nodes w' = nodes w.
Proof.
  intros H Ht Hin Hg. unfold translate_and_apply in H.
  unfold bind at 1 in H. rewrite translateContent_run in H. simpl in H.
  destruct (matter X original) as [e | [fm body]].
  { injection H as _ <-. exfalso. eapply emits_absurd; [apply emits_refl | done..]. }
  destruct (negb (Js.truthy (Js.trim body))).
  { exfalso. eapply emits_absurd; [| done..]. eapply apply_and_cleanup_quiet, H. }
  set (req0 := translation_request _) in H.
  assert (Hreq : ∀ tail, Forall no_generate tail →
            Generate req ∈ (Generate req0 :: tail) → req = req0).
  { intros tail Hall [Heq | Hin']%elem_of_cons; [congruence |].
    rewrite Forall_forall in Hall. destruct (Hall _ Hin'). }
  destruct (generation w (calls w) req0) as [cause0 | response] eqn:Eg.
  - injection H as <- <-. simpl in Ht. apply app_inv_head in Ht. subst evs.
    rewrite (Hreq [] (List.Forall_nil _) Hin) in Hg. split; [congruence | done].
  - exfalso.
    destruct (first_text response body) as [e | text].
    + injection H as _ <-. simpl in Ht. apply app_inv_head in Ht. subst evs.
      rewrite (Hreq [] (List.Forall_nil _) Hin) in Hg. congruence.
    + destruct (matter_stringify X text _) as [e | result].
      * injection H as _ <-. simpl in Ht. apply app_inv_head in Ht. subst evs.
        rewrite (Hreq [] (List.Forall_nil _) Hin) in Hg. congruence.
      * apply apply_and_cleanup_quiet in H as (tail & Htail & Hall). simpl in Htail.
        rewrite Htail, <- app_assoc in Ht. apply app_inv_head in Ht. subst evs.
        rewrite (Hreq tail Hall Hin) in Hg. congruence.
Qed.

Lemma any_event (P : event → Prop) (w w' : world) : emits P w w' → emits (fun _ => True) w w'.
Proof. by apply emits_weaken. Qed.

Lemma emits_createBackup (filePath : string) : keeps (emits no_generate) (createBackup X this filePath).
Proof.
  intros w r w' H. rewrite createBackup_run in H.
  destruct (nodes w !! abs filePath) as [[c mt |] |].
  - destruct (decide (_ ∈ refused w)).
    { injection H as _ <-. eexists. split; [simpl; rewrite <- !app_assoc; reflexivity |].
      by repeat constructor. }
    destruct (nodes w !! _) as [[] |]; injection H as _ <-;
      (eexists; split; [simpl; rewrite <- !app_assoc; reflexivity | by repeat constructor]).
  - injection H as _ <-. by apply emits_log.
  - injection H as _ <-. by apply emits_log.
Qed.

Lemma emits_translateContent (content : string) (lang : option string) :
  keeps (emits (fun _ => True)) (translateContent X content lang).
Proof.
  intros w r w' H. rewrite translateContent_run in H. simpl in H.
  destruct (matter X content) as [? | [? body]]; [injection H as _ <-; apply emits_refl |].
  destruct (negb _); [injection H as _ <-; apply emits_refl |].
  destruct (generation w _ _); [injection H as _ <-; by apply emits_log |].
  destruct (first_text _ _); [injection H as _ <-; by apply emits_log |].
  destruct (matter_stringify X _ _); injection H as _ <-; by apply emits_log.
Qed.

Lemma emits_translate_and_apply (request : TranslationRequest.t) (filePath original : string)
    (info : BackupInfo.t) :
  keeps (emits (fun _ => True)) (translate_and_apply X this request filePath original info).
Proof.
  unfold translate_and_apply. apply emits_bind; [apply emits_translateContent |].
  intros translated w r w' H. eapply any_event, apply_and_cleanup_quiet, H.
Qed.

(** A run of the pipeline only appends to the trace. *)
Lemma emits_execute (request : TranslationRequest.t) :
  keeps (emits (fun _ => True)) (execute X this configuredVault request).
Proof.
  intros w r w' H. rewrite execute_run in H.
  destruct (located _ _ _) as [e | parsedUrl]; [injection H as _ <-; apply emits_refl |].
  simpl in H.
  destruct (nodes w !! _) as [n |] eqn:En; [| injection H as _ <-; by apply emits_log].
  rewrite readFile_run in H. simpl in H. rewrite En in H.
  eapply emits_trans; [by apply (emits_log _ (FsAccess (abs (path parsedUrl)))) |].
  eapply emits_trans; [by apply (emits_log _ (FsReadFile (abs (path parsedUrl)))) |].
  destruct n as [content mt |]; [| injection H as _ <-; apply emits_refl].
  destruct (createBackup _ _ _ _) as [[e | info] w3] eqn:Eb.
  - injection H as _ <-. eapply any_event, emits_createBackup, Eb.
  - eapply emits_trans; [eapply any_event, emits_createBackup, Eb |].
    eapply emits_translate_and_apply, H.
Qed.

(** A run of the pipeline that succeeds in the mode [replace] has written the
    translated document to the path of the address. *)
Lemma execute_replace_writes (request : TranslationRequest.t) (w w' : world)
    (result : TranslationResult.t) :
  or_replace (TranslationRequest.mode request) = replace →
  execute X this configuredVault request w = (inr result, w') →
  ∃ parsedUrl evs,
    located X configuredVault request = inr parsedUrl
    ∧ trace w' = (trace w ++ evs)%list
    ∧ FsWriteFile (abs (path parsedUrl)) (TranslationResult.translatedContent result) ∈ evs.
Proof.
  intros Hmode H. rewrite execute_run in H.
  destruct (located _ _ _) as [e | parsedUrl]; [done |]. simpl in H.
  destruct (nodes w !! _) as [n |] eqn:En; [| done].
  rewrite readFile_run in H. simpl in H. rewrite En in H.
  destruct n as [content mt |]; [| done].
  destruct (createBackup _ _ _ _) as [[e | info] w3] eqn:Eb; [done |].
  apply emits_createBackup in Eb as (evs3 & Ht3 & _). simpl in Ht3.
  unfold translate_and_apply, bind in H. rewrite Hmode in H.
  destruct (translateContent _ _ _ w3) as [[e | translated] w4] eqn:E4; [done |].
  apply emits_translateContent in E4 as (evs4 & Ht4 & _).
  simpl in H.
  destruct (writeFile _ _ _ _ w4) as [[e | []] w5] eqn:E5; [done |].
  apply writeFile_done in E5 as (Ht5 & _).
  destruct (cleanupOldBackups _ _ _ w5) as [[e | []] w6] eqn:E6; [done |].
  apply emits_cleanupOldBackups in E6 as (evs6 & Ht6 & _).
  injection H as <- <-. simpl.
  exists parsedUrl. eexists. split; [done |]. split.
  - rewrite Ht6, Ht5, Ht4, Ht3, <- !app_assoc. reflexivity.
  - rewrite !elem_of_app. right. right. right. right. left. apply list_elem_of_further, list_elem_of_here.
Qed.

End Pipeline.

(** ** A failing translation *)

(** C6: in a run of the pipeline in which the call of the generation service
    fails, [execute] throws [TRANSLATION_FAILED] around the cause; the backup
    taken before the call holds the content the source had, the source still
    has it, and no other entry of the file tree has changed. *)
Theorem execute_translation_error (X : externals) (this : FileSystemHelper)
    (configuredVault : string) (request : TranslationRequest.t) (w w' : world)
    (r : thrown + TranslationResult.t) (evs : list event) (req : message_request)
    (cause : thrown) :
  execute X this configuredVault request w = (r, w') →
  trace w' = (trace w ++ evs)%list →
  Generate req ∈ evs →
  generation w (calls w) req = inl cause →
  ∃ parsedUrl content,
    let source := getAbsolutePath X this (path parsedUrl) in
    let target :=
      getAbsolutePath X this (backup_path X (path parsedUrl) (clock w (ticks w))) in
    located X configuredVault request = inr parsedUrl
    ∧ content_at w source = Some content
    ∧ r = inl (new_Error (ErrorCode.TRANSLATION_FAILED +:+ ": Translation failed: "
                          +:+ render cause))
    ∧ content_at w' target = Some content
    ∧ content_at w' source = Some content
    ∧ ∀ q, q ≠ target → nodes w' !! q = nodes w !! q.
Proof.
  intros H Ht Hin Hg. rewrite execute_run in H.
  assert (Habsurd : emits no_generate w w' → False).
  { intros He. eapply emits_absurd; eauto. }
  assert (Hlogs : (∃ evs1, trace w' = (trace w ++ evs1)%list ∧ Forall no_generate evs1)
                  → False) by exact Habsurd.
  destruct (located X configuredVault request) as [e | parsedUrl] eqn:El.
  { injection H as _ <-. destruct (Habsurd (emits_refl _ _)). }
  simpl in H. set (filePath := path parsedUrl) in *.
  set (source := getAbsolutePath X this filePath) in *.
  destruct (nodes w !! source) as [n |] eqn:En.
  2: { injection H as _ <-. exfalso. apply Hlogs.
       eexists. split; [reflexivity | by repeat constructor]. }
  rewrite readFile_run in H. simpl in H. fold source in H. rewrite En in H.
  destruct n as [content mt |].
  2: { injection H as _ <-. exfalso. apply Hlogs.
       eexists. split; [simpl; rewrite <- !app_assoc; reflexivity | by repeat constructor]. }
  rewrite createBackup_run in H. simpl in H. fold source in H. rewrite En in H.
  set (target := getAbsolutePath X this (backup_path X filePath (clock w (ticks w)))) in *.
  destruct (decide (target ∈ refused w)).
  { injection H as _ <-. exfalso. apply Hlogs.
    eexists. split; [simpl; rewrite <- !app_assoc; reflexivity | by repeat constructor]. }
  match goal with
  | |- ?G =>
      assert (Hdir : nodes w !! target ≠ Some Dir →
                translate_and_apply X this request filePath content
                  {| BackupInfo.originalPath := filePath;
                     BackupInfo.backupPath := backup_path X filePath (clock w (ticks w));
                     BackupInfo.timestamp := toISOString X (clock w (ticks w));
                     BackupInfo.size := Z.of_nat (String.length content) |}
                  (backed_up X this filePath content
                     (log (FsReadFile source) (log (FsAccess source) w))) = (r, w') → G)
  end.
  { intros Hnd Hrun. exists parsedUrl, content.
    fold filePath. fold source. fold target.
    set (w3 := backed_up _ _ _ _ _) in Hrun.
    assert (Ht3 : trace w3 = (trace w ++ [FsAccess source; FsReadFile source;
                                           FsReadFile source; FsWriteFile target content;
                                           FsStat target])%list).
    { unfold w3, backed_up. simpl. fold source. fold target. by rewrite <- !app_assoc. }
    assert (Hevs : ∃ evs3, trace w' = (trace w3 ++ evs3)%list ∧ Generate req ∈ evs3).
    { assert (He : emits (fun _ => True) w3 w').
      { unfold translate_and_apply in Hrun. revert Hrun.
        assert (Hk : keeps (emits (fun _ => True))
                  (translate_and_apply X this request filePath content
                     {| BackupInfo.originalPath := filePath;
                        BackupInfo.backupPath := backup_path X filePath (clock w (ticks w));
                        BackupInfo.timestamp := toISOString X (clock w (ticks w));
                        BackupInfo.size := Z.of_nat (String.length content) |})).
        { unfold translate_and_apply.
          apply emits_bind.
          - apply emits_translateContent.
          - intros translated w0 r0 w0' H0. eapply emits_weaken; [| eapply apply_and_cleanup_quiet, H0].
            done. }
        intros Hrun. eapply Hk, Hrun. }
      destruct He as (evs3 & He & _). exists evs3. split; [done |].
      rewrite He, Ht3, <- app_assoc in Ht. apply app_inv_head in Ht. subst evs.
      simpl in Hin.
      repeat (apply elem_of_cons in Hin as [Hin | Hin]; [discriminate Hin |]). done. }
    destruct Hevs as (evs3 & Ht' & Hin3).
    destruct (translate_and_apply_error X this request filePath content _ w3 w' r evs3 req
                cause Hrun Ht' Hin3 Hg) as [-> Hnodes].
    assert (Hframe : ∀ q, q ≠ target → nodes w' !! q = nodes w !! q).
    { intros q Hq. rewrite Hnodes. unfold w3, backed_up. simpl. fold source. fold target.
      by rewrite lookup_insert_ne. }
    assert (Htarget : content_at w' target = Some content).
    { unfold content_at. rewrite Hnodes. unfold w3, backed_up. simpl. fold source.
      fold target. by rewrite lookup_insert_eq. }
    repeat split; try done.
    - unfold content_at. by rewrite En.
    - destruct (decide (source = target)) as [Heq | Hne]; [by rewrite Heq |].
      unfold content_at. rewrite Hframe; [| done]. by rewrite En. }
  destruct (nodes w !! target) as [[c' mt' |] |] eqn:Etg.
  - by apply Hdir.
  - injection H as _ <-. exfalso. apply Hlogs.
    eexists. split; [simpl; rewrite <- !app_assoc; reflexivity | by repeat constructor].
  - by apply Hdir.
Qed.

Lemma execute_translation_error_witness :
  fst (Example.run "Hello" Example.overloaded replace)
  = inl (new_Error "TRANSLATION_FAILED: Translation failed: Error: 529 overloaded")
  ∧ content_at (snd (Example.run "Hello" Example.overloaded replace))
      "/vault/notes/a.backup-1700000000000.md" = Some "Hello"
  ∧ content_at (snd (Example.run "Hello" Example.overloaded replace))
      "/vault/notes/a.md" = Some "Hello".
Proof.
  destruct (execute_translation_error node_externals Example.store "Main"
              (Example.request "notes/a.md" replace)
              (Example.vault_with "Hello" Example.overloaded)
              (snd (Example.run "Hello" Example.overloaded replace))
              (fst (Example.run "Hello" Example.overloaded replace))
              (trace (snd (Example.run "Hello" Example.overloaded replace)))
              (translation_request (createTranslationPrompt "Hello" "French"))
              (new_Error "529 overloaded"))
    as (parsedUrl & content & Hl & Hc & Hr & Hb & Hs & _).
  - apply surjective_pairing.
  - vm_compute. reflexivity.
  - vm_compute. repeat constructor.
  - vm_compute. reflexivity.
  - vm_compute in Hl. injection Hl as <-.
    vm_compute in Hc. injection Hc as <-.
    split; [exact Hr |]. split; [vm_compute in Hb | vm_compute in Hs]; vm_compute; assumption.
Defined.

(** ** The batch *)

Section BatchLoop.

Variable this_execute : TranslationRequest.t → M TranslationResult.t.

(** The loop returns what it had, followed by the results of the addresses
    whose pipeline succeeded; it never throws. *)
Lemma executeBatch_loop_outcomes (urls : list string) (lang : option string)
    (results : list TranslationResult.t) (w : world) :
  executeBatch_loop this_execute urls lang results w
  = (inr (results ++ successes (fst (batch_outcomes this_execute urls lang w)))%list,
     snd (batch_outcomes this_execute urls lang w)).
Proof.
  revert results w. induction urls as [| url urls IH]; intros results w; simpl.
  - unfold ret. by rewrite app_nil_r.
  - unfold bind at 1, try_catch, bind at 1, batch_item.
    destruct (this_execute (batch_request url lang) w) as [[e | result] w1]; simpl.
    + rewrite IH. by destruct (batch_outcomes _ _ _ _).
    + rewrite IH. destruct (batch_outcomes _ _ _ _); simpl. by rewrite <- app_assoc.
Qed.

Lemma batch_outcomes_length (urls : list string) (lang : option string) (w : world) :
  List.length (fst (batch_outcomes this_execute urls lang w)) = List.length urls.
Proof.
  revert w. induction urls as [| url urls IH]; intros w; simpl; [done |].
  destruct (batch_item _ _ _ _) as [o w1]. specialize (IH w1).
  destruct (batch_outcomes _ _ _ _). simpl in *. by rewrite IH.
Qed.

Lemma successes_length {A} (outcomes : list (thrown + A)) :
  (List.length (successes outcomes) ≤ List.length outcomes)%nat.
Proof.
  induction outcomes as [| [e | a] os IH]; simpl; [done | |]; unfold successes in *; simpl; lia.
Qed.

(** The loop calls the pipeline in the mode [replace] only: a method that
    agrees with [this_execute] on the requests of that mode gives the same
    batch. *)
Lemma batch_outcomes_replace_only (other : TranslationRequest.t → M TranslationResult.t)
    (urls : list string) (lang : option string) (w : world) :
  (∀ request, TranslationRequest.mode request = Some replace →
              TranslationRequest.targetLanguage request = Some (default default_language lang) →
              other request = this_execute request) →
  batch_outcomes other urls lang w = batch_outcomes this_execute urls lang w.
Proof.
  intros Hsame. revert w. induction urls as [| url urls IH]; intros w; simpl; [done |].
  unfold batch_item. rewrite Hsame by done.
  destruct (this_execute _ w) as [[e | result] w1]; by rewrite IH.
Qed.

End BatchLoop.

Section BatchRuns.

Variable X : externals.
Variable this : FileSystemHelper.
Variable configuredVault : string.

Local Abbreviation abs := (getAbsolutePath X this).
Local Abbreviation pipeline := (execute X this configuredVault).

Lemma emits_batch_item (url : string) (lang : option string) (w w1 : world)
    (o : thrown + TranslationResult.t) :
  batch_item pipeline url lang w = (o, w1) → emits (fun _ => True) w w1.
Proof.
  unfold batch_item.
  destruct (pipeline _ w) as [[e | result] w'] eqn:E; intros [= <- <-].
  - eapply emits_trans; [eapply emits_execute, E | by apply emits_log].
  - eapply emits_execute, E.
Qed.

Lemma emits_batch_outcomes (urls : list string) (lang : option string) (w : world) :
  emits (fun _ => True) w (snd (batch_outcomes pipeline urls lang w)).
Proof.
  revert w. induction urls as [| url urls IH]; intros w; simpl; [apply emits_refl |].
  destruct (batch_item _ _ _ _) as [o w1] eqn:E1. specialize (IH w1).
  destruct (batch_outcomes _ _ _ _). simpl in *.
  eapply emits_trans; [eapply emits_batch_item, E1 | done].
Qed.

(** Every result of the batch belongs to an address whose source was
    overwritten with the translated document. *)
Lemma batch_outcomes_writes (urls : list string) (lang : option string) (w : world)
    (result : TranslationResult.t) :
  result ∈ successes (fst (batch_outcomes pipeline urls lang w)) →
  ∃ url parsedUrl evs,
    url ∈ urls
    ∧ located X configuredVault (batch_request url lang) = inr parsedUrl
    ∧ trace (snd (batch_outcomes pipeline urls lang w)) = (trace w ++ evs)%list
    ∧ FsWriteFile (abs (path parsedUrl)) (TranslationResult.translatedContent result) ∈ evs.
Proof.
  revert w. induction urls as [| url urls IH]; intros w; simpl.
  { intros H. by apply elem_of_nil in H. }
  destruct (batch_item _ _ _ _) as [o w1] eqn:E1.
  pose proof (emits_batch_outcomes urls lang w1) as (evs2 & Ht2 & _).
  pose proof (emits_batch_item _ _ _ _ _ E1) as (evs1 & Ht1 & _).
  specialize (IH w1).
  destruct (batch_outcomes _ _ _ _) as [os w2]. simpl in *.
  unfold successes. simpl. fold (successes os).
  destruct o as [e | first]; simpl.
  - intros Hin. destruct (IH Hin) as (url' & parsedUrl & evs & Hu & Hl & Ht & Hw).
    exists url', parsedUrl, (evs1 ++ evs)%list. split; [by right |]. split; [done |].
    split; [by rewrite Ht, Ht1, <- app_assoc |]. apply elem_of_app. by right.
  - intros [-> | Hin]%elem_of_cons.
    + unfold batch_item in E1.
      destruct (pipeline _ w) as [[e | result'] w'] eqn:E; [done |].
      injection E1 as -> <-.
      destruct (execute_replace_writes X this configuredVault (batch_request url lang)
                  _ _ _ eq_refl E)
        as (parsedUrl & evs & Hl & Ht & Hw).
      exists url, parsedUrl, (evs ++ evs2)%list. split; [by left |]. split; [done |].
      split; [by rewrite Ht2, Ht, <- app_assoc |]. apply elem_of_app. by left.
    + destruct (IH Hin) as (url' & parsedUrl & evs & Hu & Hl & Ht & Hw).
      exists url', parsedUrl, (evs1 ++ evs)%list. split; [by right |]. split; [done |].
      split; [by rewrite Ht, Ht1, <- app_assoc |]. apply elem_of_app. by right.
Qed.

(** Every address whose pipeline failed is reported on the console. *)
Lemma batch_outcomes_failures (urls : list string) (lang : option string) (w : world)
    (i : nat) (url : string) (error : thrown) :
  urls !! i = Some url →
  fst (batch_outcomes pipeline urls lang w) !! i = Some (inl error) →
  ∃ evs,
    trace (snd (batch_outcomes pipeline urls lang w)) = (trace w ++ evs)%list
    ∧ ConsoleError ("Failed to translate " +:+ url +:+ ": " +:+ render error) ∈ evs.
Proof.
  revert w i. induction urls as [| url0 urls IH]; intros w i; simpl; [done |].
  destruct (batch_item _ _ _ _) as [o w1] eqn:E1.
  pose proof (emits_batch_outcomes urls lang w1) as (evs2 & Ht2 & _).
  pose proof (emits_batch_item _ _ _ _ _ E1) as (evs1 & Ht1 & _).
  specialize (IH w1).
  destruct (batch_outcomes _ _ _ _) as [os w2]. simpl in *.
  destruct i as [| i]; simpl.
  - intros [= ->] [= ->]. unfold batch_item in E1.
    destruct (pipeline _ w) as [[e | result'] w'] eqn:E; [| done].
    injection E1 as -> <-.
    apply emits_execute in E as (evs & Ht & _).
    eexists. split; [rewrite Ht2; simpl; rewrite Ht, <- !app_assoc; reflexivity |].
    rewrite !elem_of_app. right. left. apply list_elem_of_here.
  - intros Hu Ho. destruct (IH i Hu Ho) as (evs & Ht & Hin).
    exists (evs1 ++ evs)%list. split; [by rewrite Ht, Ht1, <- app_assoc |].
    apply elem_of_app. by right.
Qed.

End BatchRuns.

(** C3, as the code has it: the batch runs the pipeline on every address, in
    the order of the input, whatever the outcome of the addresses before; it
    never throws; it returns the results of the addresses whose pipeline
    succeeded, in the order of the input, so at most as many as there are
    addresses; an address whose pipeline failed is reported on the console
    and has no entry in the result. *)
Theorem executeBatch_keeps_successes (X : externals) (this : FileSystemHelper)
    (configuredVault : string) (urls : list string) (lang : option string) (w : world) :
  let outcomes := fst (batch_outcomes (execute X this configuredVault) urls lang w) in
  let w' := snd (batch_outcomes (execute X this configuredVault) urls lang w) in
  executeBatch X this configuredVault urls lang w = (inr (successes outcomes), w')
  ∧ List.length outcomes = List.length urls
  ∧ (List.length (successes outcomes) ≤ List.length urls)%nat
  ∧ ∀ (i : nat) (url : string) (error : thrown),
      urls !! i = Some url →
      outcomes !! i = Some (inl error) →
      ∃ evs,
        trace w' = (trace w ++ evs)%list
        ∧ ConsoleError ("Failed to translate " +:+ url +:+ ": " +:+ render error) ∈ evs.
Proof.
  intros outcomes w'. split; [| split; [| split]].
  - unfold executeBatch. by rewrite executeBatch_loop_outcomes.
  - apply batch_outcomes_length.
  - rewrite <- (batch_outcomes_length (execute X this configuredVault) urls lang w).
    apply successes_length.
  - intros i url error Hu Ho.
    exact (batch_outcomes_failures X this configuredVault urls lang w i url error Hu Ho).
Qed.

(** C3 as the specification states it does not hold: of three addresses of
    which the second has no file, the batch returns two results. *)
Lemma executeBatch_drops_failed_item :
  fst Example.batch = inr Example.batch_results
  ∧ List.length Example.batch_results = 2
  ∧ List.length Example.batch_results ≠ List.length Example.three_addresses.
Proof.
  split; [vm_compute; reflexivity |]. split; [vm_compute; reflexivity |].
  vm_compute. discriminate.
Qed.

(** C10: the batch calls the pipeline in the mode [replace] and with the one
    target language only, so it does not depend on what the pipeline does in
    another mode, and every result it returns belongs to an address whose
    source file was overwritten with the translated document. *)
Theorem executeBatch_replace_only (X : externals) (this : FileSystemHelper)
    (configuredVault : string) (urls : list string) (lang : option string)
    (w w' : world) (results : list TranslationResult.t) :
  executeBatch X this configuredVault urls lang w = (inr results, w') →
  (∀ other : TranslationRequest.t → M TranslationResult.t,
     (∀ request,
        TranslationRequest.mode request = Some replace →
        TranslationRequest.targetLanguage request = Some (default default_language lang) →
        other request = execute X this configuredVault request) →
     executeBatch_loop other urls lang [] w = (inr results, w'))
  ∧ ∀ result, result ∈ results →
      ∃ url parsedUrl evs,
        url ∈ urls
        ∧ located X configuredVault
            {| TranslationRequest.url := url;
               TranslationRequest.targetLanguage := Some (default default_language lang);
               TranslationRequest.mode := Some replace |} = inr parsedUrl
        ∧ trace w' = (trace w ++ evs)%list
        ∧ FsWriteFile (getAbsolutePath X this (path parsedUrl))
            (TranslationResult.translatedContent result) ∈ evs.
Proof.
  unfold executeBatch. rewrite executeBatch_loop_outcomes. simpl.
  intros [= <- <-]. split.
  - intros other Hsame. rewrite executeBatch_loop_outcomes. simpl.
    by rewrite (batch_outcomes_replace_only _ other urls lang w Hsame).
  - intros result Hin. by apply batch_outcomes_writes.
Qed.

Lemma executeBatch_replace_only_witness :
  executeBatch node_externals Example.store "Main" Example.three_addresses (Some "French")
    Example.two_notes
  = (inr (successes (fst (batch_outcomes (execute node_externals Example.store "Main")
                            Example.three_addresses (Some "French") Example.two_notes))),
     snd (batch_outcomes (execute node_externals Example.store "Main")
            Example.three_addresses (Some "French") Example.two_notes))
  ∧ ∀ result,
      result ∈ successes (fst (batch_outcomes (execute node_externals Example.store "Main")
                                 Example.three_addresses (Some "French")
                                 Example.two_notes)) →
      ∃ url parsedUrl evs,
        url ∈ Example.three_addresses
        ∧ located node_externals "Main"
            {| TranslationRequest.url := url;
               TranslationRequest.targetLanguage := Some "French";
               TranslationRequest.mode := Some replace |} = inr parsedUrl
        ∧ trace (snd (batch_outcomes (execute node_externals Example.store "Main")
                        Example.three_addresses (Some "French") Example.two_notes))
          = (trace Example.two_notes ++ evs)%list
        ∧ FsWriteFile (getAbsolutePath node_externals Example.store (path parsedUrl))
            (TranslationResult.translatedContent result) ∈ evs.
Proof.
  assert (H : executeBatch node_externals Example.store "Main" Example.three_addresses
                (Some "French") Example.two_notes
              = (inr (successes
                        (fst (batch_outcomes (execute node_externals Example.store "Main")
                                Example.three_addresses (Some "French")
                                Example.two_notes))),
                 snd (batch_outcomes (execute node_externals Example.store "Main")
                        Example.three_addresses (Some "French") Example.two_notes))).
  { unfold executeBatch. apply executeBatch_loop_outcomes. }
  split; [exact H |].
  exact (proj2 (executeBatch_replace_only node_externals Example.store "Main"
                  Example.three_addresses (Some "French") Example.two_notes _ _ H)).
Defined.

(** ** The store and the root *)




(** ** The mode [parallel] *)

(** The regular expression of [parallel_path] asks for a backslash. *)
Lemma md_re_backslash (s m rest : string) :
  md_re s = Some (m, rest) → ∃ t, s = String "\" t.
Proof.
  destruct s as [| b [| c [| x [| d [| ? ?]]]]]; simpl; try done.
  destruct (Ascii.eqb b "\") eqn:E; [| done].
  apply Ascii.eqb_eq in E as ->. by eexists.
Qed.

Lemma replace_first_no_backslash (repl before s : string) :
  no_backslash s = true → Js.replace_first_from md_re repl before s = s.
Proof.
  revert before. induction s as [| c s IH]; intros before; [done |].
  cbn [no_backslash Js.replace_first_from]. intros [Hc Hs]%andb_true_iff.
  destruct (md_re (String c s)) as [[m rest] |] eqn:E.
  - apply md_re_backslash in E as [t [= -> _]]. done.
  - by rewrite IH.
Qed.

(** A path without a backslash is its own parallel path. *)
Lemma parallel_path_unchanged (filePath : string) :
  no_backslash filePath = true → parallel_path filePath = filePath.
Proof. apply replace_first_no_backslash. Qed.

(** C1, on the source: in the mode [parallel] the pipeline on [notes/a.md]
    writes the translated document to [notes/a.md] itself: the source is
    overwritten, and no file with a language suffix is created. *)
Theorem parallel_mode_overwrites_source :
  parallel_path "notes/a.md" = "notes/a.md"
  ∧ ∃ result,
      fst (Example.run "Hello" (inr [TextBlock "Bonjour"]) parallel) = inr result
      ∧ content_at (snd (Example.run "Hello" (inr [TextBlock "Bonjour"]) parallel))
          "/vault/notes/a.md" = Some (TranslationResult.translatedContent result)
      ∧ TranslationResult.translatedContent result ≠ "Hello"
      ∧ nodes (snd (Example.run "Hello" (inr [TextBlock "Bonjour"]) parallel))
          !! "/vault/notes/a.ja.md" = None
      ∧ nodes (snd (Example.run "Hello" (inr [TextBlock "Bonjour"]) parallel))
          !! "/vault/notes/a.French.md" = None.
Proof.
  split; [vm_compute; reflexivity |].
  exists (match fst (Example.run "Hello" (inr [TextBlock "Bonjour"]) parallel) with
          | inr result => result
          | inl _ => {| TranslationResult.originalContent := "";
                        TranslationResult.translatedContent := "";
                        TranslationResult.backupPath := "";
                        TranslationResult.timestamp := "" |}
          end).
  repeat split; vm_compute; (reflexivity || discriminate).
Qed.

(** ** Code in the translation *)

(** C2, on the source: [translateContent] sends the body as it is, the code
    span included and no placeholder in its place, and returns what the
    service answered; when the answer has lost the code span, so has the
    document returned. [protectCodeBlocks], which is not called, would have
    replaced the span. *)
Theorem translateContent_does_not_guard :
  let run := translateContent node_externals Example.note_with_code (Some "French")
               (Example.vault_with Example.note_with_code Example.answer_without_code) in
  fst (Guard.protectCodeBlocks Example.note_with_code) = "Run __INLINE_CODE_0__ first."
  ∧ (∃ request,
       trace (snd run) = [Generate request]
       ∧ Js.includes "Run `npm install` first." (user_content request) = true
       ∧ Js.includes "__INLINE_CODE_0__" (user_content request) = false)
  ∧ ∃ document,
      fst run = inr document
      ∧ Js.includes "Lancez npm install d'abord." document = true
      ∧ Js.includes "`npm install`" document = false.
Proof.
  intros run. split; [vm_compute; reflexivity |]. split.
  - exists (translation_request (createTranslationPrompt Example.note_with_code "French")).
    repeat split; vm_compute; reflexivity.
  - exists (match fst run with inr document => document | inl _ => "" end).
    repeat split; vm_compute; reflexivity.
Qed.

(** C4, on the source: restoring after protecting does not give back a body
    whose code span holds [$$]: the replacement text is read as a pattern and
    one dollar sign is lost; with [$&] the placeholder comes back inside the
    span. *)
Theorem restore_protect_loses_dollar :
  let body := "Use `echo $$` here" in
  Guard.protectCodeBlocks body
  = ("Use __INLINE_CODE_0__ here", [("__INLINE_CODE_0__", "`echo $$`")])
  ∧ Guard.restoreCodeBlocks (fst (Guard.protectCodeBlocks body))
      (snd (Guard.protectCodeBlocks body)) = "Use `echo $` here"
  ∧ Guard.restoreCodeBlocks (fst (Guard.protectCodeBlocks body))
      (snd (Guard.protectCodeBlocks body)) ≠ body
  ∧ Guard.restoreCodeBlocks (fst (Guard.protectCodeBlocks "`s/x/$&/`"))
      (snd (Guard.protectCodeBlocks "`s/x/$&/`")) = "`s/x/__INLINE_CODE_0__/`".
Proof. repeat split; vm_compute; (reflexivity || discriminate). Qed.

(** ** The two passes of [protectCodeBlocks] *)

Lemma append_inv_tail (s1 s2 t : string) : s1 +:+ t = s2 +:+ t → s1 = s2.
Proof.
  assert (Hlen : ∀ a b : string, String.length (a +:+ b) = String.length a + String.length b).
  { intros a b. induction a as [| c a IH]; simpl; [done | by rewrite IH]. }
  revert s2. induction s1 as [| c s1 IH]; intros [| d s2]; simpl; intros H; try done.
  - apply (f_equal String.length) in H. simpl in H. rewrite !Hlen in H. simpl in H. lia.
  - apply (f_equal String.length) in H. simpl in H. rewrite !Hlen in H. simpl in H. lia.
  - injection H as -> H. by rewrite (IH _ H).
Qed.

Lemma inline_placeholder_inj (a b : nat) :
  Guard.inline_placeholder a = Guard.inline_placeholder b → a = b.
Proof.
  unfold Guard.inline_placeholder. intros H.
  apply String.app_inj in H. apply append_inv_tail in H. by apply pretty_nat_inj.
Qed.

Lemma block_placeholder_inj (a b : nat) :
  Guard.block_placeholder a = Guard.block_placeholder b → a = b.
Proof.
  unfold Guard.block_placeholder. intros H.
  apply String.app_inj in H. apply append_inv_tail in H. by apply pretty_nat_inj.
Qed.

Lemma inline_not_block (a b : nat) :
  Guard.inline_placeholder a ≠ Guard.block_placeholder b.
Proof. unfold Guard.inline_placeholder, Guard.block_placeholder. simpl. discriminate. Qed.

Lemma map_set_fresh (k v : string) (m : list (string * string)) :
  (∀ e, e ∈ m → fst e ≠ k) → Js.map_set k v m = (m ++ [(k, v)])%list.
Proof.
  induction m as [| [k' v'] m IH]; simpl; intros Hfresh; [done |].
  destruct (String.eqb k k') eqn:E.
  - apply String.eqb_eq in E. destruct (Hfresh (k', v')); [by left | done].
  - rewrite IH; [done |]. intros e He. apply Hfresh. by right.
Qed.

Lemma span_no_backtick_fst (s : string) :
  no_backtick (fst (Guard.span_no_backtick s)) = true.
Proof.
  induction s as [| c s IH]; simpl; [done |].
  destruct (Ascii.eqb c Guard.backtick) eqn:E; [done |].
  destruct (Guard.span_no_backtick s) as [run rest]. simpl in *. by rewrite E.
Qed.

Lemma inline_re_shape (s m rest : string) :
  Guard.inline_re s = Some (m, rest) → inline_span m.
Proof.
  destruct s as [| c r]; simpl; [done |].
  destruct (Ascii.eqb c Guard.backtick); [| done].
  pose proof (span_no_backtick_fst r) as Hnb.
  destruct (Guard.span_no_backtick r) as [[| a code] [| b rest']]; try done.
  intros [= <- _]. exists (String a code). by repeat split.
Qed.

(** In a fenced block that holds an inline-looking span, the first pass
    takes inline spans across the fences and the text of the span, and no
    fenced block is recorded. *)
Example protectCodeBlocks_inline_first :
  Guard.protectCodeBlocks fenced_with_inline
  = ("``__INLINE_CODE_0__x__INLINE_CODE_1__``",
     [("__INLINE_CODE_0__", "`" +:+ newline +:+ "`");
      ("__INLINE_CODE_1__", "`" +:+ newline +:+ "`")])
  ∧ Guard.protectCodeBlocks fenced_with_inline
    ≠ ("__CODE_BLOCK_0__", [("__CODE_BLOCK_0__", fenced_with_inline)]).
Proof. split; vm_compute; [reflexivity | discriminate]. Qed.

(** * Further properties of the store *)

(** A run whose value is known, with the world it leaves. *)
Lemma run_inr {A} (m : M A) (w : world) (a : A) :
  fst (m w) = inr a → m w = (inr a, snd (m w)).
Proof. destruct (m w) as [r w']. simpl. by intros ->. Qed.

Lemma run_inl {A} (m : M A) (w : world) (e : thrown) :
  fst (m w) = inl e → m w = (inl e, snd (m w)).
Proof. destruct (m w) as [r w']. simpl. by intros ->. Qed.

(** X1: what [writeFile] has written, [readFile] of the same path returns,
    and [exists] answers true for it. *)
Theorem writeFile_then_readFile (X : externals) (this : FileSystemHelper)
    (filePath content : string) (w w' : world) :
  writeFile X this filePath content w = (inr tt, w') →
  fst (readFile X this filePath w') = inr content
  ∧ fst (exists_ X this filePath w') = inr true.
Proof.
  intros H. apply writeFile_done in H as (_ & Hc & _). unfold content_at in Hc.
  rewrite readFile_run, exists_run. simpl.
  destruct (nodes w' !! getAbsolutePath X this filePath) as [[c mt |] |]; try done.
  by injection Hc as ->.
Qed.

Lemma writeFile_then_readFile_witness :
  fst (readFile node_externals Example.store "notes/new.md"
         (snd (writeFile node_externals Example.store "notes/new.md" "Salut"
                 Example2.with_locked))) = inr "Salut"
  ∧ fst (exists_ node_externals Example.store "notes/new.md"
           (snd (writeFile node_externals Example.store "notes/new.md" "Salut"
                   Example2.with_locked))) = inr true.
Proof.
  apply (writeFile_then_readFile node_externals Example.store "notes/new.md" "Salut"
           Example2.with_locked).
  apply run_inr. vm_compute. reflexivity.
Defined.

(** X2: a write that fails throws a [PERMISSION_DENIED] error and leaves the
    content of every file as it was. *)
Theorem writeFile_failure (X : externals) (this : FileSystemHelper)
    (filePath content : string) (w w' : world) (e : thrown) :
  writeFile X this filePath content w = (inl e, w') →
  (∃ cause, e = new_Error (ErrorCode.PERMISSION_DENIED +:+ ": Cannot write file '"
                           +:+ filePath +:+ "': " +:+ cause))
  ∧ same_files w w'.
Proof.
  unfold writeFile, try_catch, bind, Runtime.fs_mkdir, Runtime.fs_writeFile, throw, same_files,
    content_at.
  set (a := getAbsolutePath X this filePath).
  destruct (nodes w !! dirname X a) as [[c mt |] |] eqn:Ed; simpl.
  - intros [= <- <-]. split; [by eexists | done].
  - destruct (decide (a ∈ refused w)); simpl.
    { intros [= <- <-]. split; [by eexists | done]. }
    destruct (nodes w !! a) as [[c mt |] |]; simpl; try done.
    intros [= <- <-]. split; [by eexists | done].
  - destruct (decide (dirname X a ∈ refused w)); simpl.
    { intros [= <- <-]. split; [by eexists | done]. }
    assert (Hsame : ∀ q, match <[dirname X a := Dir]> (nodes w) !! q with
                         | Some (File content0 _) => Some content0
                         | _ => None
                         end
                         = match nodes w !! q with
                           | Some (File content0 _) => Some content0
                           | _ => None
                           end).
    { intros q. destruct (decide (dirname X a = q)) as [<- | Hne].
      - by rewrite lookup_insert_eq, Ed.
      - by rewrite lookup_insert_ne. }
    destruct (decide (a ∈ refused w)); simpl.
    { intros [= <- <-]. split; [by eexists | done]. }
    destruct (<[dirname X a := Dir]> (nodes w) !! a) as [[c mt |] |]; simpl; try done.
    intros [= <- <-]. split; [by eexists | done].
Qed.

Lemma writeFile_failure_witness :
  (∃ cause,
     new_Error "PERMISSION_DENIED: Cannot write file 'notes/locked.md': Error: EACCES: permission denied, open '/vault/notes/locked.md'"
     = new_Error (ErrorCode.PERMISSION_DENIED +:+ ": Cannot write file '"
                  +:+ "notes/locked.md" +:+ "': " +:+ cause))
  ∧ same_files Example2.with_locked
      (snd (writeFile node_externals Example.store "notes/locked.md" "Salut"
              Example2.with_locked)).
Proof.
  apply (writeFile_failure node_externals Example.store "notes/locked.md" "Salut"
           Example2.with_locked).
  apply run_inl. vm_compute. reflexivity.
Defined.

(** X3: after a backup that succeeded, [readFile] of the backup path returns
    the content the source had, [readFile] of the source still returns it,
    and the size recorded is the length of that content. *)
Theorem createBackup_then_readFile (X : externals) (this : FileSystemHelper)
    (filePath : string) (w w' : world) (info : BackupInfo.t) :
  createBackup X this filePath w = (inr info, w') →
  ∃ content,
    fst (readFile X this filePath w) = inr content
    ∧ fst (readFile X this (BackupInfo.backupPath info) w') = inr content
    ∧ fst (readFile X this filePath w') = inr content
    ∧ BackupInfo.size info = Z.of_nat (String.length content)
    ∧ BackupInfo.originalPath info = filePath.
Proof.
  rewrite createBackup_run. rewrite !readFile_run. simpl.
  set (source := getAbsolutePath X this filePath).
  destruct (nodes w !! source) as [[content mt |] |] eqn:Es; try done.
  destruct (decide (_ ∈ refused w)); [done |].
  set (target := getAbsolutePath X this (backup_path X filePath (clock w (ticks w)))).
  assert (Hsource : ∃ mt', <[target := File content (clock w (S (ticks w)))]> (nodes w)
                           !! source = Some (File content mt')).
  { destruct (decide (target = source)) as [-> | Hne];
      [rewrite lookup_insert_eq | rewrite lookup_insert_ne by done]; by eexists. }
  destruct Hsource as [mt' Hsource].
  destruct (nodes w !! target) as [[c' mt'' |] |] eqn:Et; try done;
    intros [= <- <-]; exists content; unfold backed_up; simpl;
    fold source; fold target; by rewrite lookup_insert_eq, Hsource.
Qed.

Lemma createBackup_then_readFile_witness :
  ∃ content,
    fst (readFile node_externals Example.store "notes/a.md" Example2.with_locked)
    = inr content
    ∧ fst (readFile node_externals Example.store "notes/a.backup-1700000000000.md"
             (snd (createBackup node_externals Example.store "notes/a.md"
                     Example2.with_locked))) = inr content
    ∧ fst (readFile node_externals Example.store "notes/a.md"
             (snd (createBackup node_externals Example.store "notes/a.md"
                     Example2.with_locked))) = inr content
    ∧ 5%Z = Z.of_nat (String.length content)
    ∧ "notes/a.md" = "notes/a.md".
Proof.
  apply (createBackup_then_readFile node_externals Example.store "notes/a.md"
           Example2.with_locked
           (snd (createBackup node_externals Example.store "notes/a.md" Example2.with_locked))
           {| BackupInfo.originalPath := "notes/a.md";
              BackupInfo.backupPath := "notes/a.backup-1700000000000.md";
              BackupInfo.timestamp := "2023-11-14T22:13:20.000Z";
              BackupInfo.size := 5 |}).
  apply run_inr. vm_compute. reflexivity.
Defined.

Section Cleanup.

Variable X : externals.
Variable this : FileSystemHelper.

Local Abbreviation abs := (getAbsolutePath X this).

Lemma only_removed_refl (expired : string → node → Prop) (w : world) :
  only_removed expired w w.
Proof. intros q. by left. Qed.

Lemma only_removed_trans (expired : string → node → Prop) (w1 w2 w3 : world) :
  only_removed expired w1 w2 → only_removed expired w2 w3 → only_removed expired w1 w3.
Proof.
  intros H12 H23 q. destruct (H23 q) as [H | [H (n & Hn & He)]].
  - rewrite H. apply H12.
  - destruct (H12 q) as [H' | [H' _]].
    + right. split; [done |]. exists n. by rewrite <- H'.
    + by rewrite H' in Hn.
Qed.

Lemma only_removed_same_nodes (expired : string → node → Prop) (w w' : world) :
  nodes w' = nodes w → only_removed expired w w'.
Proof. intros H q. left. by rewrite H. Qed.

(** The body of the loop of [cleanupOldBackups] removes the entry it looks
    at, or nothing. *)
Lemma cleanup_step (dirPath : string) (cutoffDate : Z) (file : string * bool) :
  keeps (only_removed (fun q n =>
           ∃ name content mtime,
             q = join X dirPath name ∧ Js.includes ".backup-" name = true
             ∧ n = File content mtime ∧ (mtime < cutoffDate)%Z))
    (if (snd file && Js.includes ".backup-" (fst file))%bool then
       let filePath := join X dirPath (fst file) in
       let* stats := Runtime.fs_stat filePath in
       if (Runtime.mtime_of stats <? cutoffDate)%Z then Runtime.fs_unlink filePath
       else ret tt
     else ret tt).
Proof.
  intros w r w' H.
  destruct (snd file && Js.includes ".backup-" (fst file))%bool eqn:Ef.
  2: { injection H as _ <-. apply only_removed_refl. }
  apply andb_true_iff in Ef as [_ Hinc].
  unfold bind, Runtime.fs_stat in H. simpl in H.
  destruct (nodes w !! join X dirPath (fst file)) as [[content mtime |] |] eqn:En; simpl in H.
  - destruct (mtime <? cutoffDate)%Z eqn:Em.
    2: { injection H as _ <-. by apply only_removed_same_nodes. }
    unfold Runtime.fs_unlink in H. simpl in H. rewrite En in H.
    destruct (decide (_ ∈ refused w)); injection H as _ <-;
      [by apply only_removed_same_nodes |].
    intros q. simpl. destruct (decide (join X dirPath (fst file) = q)) as [<- | Hne].
    + right. rewrite lookup_delete_eq. split; [done |].
      exists (File content mtime). split; [done |].
      exists (fst file), content, mtime. repeat split; try done. by apply Z.ltb_lt.
    + left. by rewrite lookup_delete_ne.
  - destruct (0 <? cutoffDate)%Z.
    2: { injection H as _ <-. by apply only_removed_same_nodes. }
    unfold Runtime.fs_unlink in H. simpl in H. rewrite En in H.
    injection H as _ <-. by apply only_removed_same_nodes.
  - injection H as _ <-. by apply only_removed_same_nodes.
Qed.

End Cleanup.

(** X4: [cleanupOldBackups] never throws, and it only removes: every entry
    is as it was or is gone, and an entry that is gone was a file directly in
    the directory whose name contains [.backup-] and whose last modification
    is older than the retention period counted back from the time of the
    cleanup. *)
Theorem cleanupOldBackups_only_removes_expired (X : externals) (this : FileSystemHelper)
    (directory : string) (w : world) :
  ∃ w',
    cleanupOldBackups X this directory w = (inr tt, w')
    ∧ only_removed
        (fun q n =>
           ∃ name content mtime,
             q = join X (getAbsolutePath X this directory) name
             ∧ Js.includes ".backup-" name = true
             ∧ n = File content mtime
             ∧ (mtime < minus_days X (clock w (ticks w)) (backupRetentionDays this))%Z)
        w w'.
Proof.
  destruct (cleanupOldBackups_returns X this directory w) as [w' H]. exists w'.
  split; [done |].
  set (expired := fun q n => ∃ name content mtime, _).
  unfold cleanupOldBackups, try_catch in H.
  destruct (bind _ _ w) as [[e | []] w1] eqn:E.
  2: { injection H as <-. revert E. unfold bind at 1, Runtime.fs_readdir.
       destruct (nodes w !! _) as [[] |]; try done.
       unfold bind at 1, Runtime.Date_now. simpl. intros E.
       eapply only_removed_trans; [| eapply (keeps_for_of (only_removed_refl expired)
                                                (only_removed_trans expired)), E].
       - by apply only_removed_same_nodes.
       - intros file. apply cleanup_step. }
  unfold Runtime.console_warn in H. injection H as <-.
  apply (only_removed_trans expired w w1); [| by apply only_removed_same_nodes].
  revert E. unfold bind at 1, Runtime.fs_readdir.
  destruct (nodes w !! _) as [[] |]; try (intros [= _ <-]; by apply only_removed_same_nodes).
  unfold bind at 1, Runtime.Date_now. simpl. intros E.
  eapply only_removed_trans; [| eapply (keeps_for_of (only_removed_refl expired)
                                           (only_removed_trans expired)), E].
  - by apply only_removed_same_nodes.
  - intros file. apply cleanup_step.
Qed.

(** X5: when the directory cannot be listed, [cleanupOldBackups] writes a
    warning to the console and changes nothing else. *)
Theorem cleanupOldBackups_missing_directory (X : externals) (this : FileSystemHelper)
    (directory : string) (w : world) :
  nodes w !! getAbsolutePath X this directory ≠ Some Dir →
  ∃ cause,
    cleanupOldBackups X this directory w
    = (inr tt,
       log (ConsoleWarn ("Warning: Failed to cleanup old backups in '" +:+ directory
                         +:+ "': " +:+ cause))
         (log (FsReaddir (getAbsolutePath X this directory)) w)).
Proof.
  intros Hd. unfold cleanupOldBackups, try_catch, bind, Runtime.fs_readdir,
    Runtime.console_warn.
  destruct (nodes w !! _) as [[] |]; try done; by eexists.
Qed.

Lemma cleanupOldBackups_missing_directory_witness :
  ∃ cause,
    cleanupOldBackups node_externals Example.store "archive" Example2.with_backups
    = (inr tt,
       log (ConsoleWarn ("Warning: Failed to cleanup old backups in '" +:+ "archive"
                         +:+ "': " +:+ cause))
         (log (FsReaddir (getAbsolutePath node_externals Example.store "archive"))
            Example2.with_backups)).
Proof.
  apply (cleanupOldBackups_missing_directory node_externals Example.store "archive"
           Example2.with_backups).
  vm_compute. discriminate.
Defined.

(** On a vault with an old and a recent backup, the cleanup removes the old
    one only. *)
Example cleanupOldBackups_example :
  let w' := snd (cleanupOldBackups node_externals Example.store "notes"
                   Example2.with_backups) in
  nodes w' !! "/vault/notes/a.backup-1600000000000.md" = None
  ∧ content_at w' "/vault/notes/a.backup-1699999999000.md" = Some "New"
  ∧ content_at w' "/vault/notes/a.md" = Some "Hello".
Proof. repeat split; vm_compute; reflexivity. Qed.

(** * Further properties of the translation engine *)

(** X6: [translateContent] never touches the file tree, makes one call of
    the generation service at most, and every call it makes asks the model
    [claude-3-haiku-20240307] for 4000 tokens at most in one user message. *)
Theorem translateContent_one_call (X : externals) (content : string)
    (lang : option string) (w : world) :
  let w' := snd (translateContent X content lang w) in
  nodes w' = nodes w
  ∧ refused w' = refused w
  ∧ ∃ evs,
      trace w' = (trace w ++ evs)%list
      ∧ (evs = [] ∧ calls w' = calls w
         ∨ ∃ prompt,
             evs = [Generate {| model := "claude-3-haiku-20240307";
                                max_tokens := 4000;
                                user_content := prompt |}]
             ∧ calls w' = S (calls w)).
Proof.
  rewrite translateContent_run. simpl.
  destruct (matter X content) as [e | [fm body]]; simpl.
  { repeat split. exists []. rewrite app_nil_r. split; [done | by left]. }
  destruct (negb _); simpl.
  { repeat split. exists []. rewrite app_nil_r. split; [done | by left]. }
  destruct (generation w (calls w) _); simpl.
  { repeat split. eexists. split; [done |]. right. by eexists. }
  destruct (first_text _ _); simpl.
  { repeat split. eexists. split; [done |]. right. by eexists. }
  destruct (matter_stringify X _ _); simpl; repeat split; eexists; (split; [done |]); right;
    by eexists.
Qed.

(** X7: whatever makes [translateContent] fail, it throws a
    [TRANSLATION_FAILED] error around the rendering of the cause, and the
    cause is one of four: the front matter of the input does not parse; or
    it parses, the body is not blank, and the call of the service fails, or
    the answer has no segment (a [TypeError]), or [matter.stringify] throws
    on the text to compose. *)
Theorem translateContent_failure (X : externals) (content : string) (lang : option string)
    (w w' : world) (e : thrown) :
  translateContent X content lang w = (inl e, w') →
  ∃ cause,
    e = new_Error (ErrorCode.TRANSLATION_FAILED +:+ ": Translation failed: " +:+ render cause)
    ∧ (matter X content = inl cause
       ∨ ∃ frontmatter bodyContent,
           matter X content = inr (frontmatter, bodyContent)
           ∧ whitespace_only bodyContent = false
           ∧ let request :=
               {| model := "claude-3-haiku-20240307"; max_tokens := 4000;
                  user_content :=
                    createTranslationPrompt bodyContent (default default_language lang) |} in
             (generation w (calls w) request = inl cause
              ∨ (generation w (calls w) request = inr []
                 ∧ cause = ErrorObj "TypeError"
                             "Cannot read properties of undefined (reading 'type')")
              ∨ ∃ response text,
                  generation w (calls w) request = inr response
                  ∧ first_text response bodyContent = inr text
                  ∧ matter_stringify X text
                      (Js.map_set "translated"
                         (translated_entry (toISOString X (clock w (ticks w)))
                            (default default_language lang))
                         frontmatter) = inl cause)).
Proof.
  rewrite translateContent_run. simpl.
  destruct (matter X content) as [e0 | [fm body]].
  { intros [= <- _]. exists e0. split; [done | by left]. }
  destruct (Js.trim body) eqn:Et; [done |].
  assert (Hws : whitespace_only body = false).
  { destruct (whitespace_only body) eqn:E; [| done].
    apply trim_empty_iff in E. congruence. }
  simpl. unfold translation_request, model_id.
  destruct (generation w (calls w) _) as [cause | response] eqn:Eg.
  { intros [= <- _]. exists cause. split; [done |]. right. exists fm, body.
    split; [done |]. split; [done |]. by left. }
  destruct (first_text response body) as [e1 | text] eqn:Ef.
  { intros [= <- _]. destruct response as [| [t | t] rest]; try done.
    injection Ef as <-. eexists. split; [done |]. right. exists fm, body.
    split; [done |]. split; [done |]. right. by left. }
  destruct (matter_stringify X text _) as [e2 | result] eqn:Es; [| done].
  intros [= <- _]. exists e2. split; [done |]. right. exists fm, body.
  split; [done |]. split; [done |]. right. right. by exists response, text.
Qed.

Lemma translateContent_failure_witness :
  ∃ cause,
    new_Error "TRANSLATION_FAILED: Translation failed: Error: 529 overloaded"
    = new_Error (ErrorCode.TRANSLATION_FAILED +:+ ": Translation failed: " +:+ render cause)
    ∧ (matter node_externals "Hello" = inl cause
       ∨ ∃ frontmatter bodyContent,
           matter node_externals "Hello" = inr (frontmatter, bodyContent)
           ∧ whitespace_only bodyContent = false
           ∧ let w := Example.vault_with "Hello" Example.overloaded in
             let request :=
               {| model := "claude-3-haiku-20240307"; max_tokens := 4000;
                  user_content :=
                    createTranslationPrompt bodyContent
                      (default default_language (Some "French")) |} in
             (generation w (calls w) request = inl cause
              ∨ (generation w (calls w) request = inr []
                 ∧ cause = ErrorObj "TypeError"
                             "Cannot read properties of undefined (reading 'type')")
              ∨ ∃ response text,
                  generation w (calls w) request = inr response
                  ∧ first_text response bodyContent = inr text
                  ∧ matter_stringify node_externals text
                      (Js.map_set "translated"
                         (translated_entry (toISOString node_externals (clock w (ticks w)))
                            (default default_language (Some "French")))
                         frontmatter) = inl cause)).
Proof.
  apply (translateContent_failure node_externals "Hello" (Some "French")
           (Example.vault_with "Hello" Example.overloaded)
           (snd (translateContent node_externals "Hello" (Some "French")
                   (Example.vault_with "Hello" Example.overloaded)))).
  apply run_inl. vm_compute. reflexivity.
Defined.

Lemma map_get_set_eq {V} (k : string) (v : V) (m : list (string * V)) :
  map_get k (Js.map_set k v m) = Some v.
Proof.
  induction m as [| [k' v'] m IH]; simpl; [by rewrite String.eqb_refl |].
  destruct (String.eqb k k') eqn:E; simpl; [by rewrite String.eqb_refl | by rewrite E].
Qed.

Lemma map_get_set_ne {V} (k k0 : string) (v : V) (m : list (string * V)) :
  k0 ≠ k → map_get k0 (Js.map_set k v m) = map_get k0 m.
Proof.
  intros Hne. induction m as [| [k' v'] m IH]; simpl.
  - destruct (String.eqb k0 k) eqn:E; [by apply String.eqb_eq in E | done].
  - destruct (String.eqb k k') eqn:E; simpl.
    + apply String.eqb_eq in E as <-.
      destruct (String.eqb k0 k) eqn:E'; [by apply String.eqb_eq in E' | done].
    + by rewrite IH.
Qed.

(** Setting a key keeps the keys that were there, in their order, and adds
    the key at the end when it is new. *)
Lemma map_set_keys {V} (k : string) (v : V) (m : list (string * V)) :
  map fst (Js.map_set k v m)
  = match map_get k m with
    | Some _ => map fst m
    | None => (map fst m ++ [k])%list
    end.
Proof.
  induction m as [| [k' v'] m IH]; simpl; [done |].
  destruct (String.eqb k k') eqn:E; simpl.
  - apply String.eqb_eq in E as <-. done.
  - rewrite IH. by destruct (map_get k m).
Qed.

(** X8: when the service answers with a text segment first, the document
    returned is composed of that text and of the front matter of the input
    in which the entry [translated] holds the date, the target language and
    the model: an earlier entry of that key is overwritten, every other entry
    is kept, and the keys keep their order. *)
Theorem translateContent_text_answer (X : externals) (content : string)
    (lang : option string) (w : world) (frontmatter : frontmatter)
    (bodyContent text : string) (rest : list content_block) :
  matter X content = inr (frontmatter, bodyContent) →
  whitespace_only bodyContent = false →
  generation w (calls w)
    {| model := "claude-3-haiku-20240307"; max_tokens := 4000;
       user_content := createTranslationPrompt bodyContent (default default_language lang) |}
  = inr (TextBlock text :: rest) →
  ∃ updated,
    fst (translateContent X content lang w)
    = match matter_stringify X text updated with
      | inr document => inr document
      | inl cause => inl (translation_failed cause)
      end
    ∧ map_get "translated" updated
      = Some (YMapping [("date", toISOString X (clock w (ticks w)));
                        ("target_language", default default_language lang);
                        ("model", "claude-3-haiku-20240307")])
    ∧ (∀ k, k ≠ "translated" → map_get k updated = map_get k frontmatter)
    ∧ map fst updated
      = match map_get "translated" frontmatter with
        | Some _ => map fst frontmatter
        | None => (map fst frontmatter ++ ["translated"])%list
        end.
Proof.
  intros Hm Hws Hg. rewrite translateContent_run, Hm. simpl.
  destruct (Js.trim bodyContent) eqn:Et.
  { apply trim_empty_iff in Et. congruence. }
  simpl. unfold translation_request, model_id. rewrite Hg. simpl.
  exists (Js.map_set "translated"
            (translated_entry (toISOString X (clock w (ticks w)))
               (default default_language lang)) frontmatter).
  split; [by destruct (matter_stringify X text _) |].
  split; [apply map_get_set_eq |].
  split; [intros k Hk; by apply map_get_set_ne | apply map_set_keys].
Qed.

Lemma translateContent_text_answer_witness :
  ∃ updated,
    fst (translateContent node_externals Example3.translated_before (Some "French")
           (Example.vault_with Example3.translated_before (inr [TextBlock "Bonjour"])))
    = match matter_stringify node_externals "Bonjour" updated with
      | inr document => inr document
      | inl cause => inl (translation_failed cause)
      end
    ∧ map_get "translated" updated
      = Some (YMapping [("date", toISOString node_externals
                                   (clock (Example.vault_with Example3.translated_before
                                             (inr [TextBlock "Bonjour"]))
                                      (ticks (Example.vault_with Example3.translated_before
                                                (inr [TextBlock "Bonjour"])))));
                        ("target_language", default default_language (Some "French"));
                        ("model", "claude-3-haiku-20240307")])
    ∧ (∀ k, k ≠ "translated" →
            map_get k updated
            = map_get k [("title", YString "Note"); ("translated", YString "yesterday");
                         ("author", YString "A")])
    ∧ map fst updated
      = match map_get "translated"
                [("title", YString "Note"); ("translated", YString "yesterday");
                 ("author", YString "A")] with
        | Some _ => map fst [("title", YString "Note"); ("translated", YString "yesterday");
                             ("author", YString "A")]
        | None => (map fst [("title", YString "Note"); ("translated", YString "yesterday");
                            ("author", YString "A")] ++ ["translated"])%list
        end.
Proof.
  apply (translateContent_text_answer node_externals Example3.translated_before
           (Some "French")
           (Example.vault_with Example3.translated_before (inr [TextBlock "Bonjour"]))
           [("title", YString "Note"); ("translated", YString "yesterday");
            ("author", YString "A")]
           "Hello" "Bonjour" []).
  - vm_compute. reflexivity.
  - vm_compute. reflexivity.
  - vm_compute. reflexivity.
Defined.

(** X9: when the first segment of the answer is not a text, the document
    returned keeps the body of the input, under the front matter with the
    entry [translated]; when the answer has no segment at all, the
    translation fails with [TRANSLATION_FAILED] around a [TypeError]. *)
Theorem translateContent_no_text_answer (X : externals) (content : string)
    (lang : option string) (w : world) (frontmatter : frontmatter)
    (bodyContent : string) (response : list content_block) :
  matter X content = inr (frontmatter, bodyContent) →
  whitespace_only bodyContent = false →
  generation w (calls w)
    {| model := "claude-3-haiku-20240307"; max_tokens := 4000;
       user_content := createTranslationPrompt bodyContent (default default_language lang) |}
  = inr response →
  (∀ text rest, response ≠ TextBlock text :: rest) →
  fst (translateContent X content lang w)
  = match response with
    | [] =>
        inl (new_Error
               (ErrorCode.TRANSLATION_FAILED +:+ ": Translation failed: "
                +:+ "TypeError: Cannot read properties of undefined (reading 'type')"))
    | _ :: _ =>
        match matter_stringify X bodyContent
                (Js.map_set "translated"
                   (YMapping [("date", toISOString X (clock w (ticks w)));
                              ("target_language", default default_language lang);
                              ("model", "claude-3-haiku-20240307")])
                   frontmatter) with
        | inr document => inr document
        | inl cause => inl (translation_failed cause)
        end
    end.
Proof.
  intros Hm Hws Hg Hnt. rewrite translateContent_run, Hm. simpl.
  destruct (Js.trim bodyContent) eqn:Et.
  { apply trim_empty_iff in Et. congruence. }
  simpl. unfold translation_request, model_id. rewrite Hg.
  destruct response as [| [text | type] rest]; simpl; try done.
  - by destruct (Hnt text rest).
  - unfold translated_entry, model_id. by destruct (matter_stringify X bodyContent _).
Qed.

Lemma translateContent_no_text_answer_witness :
  fst (translateContent node_externals "Hello" (Some "French")
         (Example.vault_with "Hello" Example3.tool_answer))
  = match matter_stringify node_externals "Hello"
            (Js.map_set "translated"
               (YMapping [("date", toISOString node_externals
                                     (clock (Example.vault_with "Hello" Example3.tool_answer)
                                        (ticks (Example.vault_with "Hello"
                                                  Example3.tool_answer))));
                          ("target_language", default default_language (Some "French"));
                          ("model", "claude-3-haiku-20240307")])
               []) with
    | inr document => inr document
    | inl cause => inl (translation_failed cause)
    end
  ∧ fst (translateContent node_externals "Hello" (Some "French")
           (Example.vault_with "Hello" Example3.empty_answer))
    = inl (new_Error
             (ErrorCode.TRANSLATION_FAILED +:+ ": Translation failed: "
              +:+ "TypeError: Cannot read properties of undefined (reading 'type')")).
Proof.
  split.
  - apply (translateContent_no_text_answer node_externals "Hello" (Some "French")
             (Example.vault_with "Hello" Example3.tool_answer) [] "Hello"
             [OtherBlock "tool_use"; TextBlock "Bonjour"]);
      [vm_compute; reflexivity | vm_compute; reflexivity | vm_compute; reflexivity
       | intros text rest; discriminate].
  - apply (translateContent_no_text_answer node_externals "Hello" (Some "French")
             (Example.vault_with "Hello" Example3.empty_answer) [] "Hello" []);
      [vm_compute; reflexivity | vm_compute; reflexivity | vm_compute; reflexivity
       | intros text rest; discriminate].
Defined.

(** When the service fails on every call, the batch returns the documents
    as they were. *)
Example translateBatch_example :
  fst Example4.batch_when_overloaded
  = inr [Some "One"; Some "Two"; Some "Three"; Some "Four"]
  ∧ calls (snd Example4.batch_when_overloaded) = 4.
Proof. split; vm_compute; reflexivity. Qed.

(** * Further properties of the guard *)

Lemma replace_all_no_backtick {St} (re : Js.matcher)
    (callback : string → St → string * St) (fuel : nat) (s : string) (st : St) :
  (∀ c t, Ascii.eqb c Guard.backtick = false → re (String c t) = None) →
  no_backtick s = true →
  Js.replace_all_fuel fuel re callback s st = (s, st).
Proof.
  intros Hre. revert s. induction fuel as [| fuel IH]; intros s; simpl; [done |].
  destruct s as [| c s]; [done |]. simpl. intros [Hc Hs]%andb_true_iff.
  apply negb_true_iff in Hc. rewrite (Hre c s Hc). by rewrite IH.
Qed.

(** X12: a body without a backtick goes through [protectCodeBlocks] as it
    is, with no span recorded, and [restoreCodeBlocks] gives it back. *)
Theorem protectCodeBlocks_without_code (content : string) :
  no_backtick content = true →
  Guard.protectCodeBlocks content = (content, [])
  ∧ Guard.restoreCodeBlocks (fst (Guard.protectCodeBlocks content))
      (snd (Guard.protectCodeBlocks content)) = content.
Proof.
  intros Hnb.
  assert (H : Guard.protectCodeBlocks content = (content, [])).
  { unfold Guard.protectCodeBlocks, Js.replace_all.
    rewrite replace_all_no_backtick; [| | done].
    - rewrite replace_all_no_backtick; [done | | done].
      intros c t Hc. unfold Guard.fenced_re, Guard.fence.
      change (Js.strip_prefix "```" (String c t))
        with (if Ascii.eqb Guard.backtick c then Js.strip_prefix "``" t else None).
      by rewrite Ascii.eqb_sym, Hc.
    - intros c t Hc. simpl. by rewrite Hc. }
  by rewrite H.
Qed.

Lemma protectCodeBlocks_without_code_witness :
  Guard.protectCodeBlocks "# Title and $$ text" = ("# Title and $$ text", [])
  ∧ Guard.restoreCodeBlocks (fst (Guard.protectCodeBlocks "# Title and $$ text"))
      (snd (Guard.protectCodeBlocks "# Title and $$ text")) = "# Title and $$ text".
Proof.
  apply (protectCodeBlocks_without_code "# Title and $$ text"). reflexivity.
Defined.

(** * Further properties of the pipeline *)

Section PipelineExtras.

Variable X : externals.
Variable this : FileSystemHelper.
Variable configuredVault : string.

Local Abbreviation abs := (getAbsolutePath X this).

Lemma translateContent_nodes (content : string) (lang : option string) (w w' : world)
    (r : thrown + string) :
  translateContent X content lang w = (r, w') →
  nodes w' = nodes w ∧ refused w' = refused w.
Proof.
  rewrite translateContent_run. simpl.
  destruct (matter X content) as [e | [fm body]]; [by intros [= _ <-] |].
  destruct (negb _); [by intros [= _ <-] |].
  destruct (generation w (calls w) _); [by intros [= _ <-] |].
  destruct (first_text _ _); [by intros [= _ <-] |].
  destruct (matter_stringify X _ _); by intros [= _ <-].
Qed.

Lemma same_files_nodes (w w' : world) : nodes w' = nodes w → same_files w w'.
Proof. intros H q. unfold content_at. by rewrite H. Qed.

(** The stages behind the backup, when they fail, leave the files as they
    were. *)
Lemma translate_and_apply_failure (request : TranslationRequest.t)
    (filePath original : string) (info : BackupInfo.t) (w w' : world) (e : thrown) :
  translate_and_apply X this request filePath original info w = (inl e, w') →
  same_files w w'.
Proof.
  unfold translate_and_apply, bind.
  destruct (translateContent _ _ _ w) as [[e1 | translated] w1] eqn:E1.
  { intros [= _ <-]. apply translateContent_nodes in E1 as [H _]. by apply same_files_nodes. }
  apply translateContent_nodes in E1 as [H1 _].
  destruct (updateFileByMode _ _ _ _ _ _ w1) as [[e2 | []] w2] eqn:E2.
  - intros [= _ <-]. intros q. unfold content_at. rewrite <- H1.
    destruct (or_replace _); simpl in E2;
      try (apply writeFile_failure in E2 as [_ Hs]; apply Hs).
    by injection E2 as _ <-.
  - by destruct (cleanupOldBackups_returns X this (containing_directory filePath) w2)
      as [w3 ->].
Qed.

End PipelineExtras.

(** X13: a run of the pipeline that fails changes the content of no file,
    but that the backup of the note may have been written; the note itself
    has the content it had. *)
Theorem execute_failure_keeps_files (X : externals) (this : FileSystemHelper)
    (configuredVault : string) (request : TranslationRequest.t) (w w' : world)
    (e : thrown) :
  execute X this configuredVault request w = (inl e, w') →
  (∀ q, content_at w' q = content_at w q
        ∨ ∃ parsedUrl content,
            located X configuredVault request = inr parsedUrl
            ∧ content_at w (getAbsolutePath X this (path parsedUrl)) = Some content
            ∧ q = getAbsolutePath X this
                    (backup_path X (path parsedUrl) (clock w (ticks w)))
            ∧ content_at w' q = Some content)
  ∧ ∀ parsedUrl,
      located X configuredVault request = inr parsedUrl →
      content_at w' (getAbsolutePath X this (path parsedUrl))
      = content_at w (getAbsolutePath X this (path parsedUrl)).
Proof.
  intros H.
  assert (Hmain : ∀ q, content_at w' q = content_at w q
        ∨ ∃ parsedUrl content,
            located X configuredVault request = inr parsedUrl
            ∧ content_at w (getAbsolutePath X this (path parsedUrl)) = Some content
            ∧ q = getAbsolutePath X this
                    (backup_path X (path parsedUrl) (clock w (ticks w)))
            ∧ content_at w' q = Some content).
  { rewrite execute_run in H.
    destruct (located X configuredVault request) as [e0 | parsedUrl] eqn:El.
    { injection H as _ <-. by left. }
    simpl in H. set (source := getAbsolutePath X this (path parsedUrl)) in *.
    destruct (nodes w !! source) as [n |] eqn:En; [| injection H as _ <-; by left].
    rewrite readFile_run in H. simpl in H. fold source in H. rewrite En in H.
    destruct n as [content mt |]; [| injection H as _ <-; by left].
    rewrite createBackup_run in H. simpl in H. fold source in H. rewrite En in H.
    set (target := getAbsolutePath X this
                     (backup_path X (path parsedUrl) (clock w (ticks w)))) in *.
    destruct (decide (target ∈ refused w)); [injection H as _ <-; by left |].
    match goal with
    | |- ?G =>
        assert (Hrest : ∀ info,
                  translate_and_apply X this request (path parsedUrl) content info
                    (backed_up X this (path parsedUrl) content
                       (log (FsReadFile source) (log (FsAccess source) w))) = (inl e, w') →
                  G)
    end.
    { intros info Hrun q. apply translate_and_apply_failure in Hrun.
      rewrite (Hrun q). unfold content_at, backed_up. simpl. fold source. fold target.
      destruct (decide (target = q)) as [<- | Hne].
      - right. exists parsedUrl, content. rewrite lookup_insert_eq.
        repeat split; try done. fold source. by rewrite En.
      - left. by rewrite lookup_insert_ne. }
    destruct (nodes w !! target) as [[c' mt' |] |] eqn:Etg.
    - by eapply Hrest.
    - injection H as _ <-. by left.
    - by eapply Hrest. }
  split; [exact Hmain |].
  intros parsedUrl Hl. destruct (Hmain (getAbsolutePath X this (path parsedUrl)))
    as [Hq | (pu & content & Hl' & Hc & _ & Hc')]; [done |].
  rewrite Hl in Hl'. injection Hl' as <-. by rewrite Hc, Hc'.
Qed.

Lemma execute_failure_keeps_files_witness :
  content_at (snd (Example.run "Hello" (inr [TextBlock "Bonjour"]) (other_mode "merge")))
    "/vault/notes/a.md"
  = content_at (Example.vault_with "Hello" (inr [TextBlock "Bonjour"])) "/vault/notes/a.md".
Proof.
  assert (H : execute node_externals Example.store "Main"
                (Example.request "notes/a.md" (other_mode "merge"))
                (Example.vault_with "Hello" (inr [TextBlock "Bonjour"]))
              = (inl (invalid_mode "merge"),
                 snd (Example.run "Hello" (inr [TextBlock "Bonjour"]) (other_mode "merge")))).
  { apply (run_inl (execute node_externals Example.store "Main"
                      (Example.request "notes/a.md" (other_mode "merge")))
                   (Example.vault_with "Hello" (inr [TextBlock "Bonjour"]))).
    vm_compute. reflexivity. }
  apply (proj2 (execute_failure_keeps_files node_externals Example.store "Main" _ _ _ _ H)
           {| vault := "Main"; path := "notes/a.md" |}).
  vm_compute. reflexivity.
Defined.

(** X14: a run of the pipeline that succeeds has gone through its stages in
    this order: the existence check and the read of the note, the backup of
    the content read (written and inspected), one call of the generation
    service at most, the creation of the directory and the write the mode
    asks for, the cleanup; the result carries the content read, the path of
    the backup and its time; and the mode is one of the three. *)
Theorem execute_success_stages (X : externals) (this : FileSystemHelper)
    (configuredVault : string) (request : TranslationRequest.t) (w w' : world)
    (result : TranslationResult.t) :
  execute X this configuredVault request w = (inr result, w') →
  ∃ parsedUrl gen cleanup,
    let source := getAbsolutePath X this (path parsedUrl) in
    let millis := clock w (ticks w) in
    let target := getAbsolutePath X this (backup_path X (path parsedUrl) millis) in
    let written :=
      applied (or_replace (TranslationRequest.mode request)) (path parsedUrl)
        (TranslationResult.originalContent result)
        (TranslationResult.translatedContent result) in
    located X configuredVault request = inr parsedUrl
    ∧ content_at w source = Some (TranslationResult.originalContent result)
    ∧ TranslationResult.backupPath result = backup_path X (path parsedUrl) millis
    ∧ TranslationResult.timestamp result = toISOString X millis
    ∧ (∀ v, or_replace (TranslationRequest.mode request) ≠ other_mode v)
    ∧ trace w'
      = (trace w
         ++ [FsAccess source; FsReadFile source; FsReadFile source;
             FsWriteFile target (TranslationResult.originalContent result); FsStat target]
         ++ gen
         ++ [FsMkdir (dirname X (getAbsolutePath X this (fst written)));
             FsWriteFile (getAbsolutePath X this (fst written)) (snd written)]
         ++ cleanup)%list
    ∧ (gen = [] ∨ ∃ req, gen = [Generate req])
    ∧ Forall cleanup_event cleanup.
Proof.
  intros H. rewrite execute_run in H.
  destruct (located X configuredVault request) as [e0 | parsedUrl] eqn:El; [done |].
  simpl in H. set (source := getAbsolutePath X this (path parsedUrl)) in *.
  destruct (nodes w !! source) as [n |] eqn:En; [| done].
  rewrite readFile_run in H. simpl in H. fold source in H. rewrite En in H.
  destruct n as [content mt |]; [| done].
  rewrite createBackup_run in H. simpl in H. fold source in H. rewrite En in H.
  set (target := getAbsolutePath X this
                   (backup_path X (path parsedUrl) (clock w (ticks w)))) in *.
  destruct (decide (target ∈ refused w)); [done |].
  match goal with
  | |- ?G =>
      assert (Hrest : translate_and_apply X this request (path parsedUrl) content
                {| BackupInfo.originalPath := path parsedUrl;
                   BackupInfo.backupPath := backup_path X (path parsedUrl) (clock w (ticks w));
                   BackupInfo.timestamp := toISOString X (clock w (ticks w));
                   BackupInfo.size := Z.of_nat (String.length content) |}
                (backed_up X this (path parsedUrl) content
                   (log (FsReadFile source) (log (FsAccess source) w))) = (inr result, w') →
              G)
  end.
  { clear H. intros H. unfold translate_and_apply, bind in H.
    set (w3 := backed_up _ _ _ _ _) in H.
    assert (Ht3 : trace w3 = (trace w ++ [FsAccess source; FsReadFile source;
                                           FsReadFile source; FsWriteFile target content;
                                           FsStat target])%list).
    { unfold w3, backed_up. simpl. fold source. fold target. by rewrite <- !app_assoc. }
    destruct (translateContent _ _ _ w3) as [[e | translated] w4] eqn:E4; [done |].
    assert (Hgen : ∃ gen, trace w4 = (trace w3 ++ gen)%list
                          ∧ (gen = [] ∨ ∃ req, gen = [Generate req])).
    { rewrite translateContent_run in E4. simpl in E4.
      destruct (matter X content) as [? | [fm body]]; [done |].
      destruct (negb _).
      { injection E4 as _ <-. exists []. rewrite app_nil_r. split; [done | by left]. }
      destruct (generation _ _ _); [done |].
      destruct (first_text _ _); [done |].
      destruct (matter_stringify X _ _); [done |].
      injection E4 as _ <-. eexists. split; [done |]. right. by eexists. }
    destruct Hgen as (gen & Ht4 & Hgen).
    destruct (updateFileByMode _ _ _ _ _ _ w4) as [[e | []] w5] eqn:E5; [done |].
    destruct (cleanupOldBackups _ _ _ w5) as [[e | []] w6] eqn:E6; [done |].
    apply emits_cleanupOldBackups in E6 as (cleanup & Ht6 & Hcleanup).
    injection H as <- <-. simpl.
    exists parsedUrl, gen, cleanup. fold source. fold target.
    assert (Hmode : (∀ v, or_replace (TranslationRequest.mode request) ≠ other_mode v)
              ∧ trace w5
                = (trace w4
                   ++ [FsMkdir (dirname X (getAbsolutePath X this
                          (fst (applied (or_replace (TranslationRequest.mode request))
                                  (path parsedUrl) content translated))));
                       FsWriteFile (getAbsolutePath X this
                          (fst (applied (or_replace (TranslationRequest.mode request))
                                  (path parsedUrl) content translated)))
                         (snd (applied (or_replace (TranslationRequest.mode request))
                                 (path parsedUrl) content translated))])%list).
    { destruct (or_replace (TranslationRequest.mode request)); simpl in E5 |- *;
        try (apply writeFile_done in E5 as (Ht5 & _); by split).
      discriminate. }
    destruct Hmode as [Hvalid Ht5].
    split; [done |]. split; [unfold content_at; by rewrite En |].
    split; [done |]. split; [done |]. split; [done |].
    split; [| split; [done | exact Hcleanup]].
    rewrite Ht6, Ht5, Ht4, Ht3, <- !app_assoc. reflexivity. }
  destruct (nodes w !! target) as [[c' mt' |] |] eqn:Etg; [by apply Hrest | done | by apply Hrest].
Qed.

Lemma execute_success_stages_witness :
  ∃ parsedUrl gen cleanup,
    located node_externals "Main" (Example.request "notes/a.md" append) = inr parsedUrl
    ∧ trace (snd (Example.run "Hello" (inr [TextBlock "Bonjour"]) append))
      = (trace (Example.vault_with "Hello" (inr [TextBlock "Bonjour"]))
         ++ [FsAccess (getAbsolutePath node_externals Example.store (path parsedUrl));
             FsReadFile (getAbsolutePath node_externals Example.store (path parsedUrl));
             FsReadFile (getAbsolutePath node_externals Example.store (path parsedUrl));
             FsWriteFile "/vault/notes/a.backup-1700000000000.md" "Hello";
             FsStat "/vault/notes/a.backup-1700000000000.md"]
         ++ gen
         ++ [FsMkdir "/vault/notes";
             FsWriteFile "/vault/notes/a.md"
               ("Hello" +:+ append_separator
                +:+ Example.composed "Bonjour"
                      [("translated",
                        YMapping [("date", "2023-11-14T22:13:20.001Z");
                                  ("target_language", "French");
                                  ("model", "claude-3-haiku-20240307")])])]
         ++ cleanup)%list
    ∧ Forall cleanup_event cleanup.
Proof.
  assert (H : execute node_externals Example.store "Main"
                (Example.request "notes/a.md" append)
                (Example.vault_with "Hello" (inr [TextBlock "Bonjour"]))
              = (inr {| TranslationResult.originalContent := "Hello";
                        TranslationResult.translatedContent :=
                          Example.composed "Bonjour"
                            [("translated",
                              YMapping [("date", "2023-11-14T22:13:20.001Z");
                                        ("target_language", "French");
                                        ("model", "claude-3-haiku-20240307")])];
                        TranslationResult.backupPath := "notes/a.backup-1700000000000.md";
                        TranslationResult.timestamp := "2023-11-14T22:13:20.000Z" |},
                 snd (Example.run "Hello" (inr [TextBlock "Bonjour"]) append))).
  { apply (run_inr (execute node_externals Example.store "Main"
                      (Example.request "notes/a.md" append))
                   (Example.vault_with "Hello" (inr [TextBlock "Bonjour"]))).
    vm_compute. reflexivity. }
  destruct (execute_success_stages node_externals Example.store "Main" _ _ _ _ H)
    as (parsedUrl & gen & cleanup & Hl & _ & _ & _ & _ & Ht & _ & Hc).
  exists parsedUrl, gen, cleanup. split; [exact Hl |]. split; [| exact Hc].
  vm_compute in Hl. injection Hl as <-. vm_compute in Ht. vm_compute. exact Ht.
Defined.

(** X15: when no entry exists at the path of the address, the pipeline
    throws [FILE_NOT_FOUND] after the existence check, its only call: nothing
    is read, backed up, translated or written. *)
Theorem execute_file_not_found (X : externals) (this : FileSystemHelper)
    (configuredVault : string) (request : TranslationRequest.t) (w : world)
    (parsedUrl : parsed_url) :
  located X configuredVault request = inr parsedUrl →
  nodes w !! getAbsolutePath X this (path parsedUrl) = None →
  execute X this configuredVault request w
  = (inl (new_Error (ErrorCode.FILE_NOT_FOUND +:+ ": File '" +:+ path parsedUrl
                     +:+ "' not found")),
     log (FsAccess (getAbsolutePath X this (path parsedUrl))) w).
Proof. intros Hl Hn. rewrite execute_run, Hl. simpl. by rewrite Hn. Qed.

Lemma execute_file_not_found_witness :
  execute node_externals Example.store "Main" (Example.request "notes/b.md" replace)
    Example.two_notes
  = (inl (new_Error (ErrorCode.FILE_NOT_FOUND +:+ ": File '" +:+ "notes/b.md"
                     +:+ "' not found")),
     log (FsAccess (getAbsolutePath node_externals Example.store "notes/b.md"))
       Example.two_notes).
Proof.
  apply (execute_file_not_found node_externals Example.store "Main"
           (Example.request "notes/b.md" replace) Example.two_notes
           {| vault := "Main"; path := "notes/b.md" |}).
  - vm_compute. reflexivity.
  - vm_compute. reflexivity.
Defined.

Lemma strip_prefix_app (p s : string) : Js.strip_prefix p (p +:+ s) = Some s.
Proof. induction p as [| c p IH]; simpl; [done | by rewrite Ascii.eqb_refl]. Qed.

Lemma includes_middle (before pat after : string) :
  Js.includes pat (before +:+ pat +:+ after) = true.
Proof.
  assert (Hhead : ∀ s r, Js.strip_prefix pat s = Some r →
                           Js.find_first pat s = Some (EmptyString, r)).
  { intros s r H. destruct s; simpl; by rewrite H. }
  unfold Js.includes. induction before as [| c before IH].
  - change (EmptyString +:+ pat +:+ after) with (pat +:+ after).
    by rewrite (Hhead _ _ (strip_prefix_app pat after)).
  - change (String c before +:+ pat +:+ after) with (String c (before +:+ pat +:+ after)).
    cbn [Js.find_first].
    destruct (Js.strip_prefix pat (String c _)); [done |].
    by destruct (Js.find_first pat _) as [[? ?] |].
Qed.

Lemma includes_here (pat after : string) : Js.includes pat (pat +:+ after) = true.
Proof. apply (includes_middle EmptyString). Qed.

Lemma includes_left (before pat t : string) :
  Js.includes pat t = true → Js.includes pat (before +:+ t) = true.
Proof.
  unfold Js.includes. intros H. induction before as [| c before IH]; [done |].
  change (String c before +:+ t) with (String c (before +:+ t)). cbn [Js.find_first].
  destruct (Js.strip_prefix pat (String c _)); [done |].
  by destruct (Js.find_first pat (before +:+ t)) as [[? ?] |].
Qed.

(** X16: the request [translateContent] sends for a body that is not blank
    carries the body word for word and names the target language, which is
    [日本語] when none is given. *)
Theorem translateContent_prompt (X : externals) (content : string) (lang : option string)
    (w : world) (frontmatter : frontmatter) (bodyContent : string) :
  matter X content = inr (frontmatter, bodyContent) →
  whitespace_only bodyContent = false →
  ∃ prompt,
    trace (snd (translateContent X content lang w))
    = (trace w ++ [Generate {| model := "claude-3-haiku-20240307"; max_tokens := 4000;
                               user_content := prompt |}])%list
    ∧ Js.includes bodyContent prompt = true
    ∧ Js.includes (match lang with Some l => l | None => "日本語" end) prompt = true.
Proof.
  intros Hm Hws. rewrite translateContent_run, Hm. simpl.
  destruct (Js.trim bodyContent) eqn:Et.
  { apply trim_empty_iff in Et. congruence. }
  simpl. eexists. split.
  - destruct (generation w (calls w) _); [reflexivity |].
    destruct (first_text _ _); [reflexivity |].
    by destruct (matter_stringify X _ _).
  - unfold createTranslationPrompt. split.
    + repeat first [apply includes_here | apply includes_left].
    + replace (match lang with Some l => l | None => "日本語" end)
        with (default default_language lang) by (by destruct lang).
      apply (includes_middle "以下のMarkdownテキストを").
Qed.

Lemma translateContent_prompt_witness :
  ∃ prompt,
    trace (snd (translateContent node_externals "Hello" None
                  (Example.vault_with "Hello" (inr [TextBlock "Bonjour"]))))
    = (trace (Example.vault_with "Hello" (inr [TextBlock "Bonjour"]))
       ++ [Generate {| model := "claude-3-haiku-20240307"; max_tokens := 4000;
                       user_content := prompt |}])%list
    ∧ Js.includes "Hello" prompt = true
    ∧ Js.includes "日本語" prompt = true.
Proof.
  apply (translateContent_prompt node_externals "Hello" None
           (Example.vault_with "Hello" (inr [TextBlock "Bonjour"])) [] "Hello");
    vm_compute; reflexivity.
Defined.

(** * The round trip of the guard *)

(** ** Characters and digits *)

Lemma append_assoc (a b c : string) : (a +:+ b) +:+ c = a +:+ (b +:+ c).
Proof.
  induction a as [| x a IH]; [done |].
  change (String x ((a +:+ b) +:+ c) = String x (a +:+ (b +:+ c))). by rewrite IH.
Qed.

Lemma append_cons (x : ascii) (a b : string) : String x a +:+ b = String x (a +:+ b).
Proof. done. Qed.

Lemma append_nil_r (a : string) : a +:+ EmptyString = a.
Proof.
  induction a as [| x a IH]; [done |].
  change (String x (a +:+ EmptyString) = String x a). by rewrite IH.
Qed.

Lemma lacks_app (x : ascii) (a b : string) :
  lacks x (a +:+ b) = (lacks x a && lacks x b)%bool.
Proof. induction a as [| c a IH]; simpl; [done |]. rewrite IH. by rewrite andb_assoc. Qed.

Lemma is_digit_not (c x : ascii) : is_digit c = true → is_digit x = false → Ascii.eqb c x = false.
Proof.
  intros Hc Hx. destruct (Ascii.eqb c x) eqn:E; [| done].
  apply Ascii.eqb_eq in E as ->. congruence.
Qed.

Lemma all_digits_lacks (x : ascii) (s : string) :
  is_digit x = false → all_digits s = true → lacks x s = true.
Proof.
  intros Hx. induction s as [| c s IH]; simpl; [done |].
  intros [Hc Hs]%andb_true_iff. by rewrite (is_digit_not c x Hc Hx), IH.
Qed.

Lemma pretty_N_char_digit (x : N) : is_digit (pretty_N_char x) = true.
Proof. destruct x as [| p]; [done |]. by do 4 (destruct p as [p | p |]; try done). Qed.

Lemma pretty_N_go_digits (x : N) (s : string) :
  all_digits s = true → all_digits (pretty_N_go x s) = true.
Proof.
  revert s. induction (N.lt_wf_0 x) as [x _ IH]; intros s Hs.
  destruct (decide (x = 0)%N) as [-> | Hx]; [by rewrite pretty_N_go_0 |].
  rewrite pretty_N_go_step by lia. apply IH.
  - apply N.div_lt; lia.
  - simpl. by rewrite pretty_N_char_digit.
Qed.

Lemma pretty_N_go_nonempty (x : N) (s : string) :
  s ≠ EmptyString → pretty_N_go x s ≠ EmptyString.
Proof.
  revert s. induction (N.lt_wf_0 x) as [x _ IH]; intros s Hs.
  destruct (decide (x = 0)%N) as [-> | Hx]; [by rewrite pretty_N_go_0 |].
  rewrite pretty_N_go_step by lia. apply IH; [apply N.div_lt; lia | done].
Qed.

(** The decimal numeral of a number: digits, and one at least. *)
Lemma pretty_nat_digits (n : nat) :
  ∃ d ds, pretty n = String d ds ∧ is_digit d = true ∧ all_digits ds = true.
Proof.
  assert (H : all_digits (pretty n) = true ∧ pretty n ≠ EmptyString).
  { unfold pretty, pretty_nat, pretty, pretty_N.
    destruct (decide (N.of_nat n = 0)%N); [done |]. split.
    - by apply pretty_N_go_digits.
    - rewrite pretty_N_go_step by lia. by apply pretty_N_go_nonempty. }
  destruct H as [Hd Hn]. destruct (pretty n) as [| d ds]; [done |].
  simpl in Hd. apply andb_true_iff in Hd as [? ?]. by exists d, ds.
Qed.

(** A replacement text without a dollar sign stands for itself. *)
Lemma get_substitution_plain (matched before after repl : string) :
  lacks "$" repl = true → Js.get_substitution matched before after repl = repl.
Proof.
  induction repl as [| c repl IH]; simpl; [done |].
  intros [Hc Hr]%andb_true_iff. apply negb_true_iff in Hc. rewrite Hc. by rewrite IH.
Qed.

(** ** Occurrences *)

Lemma strip_prefix_Some (p s r : string) : Js.strip_prefix p s = Some r → s = p +:+ r.
Proof.
  revert s. induction p as [| a p IH]; intros s; simpl; [by intros [= ->] |].
  destruct s as [| b s]; [done |].
  destruct (Ascii.eqb a b) eqn:E; [| done].
  apply Ascii.eqb_eq in E as ->. intros H. by rewrite (IH _ H).
Qed.

Lemma find_first_here (pat rest : string) :
  Js.find_first pat (pat +:+ rest) = Some (EmptyString, rest).
Proof.
  pose proof (strip_prefix_app pat rest) as H.
  destruct (pat +:+ rest); simpl; by rewrite H.
Qed.

Lemma shifted_shifted (a b : string) (found : option (string * string)) :
  shifted a (shifted b found) = shifted (a +:+ b) found.
Proof. destruct found as [[before after] |]; simpl; [| done]. by rewrite append_assoc. Qed.

Lemma find_first_skip (pat : string) (c : ascii) (s : string) :
  Js.strip_prefix pat (String c s) = None →
  Js.find_first pat (String c s) = shifted (String c EmptyString) (Js.find_first pat s).
Proof. intros H. cbn [Js.find_first]. rewrite H. by destruct (Js.find_first pat s) as [[? ?] |]. Qed.

(** A prefix without the first character of the pattern holds no occurrence. *)
Lemma find_first_lacks_prefix (x : ascii) (pat pre s : string) :
  lacks x pre = true →
  Js.find_first (String x pat) (pre +:+ s) = shifted pre (Js.find_first (String x pat) s).
Proof.
  induction pre as [| c pre IH]; intros Hl.
  - change (EmptyString +:+ s) with s.
    by destruct (Js.find_first (String x pat) s) as [[? ?] |].
  - simpl in Hl. apply andb_true_iff in Hl as [Hc Hl]. apply negb_true_iff in Hc.
    rewrite append_cons, find_first_skip.
    + by rewrite IH, shifted_shifted.
    + simpl. by rewrite Ascii.eqb_sym, Hc.
Qed.

Lemma find_first_after (x : ascii) (pat pre rest : string) :
  lacks x pre = true →
  Js.find_first (String x pat) (pre +:+ String x pat +:+ rest) = Some (pre, rest).
Proof.
  intros Hl. rewrite find_first_lacks_prefix by done.
  rewrite (find_first_here (String x pat)). simpl. by rewrite append_nil_r.
Qed.

(** ** Weaving *)

Lemma weave_same (s : string) : weave [] s s.
Proof. induction s; by constructor. Qed.

Lemma weave_app (h1 h2 : list (string * string)) (g1 o1 g2 o2 : string) :
  weave h1 g1 o1 → weave h2 g2 o2 → weave (h1 ++ h2) (g1 +:+ g2) (o1 +:+ o2).
Proof.
  intros H1 H2. induction H1 as [| c hs g o _ IH | k v hs g o _ IH]; simpl.
  - done.
  - by constructor.
  - rewrite !append_assoc. by constructor.
Qed.

Lemma weave_nil_eq (g o : string) : weave [] g o → g = o.
Proof.
  intros H. remember [] as hs eqn:E.
  induction H as [| c hs g o _ IH | k v hs g o _ IH]; [done | | done].
  by rewrite (IH E).
Qed.

(** The first hole: what comes before it is common to both texts. *)
Lemma weave_cons_inv (k v : string) (hs : list (string * string)) (g o : string) :
  weave ((k, v) :: hs) g o →
  ∃ pre g' o', g = pre +:+ k +:+ g' ∧ o = pre +:+ v +:+ o' ∧ weave hs g' o'.
Proof.
  intros H. remember ((k, v) :: hs) as hs0 eqn:E.
  induction H as [| c hs1 g o _ IH | k1 v1 hs1 g o H _]; [done | |].
  - destruct (IH E) as (pre & g' & o' & -> & -> & Hw).
    by exists (String c pre), g', o'.
  - injection E as -> -> ->. by exists EmptyString, g, o.
Qed.

Section PassWeave.

Variable placeholder_of : nat → string.
Hypothesis placeholder_inj : ∀ a b, placeholder_of a = placeholder_of b → a = b.
Variable re : Js.matcher.
Variable shape : string → Prop.
Hypothesis re_shape : ∀ s m rest, re s = Some (m, rest) → s = m +:+ rest ∧ shape m.

(** One pass weaves its matches into the text. *)
Lemma pass_weave (fuel : nat) (s out : string) (n n' : nat)
    (ps ps' : list (string * string)) :
  Js.replace_all_fuel fuel re (Guard.callback placeholder_of) s (n, ps) = (out, (n', ps')) →
  (∀ e k, e ∈ ps → (n ≤ k)%nat → fst e ≠ placeholder_of k) →
  ∃ new,
    ps' = (ps ++ new)%list
    ∧ n' = n + List.length new
    ∧ weave new out s
    ∧ Forall (fun e => (∃ i, fst e = placeholder_of i) ∧ shape (snd e)) new.
Proof.
  revert s out n n' ps ps'.
  induction fuel as [| fuel IH]; intros s out n n' ps ps'; simpl.
  { intros [= <- <- <-] _. exists []. rewrite app_nil_r.
    split; [done |]. split; [done |]. split; [apply weave_same | constructor]. }
  destruct s as [| c s'].
  { intros [= <- <- <-] _. exists []. rewrite app_nil_r.
    split; [done |]. split; [done |]. split; [constructor | constructor]. }
  destruct (re (String c s')) as [[m rest] |] eqn:E.
  - destruct (Js.replace_all_fuel fuel re _ rest _) as [out1 [n1 ps1]] eqn:E1.
    intros [= <- <- <-] Hfresh.
    rewrite map_set_fresh in E1.
    2: { intros e He. apply (Hfresh e n He). lia. }
    destruct (re_shape _ _ _ E) as [Hsplit Hshape]. rewrite Hsplit.
    apply IH in E1 as (new & -> & -> & Hw & Hall).
    + exists ((placeholder_of n, m) :: new). rewrite <- app_assoc. simpl.
      split; [done |]. split; [lia |]. split; [by constructor |].
      constructor; [| done]. split; [by eexists | done].
    + intros e k [He | ->%list_elem_of_singleton]%elem_of_app Hk.
      * apply (Hfresh e k He). lia.
      * simpl. intros Heq. apply placeholder_inj in Heq. lia.
  - destruct (Js.replace_all_fuel fuel re _ s' _) as [out1 [n1 ps1]] eqn:E1.
    intros [= <- <- <-] Hfresh.
    apply IH in E1 as (new & -> & -> & Hw & Hall); [| done].
    exists new. split; [done |]. split; [done |]. split; [by constructor | done].
Qed.

End PassWeave.

Lemma span_no_backtick_split (s : string) :
  s = fst (Guard.span_no_backtick s) +:+ snd (Guard.span_no_backtick s)
  ∧ match snd (Guard.span_no_backtick s) with
    | String c _ => c = Guard.backtick
    | EmptyString => True
    end.
Proof.
  induction s as [| c s [IH1 IH2]]; simpl; [done |].
  destruct (Ascii.eqb c Guard.backtick) eqn:E.
  - apply Ascii.eqb_eq in E. by simpl.
  - destruct (Guard.span_no_backtick s) as [run rest]. simpl in *.
    split; [| done]. rewrite append_cons. by f_equal.
Qed.

Lemma inline_re_split (s m rest : string) :
  Guard.inline_re s = Some (m, rest) → s = m +:+ rest ∧ inline_span m.
Proof.
  intros H. split; [| by eapply inline_re_shape].
  destruct s as [| c r]; simpl in H; [done |].
  destruct (Ascii.eqb c Guard.backtick) eqn:Ec; [| done].
  apply Ascii.eqb_eq in Ec as ->.
  destruct (span_no_backtick_split r) as [Hr Hb].
  destruct (Guard.span_no_backtick r) as [[| a code] [| b rest']]; try done.
  injection H as <- <-. simpl in *. subst b.
  by rewrite append_cons, append_assoc, Hr.
Qed.

Lemma fence_tail_split (s m rest : string) :
  Guard.fence_tail s = Some (m, rest) → s = m +:+ rest ∧ fence_chars m = true.
Proof.
  revert m rest. induction s as [| c s IH]; intros m rest.
  - simpl. done.
  - cbn [Guard.fence_tail].
    destruct (Js.strip_prefix Guard.fence (String c s)) as [r |] eqn:Ep.
    { intros [= <- <-]. apply strip_prefix_Some in Ep. by split. }
    destruct (Guard.fence_class c) eqn:Ec; [| done].
    destruct (Guard.fence_tail s) as [[m' rest'] |]; [| done].
    intros [= <- <-]. destruct (IH m' rest' eq_refl) as [-> Hm]. split; [done |].
    simpl. unfold fence_char. by rewrite Ec, orb_true_r.
Qed.

Lemma fence_chars_app_fence (m : string) :
  fence_chars m = true → fence_chars (Guard.fence +:+ m) = true.
Proof. intros H. simpl. exact H. Qed.

(** A fenced match: made of backticks and class characters, starting with a
    backtick. *)
Lemma fenced_re_split (s m rest : string) :
  Guard.fenced_re s = Some (m, rest) →
  s = m +:+ rest
  ∧ (fence_chars m = true ∧ ∃ m', m = String Guard.backtick m').
Proof.
  unfold Guard.fenced_re.
  destruct (Js.strip_prefix Guard.fence s) as [r |] eqn:Ep; [| done].
  apply strip_prefix_Some in Ep as ->.
  destruct (Guard.fence_tail r) as [[m' rest'] |] eqn:E; [| done].
  intros [= <- <-]. apply fence_tail_split in E as [-> Hm].
  split; [by rewrite append_assoc |]. split; [| by eexists].
  by apply fence_chars_app_fence.
Qed.

(** ** Two passes, one weave *)

Lemma length_append (a b : string) :
  String.length (a +:+ b) = String.length a + String.length b.
Proof. induction a as [| c a IH]; simpl; [done | by rewrite IH]. Qed.

Lemma weave_original_cons (hs : list (string * string)) (g : string) (c : ascii) (o : string) :
  weave hs g (String c o) →
  (∃ g', g = String c g' ∧ weave hs g' o)
  ∨ (∃ k v hs' g' o',
        hs = (k, v) :: hs' ∧ g = k +:+ g' ∧ String c o = v +:+ o' ∧ weave hs' g' o').
Proof.
  intros H. inversion H as [| c' hs' g' o' Hw | k v hs' g' o' Hw Ehs Eg Eo]; subst.
  - left. by exists g'.
  - right. by exists k, v, hs', g', o'.
Qed.

Lemma weave_guarded_cons (hs : list (string * string)) (c : ascii) (g o : string) :
  weave hs (String c g) o →
  (∃ o', o = String c o' ∧ weave hs g o')
  ∨ (∃ k v hs' g' o',
        hs = (k, v) :: hs' ∧ String c g = k +:+ g' ∧ o = v +:+ o' ∧ weave hs' g' o').
Proof.
  intros H. inversion H as [| c' hs' g' o' Hw | k v hs' g' o' Hw Ehs Eg Eo]; subst.
  - left. by exists o'.
  - right. by exists k, v, hs', g', o'.
Qed.

(** No value begins inside a text without the first character of the values. *)
Lemma weave_skip_original (x : ascii) (p : string) (hs : list (string * string))
    (g o : string) :
  Forall (fun e => ∃ r, snd e = String x r) hs →
  lacks x p = true →
  weave hs g (p +:+ o) →
  ∃ g', g = p +:+ g' ∧ weave hs g' o.
Proof.
  intros Hhs. revert g. induction p as [| c p IH]; intros g Hl Hw.
  - by exists g.
  - simpl in Hl. apply andb_true_iff in Hl as [Hc Hl]. apply negb_true_iff in Hc.
    rewrite append_cons in Hw.
    apply weave_original_cons in Hw
      as [(g' & -> & Hw) | (k & v & hs' & g' & o' & -> & -> & Heq & Hw)].
    + destruct (IH g' Hl Hw) as (g1 & -> & Hw1). by exists g1.
    + apply Forall_cons in Hhs as [[r Hr] _]. simpl in Hr. subst v.
      rewrite append_cons in Heq. injection Heq as -> _.
      by rewrite Ascii.eqb_refl in Hc.
Qed.

(** No key begins inside a text without the first character of the keys. *)
Lemma weave_skip_guarded (x : ascii) (p : string) (hs : list (string * string))
    (g o : string) :
  Forall (fun e => ∃ r, fst e = String x r) hs →
  lacks x p = true →
  weave hs (p +:+ g) o →
  ∃ o', o = p +:+ o' ∧ weave hs g o'.
Proof.
  intros Hhs. revert o. induction p as [| c p IH]; intros o Hl Hw.
  - by exists o.
  - simpl in Hl. apply andb_true_iff in Hl as [Hc Hl]. apply negb_true_iff in Hc.
    rewrite append_cons in Hw.
    apply weave_guarded_cons in Hw
      as [(o' & -> & Hw) | (k & v & hs' & g' & o' & -> & Heq & -> & Hw)].
    + destruct (IH o' Hl Hw) as (o1 & -> & Hw1). by exists o1.
    + apply Forall_cons in Hhs as [[r Hr] _]. simpl in Hr. subst k.
      rewrite append_cons in Heq. injection Heq as -> _.
      by rewrite Ascii.eqb_refl in Hc.
Qed.

Lemma weave_original_nil (x : ascii) (hs : list (string * string)) (g : string) :
  Forall (fun e => ∃ r, snd e = String x r) hs →
  weave hs g EmptyString → hs = [] ∧ g = EmptyString.
Proof.
  intros Hhs H. inversion H as [| | k v hs' g' o' Hw Ehs Eg Eo]; subst; [done |].
  apply Forall_cons in Hhs as [[r Hr] _]. simpl in Hr. by subst v.
Qed.

(** The matches of the second pass lie between the placeholders of the
    first: the two passes make one weave of the original text. *)
Lemma weave_combine (n : nat) (inl blk : list (string * string)) (out1 out2 body : string) :
  (String.length out1 ≤ n)%nat →
  Forall (fun e => (∃ r, fst e = String "_" r) ∧ lacks "`" (fst e) = true) inl →
  Forall (fun e => (∃ r, snd e = String "`" r) ∧ lacks "_" (snd e) = true) blk →
  weave inl out1 body → weave blk out2 out1 → weave2 inl blk out2 body.
Proof.
  revert inl blk out1 out2 body.
  induction n as [| n IH]; intros inl blk out1 out2 body Hn Hinl Hblk H1 H2.
  - destruct out1 as [| c o]; [| simpl in Hn; lia].
    apply (weave_original_nil "`") in H2 as [-> ->];
      [| by eapply Forall_impl; [exact Hblk | intros e [? _]]].
    inversion H1 as [| | k v hs' g' o' Hw Ehs Eg Eo]; subst; [constructor |].
    apply Forall_cons in Hinl as [[[r Hr] _] _]. simpl in Hr. by subst k.
  - pose proof H1 as H1'.
    inversion H1 as [| c hs o b Hw Ehs Eg Eo | k v inl' o1 b1 Hw Ehs Eg Eo]; subst.
    + apply (weave_original_nil "`") in H2 as [-> ->]; [constructor |].
      by eapply Forall_impl; [exact Hblk | intros e [? _]].
    + apply weave_original_cons in H2
        as [(g' & -> & H2) | (kb & vb & blk' & g' & o' & -> & -> & Heq & H2)].
      * constructor. apply (IH _ _ o); [simpl in Hn; lia | done | done | done | done].
      * apply Forall_cons in Hblk as [[Hvb Hlb] Hblk].
        rewrite Heq in H1'.
        apply (weave_skip_guarded "_") in H1' as (b' & -> & H1');
          [| by eapply Forall_impl; [exact Hinl | intros e [? _]] | done].
        constructor. apply (IH _ _ o'); [| done | done | done | done].
        apply (f_equal String.length) in Heq. rewrite length_append in Heq.
        destruct Hvb as [r Hr]. simpl in Hr. subst vb. simpl in *. lia.
    + apply Forall_cons in Hinl as [[Hk Hlk] Hinl].
      apply (weave_skip_original "`") in H2 as (g1 & -> & H2);
        [| by eapply Forall_impl; [exact Hblk | intros e [? _]] | done].
      constructor. apply (IH _ _ o1); [| done | done | done | done].
      rewrite length_append in Hn.
      destruct Hk as [r Hr]. simpl in Hr. subst k. simpl in *. lia.
Qed.

(** ** Where a placeholder of inline code is found *)

Lemma block_guarded_lacks (s : string) : lacks "_" s = true → block_guarded s.
Proof.
  induction s as [| c s IH]; simpl; [constructor |].
  intros [Hc Hs]%andb_true_iff. apply negb_true_iff in Hc. constructor; auto.
Qed.

Lemma block_guarded_app (a b : string) :
  block_guarded a → block_guarded b → block_guarded (a +:+ b).
Proof.
  intros Ha Hb. induction Ha as [| c s Hc _ IH | n s _ IH].
  - done.
  - rewrite append_cons. by constructor.
  - rewrite append_assoc. by constructor.
Qed.

Lemma underscore_doubled_key (i : nat) (p r : string) :
  block_guarded p →
  underscore_doubled (p +:+ Guard.inline_placeholder i +:+ r) = true.
Proof.
  intros Hp. induction Hp as [| c s Hc _ IH | n s _ IH].
  - reflexivity.
  - rewrite append_cons. simpl. by rewrite Hc.
  - rewrite append_assoc. reflexivity.
Qed.

Lemma underscore_doubled_not_head (tail Y : string) :
  underscore_doubled Y = true → Js.strip_prefix ("INLINE_C" +:+ tail) Y = None.
Proof.
  intros H. destruct (Js.strip_prefix _ Y) as [r |] eqn:E; [| done].
  apply strip_prefix_Some in E. subst Y. by vm_compute in H.
Qed.

Lemma underscore_doubled_not_single (tail Y : string) :
  underscore_doubled Y = true → Js.strip_prefix ("_INLINE_C" +:+ tail) Y = None.
Proof.
  intros H. destruct (Js.strip_prefix _ Y) as [r |] eqn:E; [| done].
  apply strip_prefix_Some in E. subst Y. by vm_compute in H.
Qed.

(** A placeholder of a code block holds no beginning of a placeholder of
    inline code, whatever follows it, as long as underscores come in pairs
    there. *)
Lemma find_first_block_key (i j : nat) (Y : string) :
  underscore_doubled Y = true →
  Js.find_first (Guard.inline_placeholder i) (Guard.block_placeholder j +:+ Y)
  = shifted (Guard.block_placeholder j) (Js.find_first (Guard.inline_placeholder i) Y).
Proof.
  intros HY.
  change (Guard.inline_placeholder i)
    with (String "_" (String "_" ("INLINE_C" +:+ ("ODE_" +:+ pretty i +:+ "__")))).
  generalize ("ODE_" +:+ pretty i +:+ "__"). intros tail.
  set (K := String "_" (String "_" ("INLINE_C" +:+ tail))).
  destruct (pretty_nat_digits j) as (d & ds & Hj & Hd & Hds).
  assert (Hd' : Ascii.eqb "_" d = false).
  { rewrite Ascii.eqb_sym. by apply is_digit_not. }
  assert (Ha : Js.find_first K ("__" +:+ Y) = shifted "__" (Js.find_first K Y)).
  { change ("__" +:+ Y) with (String "_" (String "_" Y)).
    rewrite find_first_skip.
    - rewrite find_first_skip; [by rewrite shifted_shifted |].
      apply (underscore_doubled_not_single tail Y HY).
    - apply (underscore_doubled_not_head tail Y HY). }
  assert (Hb : Js.find_first K (String d ds +:+ "__" +:+ Y)
               = shifted (String d ds +:+ "__") (Js.find_first K Y)).
  { unfold K. rewrite (find_first_lacks_prefix "_" _ (String d ds)).
    - fold K. by rewrite Ha, shifted_shifted.
    - simpl. rewrite Ascii.eqb_sym, Hd'. simpl. by apply all_digits_lacks. }
  unfold Guard.block_placeholder. rewrite Hj.
  rewrite !append_assoc.
  change ("__CODE_BLOCK_" +:+ String d ds +:+ "__" +:+ Y)
    with (String "_" (String "_" (String "C" (String "O" (String "D" (String "E"
          (String "_" (String "B" (String "L" (String "O" (String "C" (String "K"
          (String "_" (String d ds +:+ "__" +:+ Y)))))))))))))).
  do 12 (rewrite find_first_skip by reflexivity).
  rewrite find_first_skip.
  2: { rewrite append_cons. unfold K. cbn [Js.strip_prefix]. by rewrite Hd'. }
  rewrite Hb, !shifted_shifted. f_equal.
Qed.

(** Behind characters other than the underscore and placeholders of code
    blocks, the first occurrence of a placeholder of inline code is the one
    that stands there. *)
Lemma find_first_inline_key (i : nat) (head r : string) :
  block_guarded head →
  Js.find_first (Guard.inline_placeholder i) (head +:+ Guard.inline_placeholder i +:+ r)
  = Some (head, r).
Proof.
  intros Hh. induction Hh as [| c s Hc _ IH | n s Hs IH].
  - apply (find_first_here (Guard.inline_placeholder i) r).
  - rewrite append_cons, find_first_skip, IH; [done |].
    change (Guard.inline_placeholder i)
      with (String "_" ("_INLINE_CODE_" +:+ pretty i +:+ "__")).
    cbn [Js.strip_prefix]. by rewrite Ascii.eqb_sym, Hc.
  - rewrite append_assoc, find_first_block_key, IH; [| by apply underscore_doubled_key].
    done.
Qed.

(** ** Restoring *)

Lemma restore_step_at (head k v g : string) :
  Js.find_first k (head +:+ k +:+ g) = Some (head, g) →
  lacks "$" v = true →
  restore_step (head +:+ k +:+ g) (k, v) = head +:+ v +:+ g.
Proof.
  intros Hf Hv. unfold restore_step, Js.replace_string. rewrite Hf.
  by rewrite get_substitution_plain.
Qed.

(** Restoring the inline spans, with the placeholders of the code blocks
    still in the text. *)
Lemma restore_inline (inl blk : list (string * string)) (g o : string) :
  weave2 inl blk g o →
  Forall (fun e => ∃ i, fst e = Guard.inline_placeholder i) inl →
  Forall (fun e => ∃ j, fst e = Guard.block_placeholder j) blk →
  lacks "_" o = true → lacks "$" o = true →
  ∃ t, weave blk t o
       ∧ ∀ head, block_guarded head →
           fold_left restore_step inl (head +:+ g) = head +:+ t.
Proof.
  intros H.
  induction H as [| c inl blk g o _ IH | k v inl blk g o _ IH | k v inl blk g o _ IH];
    intros Hinl Hblk Hu Hd.
  - exists EmptyString. split; [constructor | done].
  - simpl in Hu, Hd.
    apply andb_true_iff in Hu as [Hc Hu]. apply andb_true_iff in Hd as [_ Hd].
    apply negb_true_iff in Hc.
    destruct (IH Hinl Hblk Hu Hd) as (t & Hw & Hfold).
    exists (String c t). split; [by constructor |].
    intros head Hh.
    change (String c g) with (String c EmptyString +:+ g).
    change (String c t) with (String c EmptyString +:+ t).
    rewrite <- !append_assoc. apply Hfold.
    apply block_guarded_app; [done |]. constructor; [done | constructor].
  - rewrite lacks_app in Hu, Hd.
    apply andb_true_iff in Hu as [Hvu Hu]. apply andb_true_iff in Hd as [Hvd Hd].
    apply Forall_cons in Hinl as [[i Hi] Hinl]. simpl in Hi. subst k.
    destruct (IH Hinl Hblk Hu Hd) as (t & Hw & Hfold).
    exists (v +:+ t). split.
    { apply (weave_app [] blk v v); [apply weave_same | done]. }
    intros head Hh. cbn [fold_left].
    rewrite restore_step_at; [| by apply find_first_inline_key | done].
    rewrite <- !append_assoc. apply Hfold.
    apply block_guarded_app; [done | by apply block_guarded_lacks].
  - rewrite lacks_app in Hu, Hd.
    apply andb_true_iff in Hu as [Hvu Hu]. apply andb_true_iff in Hd as [Hvd Hd].
    apply Forall_cons in Hblk as [[j Hj] Hblk]. simpl in Hj. subst k.
    destruct (IH Hinl Hblk Hu Hd) as (t & Hw & Hfold).
    exists (Guard.block_placeholder j +:+ t). split; [by constructor |].
    intros head Hh. rewrite <- !append_assoc. apply Hfold.
    apply block_guarded_app; [done |].
    rewrite <- (append_nil_r (Guard.block_placeholder j)).
    apply block_guarded_key, block_guarded_nil.
Qed.

(** Restoring the code blocks in a text without underscores of its own. *)
Lemma restore_blocks (hs : list (string * string)) (g o : string) :
  weave hs g o →
  Forall (fun e => ∃ r, fst e = String "_" r) hs →
  lacks "_" o = true → lacks "$" o = true →
  ∀ head, lacks "_" head = true →
    fold_left restore_step hs (head +:+ g) = head +:+ o.
Proof.
  intros H.
  induction H as [| c hs g o _ IH | k v hs g o _ IH]; intros Hhs Hu Hd head Hh.
  - done.
  - simpl in Hu, Hd.
    apply andb_true_iff in Hu as [Hc Hu]. apply andb_true_iff in Hd as [_ Hd].
    change (String c g) with (String c EmptyString +:+ g).
    change (String c o) with (String c EmptyString +:+ o).
    rewrite <- !append_assoc. apply IH; [done | done | done |].
    rewrite lacks_app, Hh. simpl. by rewrite Hc.
  - rewrite lacks_app in Hu, Hd.
    apply andb_true_iff in Hu as [Hvu Hu]. apply andb_true_iff in Hd as [Hvd Hd].
    apply Forall_cons in Hhs as [[r Hr] Hhs]. simpl in Hr. subst k.
    cbn [fold_left].
    rewrite restore_step_at; [| by apply find_first_after | done].
    rewrite <- !append_assoc. apply IH; [done | done | done |].
    by rewrite lacks_app, Hh, Hvu.
Qed.

Lemma fence_chars_lacks (m : string) : fence_chars m = true → lacks "_" m = true.
Proof.
  induction m as [| c m IH]; simpl; [done |].
  intros [Hc Hm]%andb_true_iff. rewrite (IH Hm), andb_true_r. apply negb_true_iff.
  destruct (Ascii.eqb c "_") eqn:E; [| done].
  apply Ascii.eqb_eq in E. subst c. by vm_compute in Hc.
Qed.

Lemma inline_placeholder_plain (i : nat) :
  (∃ r, Guard.inline_placeholder i = String "_" r)
  ∧ lacks "`" (Guard.inline_placeholder i) = true.
Proof.
  split; [by eexists |].
  unfold Guard.inline_placeholder. rewrite !lacks_app.
  destruct (pretty_nat_digits i) as (d & ds & -> & Hd & Hds).
  rewrite (all_digits_lacks "`" (String d ds)); [done | done |].
  simpl. by rewrite Hd, Hds.
Qed.

(** X17: a body without an underscore and without a dollar sign comes back
    unchanged when the placeholders that [protectCodeBlocks] returns are
    restored by [restoreCodeBlocks] in the text it returns. *)
Theorem restoreCodeBlocks_protectCodeBlocks (body : string) :
  lacks "_" body = true →
  lacks "$" body = true →
  Guard.restoreCodeBlocks (fst (Guard.protectCodeBlocks body))
    (snd (Guard.protectCodeBlocks body)) = body.
Proof.
  intros Hu Hd. unfold Guard.protectCodeBlocks.
  destruct (Js.replace_all Guard.inline_re _ body _) as [out1 [n1 ps1]] eqn:E1.
  destruct (Js.replace_all Guard.fenced_re _ out1 _) as [out2 [n2 ps2]] eqn:E2.
  unfold Js.replace_all, Guard.inline_callback, Guard.block_callback in *.
  apply (pass_weave _ inline_placeholder_inj _ _ inline_re_split) in E1
    as (inl & -> & -> & W1 & F1); [| intros e k He; by apply elem_of_nil in He].
  cbn [Nat.add app] in *.
  apply (pass_weave _ block_placeholder_inj _ _ fenced_re_split) in E2
    as (blk & -> & -> & W2 & F2).
  2: { intros e k He _. rewrite Forall_forall in F1.
       destruct (F1 e He) as [[i ->] _]. apply inline_not_block. }
  cbn [fst snd].
  assert (W : weave2 inl blk out2 body).
  { apply (weave_combine (String.length out1) inl blk out1); [done | | | done | done].
    - eapply Forall_impl; [exact F1 |]. intros e [[i ->] _]. apply inline_placeholder_plain.
    - eapply Forall_impl; [exact F2 |]. intros e [_ [Hf [m' Hm]]].
      split; [by eexists | by apply fence_chars_lacks]. }
  apply restore_inline in W as (t & Wt & Hfold); [| | | done | done].
  2: { eapply Forall_impl; [exact F1 |]. by intros e [? _]. }
  2: { eapply Forall_impl; [exact F2 |]. by intros e [? _]. }
  change (Guard.restoreCodeBlocks out2 (inl ++ blk)%list)
    with (fold_left restore_step (inl ++ blk)%list out2).
  rewrite fold_left_app.
  pose proof (Hfold EmptyString block_guarded_nil) as Hinline.
  change (EmptyString +:+ out2) with out2 in Hinline.
  change (EmptyString +:+ t) with t in Hinline. rewrite Hinline.
  apply (restore_blocks blk t body Wt) with (head := EmptyString); [| done | done | done].
  eapply Forall_impl; [exact F2 |]. intros e [[j ->] _]. by eexists.
Qed.

Lemma restoreCodeBlocks_protectCodeBlocks_witness :
  lacks "_" "see `x` and ``````" = true
  ∧ lacks "$" "see `x` and ``````" = true
  ∧ Guard.restoreCodeBlocks (fst (Guard.protectCodeBlocks "see `x` and ``````"))
      (snd (Guard.protectCodeBlocks "see `x` and ``````")) = "see `x` and ``````".
Proof.
  split; [reflexivity |]. split; [reflexivity |].
  apply (restoreCodeBlocks_protectCodeBlocks "see `x` and ``````"); reflexivity.
Defined.

(** * Searching the vault *)

Lemma quiet_ret {A} (P : event → Prop) (a : A) : returns_quietly P (ret a).
Proof. intros w. exists a, w. split; [done |]. split; [done | apply emits_refl]. Qed.

Lemma quiet_bind {A B} (P : event → Prop) (m : M A) (k : A → M B) :
  returns_quietly P m → (∀ a, returns_quietly P (k a)) → returns_quietly P (bind m k).
Proof.
  intros Hm Hk w. destruct (Hm w) as (a & w1 & E1 & N1 & T1).
  destruct (Hk a w1) as (b & w2 & E2 & N2 & T2).
  exists b, w2. unfold bind. rewrite E1, E2. split; [done |].
  split; [congruence | by eapply emits_trans].
Qed.

Lemma quiet_weaken {A} (P Q : event → Prop) (m : M A) :
  (∀ e, P e → Q e) → returns_quietly P m → returns_quietly Q m.
Proof.
  intros HPQ Hm w. destruct (Hm w) as (a & w1 & E1 & N1 & T1).
  exists a, w1. split; [done |]. split; [done | by eapply emits_weaken].
Qed.

Section Walk.

Variable X : externals.
Variable this : FileSystemHelper.
Variable toLowerCase : string → string.

Lemma quiet_visit (recurse : string → M (option (list string))) (directory : string)
    (item : string * bool) (files : list string) :
  (∀ d, returns_quietly listing (recurse d)) →
  returns_quietly listing (visit X recurse directory item files).
Proof.
  intros Hrec. unfold visit.
  destruct (negb (snd item) && negb (startsWith "." (fst item)))%bool.
  - apply quiet_bind; [apply Hrec | intros a; apply quiet_ret].
  - destruct (snd item && endsWith ".md" (fst item))%bool; apply quiet_ret.
Qed.

Lemma quiet_walk (recurse : string → M (option (list string))) (directory : string)
    (items : list (string * bool)) (files : list string) :
  (∀ d, returns_quietly listing (recurse d)) →
  returns_quietly listing (walk X recurse directory items files).
Proof.
  intros Hrec. revert files. induction items as [| item items IH]; intros files w.
  - apply quiet_ret.
  - cbn [walk].
    destruct (quiet_visit recurse directory item files Hrec w) as (r & w1 & E1 & N1 & T1).
    rewrite E1. destruct r as [files' |].
    + destruct (IH files' w1) as (r2 & w2 & E2 & N2 & T2).
      exists r2, w2. split; [done |]. split; [congruence | by eapply emits_trans].
    + by exists None, w1.
Qed.

(** The walk never throws, changes nothing and only lists directories. *)
Lemma quiet_getAllMarkdownFiles (depth : nat) (directory : string) :
  returns_quietly listing (getAllMarkdownFiles X depth directory).
Proof.
  revert directory. induction depth as [| depth IH]; intros directory w.
  - apply quiet_ret.
  - cbn [getAllMarkdownFiles]. unfold Runtime.fs_readdir.
    assert (Hlog : emits listing w (log (FsReaddir directory) w)) by by apply emits_log.
    destruct (nodes w !! directory) as [[c mt |] |].
    + by exists (Some []), (log (FsReaddir directory) w).
    + destruct (quiet_walk (getAllMarkdownFiles X depth) directory
                  (omap (Runtime.child_of directory) (map_to_list (nodes w))) [] IH
                  (log (FsReaddir directory) w)) as (r & w1 & E1 & N1 & T1).
      exists r, w1. split; [done |]. split; [done | by eapply emits_trans].
    + by exists (Some []), (log (FsReaddir directory) w).
Qed.

Lemma quiet_search_loop (searchTerm : string) (files results : list string) :
  returns_quietly reading (search_loop this toLowerCase searchTerm files results).
Proof.
  revert results. induction files as [| file files IH]; intros results.
  - apply quiet_ret.
  - cbn [search_loop]. apply quiet_bind; [| intros a; apply IH].
    intros w. unfold try_catch, bind, Runtime.fs_readFile.
    assert (Hlog : emits reading w (log (FsReadFile file) w)) by by apply emits_log.
    destruct (nodes w !! file) as [[c mt |] |]; cbn.
    + destruct (Js.includes _ _); by eexists _, _.
    + by eexists _, _.
    + by eexists _, _.
Qed.

Lemma quiet_searchFiles (depth : nat) (searchTerm directory : string) :
  returns_quietly reading (searchFiles X this toLowerCase depth searchTerm directory).
Proof.
  intros w. unfold searchFiles, try_catch.
  match goal with |- context [bind ?m ?k w] =>
    assert (Hq : returns_quietly reading (bind m k)) end.
  { apply quiet_bind.
    - apply (quiet_weaken listing); [by intros [] | apply quiet_getAllMarkdownFiles].
    - intros [files |]; [| apply quiet_ret].
      apply quiet_bind; [apply quiet_search_loop | intros a; apply quiet_ret]. }
  destruct (Hq w) as (r & w1 & E1 & N1 & T1). rewrite E1. by exists r, w1.
Qed.

(** What [readdir] lists in a directory: the entries of the store one level
    below it. *)
Lemma elem_of_entries (ns : gmap string node) (d name : string) (isFile : bool) :
  (name, isFile) ∈ entries ns d
  ↔ ∃ n, ns !! (d +:+ "/" +:+ name) = Some n
         ∧ isFile = match n with File _ _ => true | Dir => false end
         ∧ name ≠ EmptyString ∧ Js.includes "/" name = false.
Proof.
  unfold entries. rewrite list_elem_of_omap. split.
  - intros ([k n] & Hin & Hc). apply elem_of_map_to_list in Hin.
    unfold Runtime.child_of in Hc. cbn [fst snd] in Hc.
    destruct (Js.strip_prefix (d +:+ "/") k) as [name' |] eqn:E; [| done].
    apply strip_prefix_Some in E. rewrite append_assoc in E. subst k.
    destruct (Js.truthy name') eqn:Et; [| done].
    destruct (Js.includes "/" name') eqn:Ei; [done |].
    cbn in Hc. injection Hc as -> <-.
    exists n. split; [done |]. split; [done |]. split; [| done]. by destruct name.
  - intros (n & Hn & -> & Hne & Hi).
    exists (d +:+ "/" +:+ name, n). split; [by apply elem_of_map_to_list |].
    unfold Runtime.child_of. cbn [fst snd].
    rewrite <- append_assoc, strip_prefix_app, Hi.
    by destruct name.
Qed.

Section Sound.

Variable ns : gmap string node.
Variable recurse : string → M (option (list string)).
Variable directory : string.

Hypothesis recurse_quiet : ∀ d, returns_quietly listing (recurse d).
Hypothesis directory_listed : ns !! directory = Some Dir.

Lemma visit_sound (item : string * bool) (acc files : list string) (w w' : world) :
  (∀ d w0 sub w1, nodes w0 = ns → recurse d w0 = (inr (Some sub), w1) →
     Forall (markdown_file_of X ns) sub) →
  nodes w = ns →
  item ∈ entries ns directory →
  Forall (markdown_file_of X ns) acc →
  visit X recurse directory item acc w = (inr (Some files), w') →
  Forall (markdown_file_of X ns) files.
Proof.
  intros Hrec Hw Hitem Hacc. unfold visit. destruct item as [name isFile]. cbn [fst snd].
  destruct (negb isFile && negb (startsWith "." name))%bool.
  - unfold bind. destruct (recurse_quiet (join X directory name) w) as (r & w1 & E & _ & _).
    rewrite E. destruct r as [sub |]; [| done].
    intros [= <- <-]. apply Forall_app. split; [done |]. by eapply Hrec.
  - destruct (isFile && endsWith ".md" name)%bool eqn:Emd.
    + intros [= <- <-]. apply Forall_app. split; [done |]. constructor; [| constructor].
      apply andb_true_iff in Emd as [-> Hmd].
      apply elem_of_entries in Hitem as (n & Hn & Hf & _ & _).
      destruct n as [content mtime |]; [| done].
      by exists directory, name, content, mtime.
    + by intros [= <- <-].
Qed.

Lemma walk_sound (items : list (string * bool)) (acc files : list string) (w w' : world) :
  (∀ d w0 sub w1, nodes w0 = ns → recurse d w0 = (inr (Some sub), w1) →
     Forall (markdown_file_of X ns) sub) →
  nodes w = ns →
  (∀ item, item ∈ items → item ∈ entries ns directory) →
  Forall (markdown_file_of X ns) acc →
  walk X recurse directory items acc w = (inr (Some files), w') →
  Forall (markdown_file_of X ns) files.
Proof.
  intros Hrec. revert acc w. induction items as [| item items IH]; intros acc w Hw Hitems Hacc.
  - by intros [= <- <-].
  - cbn [walk].
    destruct (quiet_visit recurse directory item acc recurse_quiet w) as (r & w1 & E & N & _).
    rewrite E. destruct r as [acc' |]; [| done].
    apply IH; [congruence | | ].
    + intros i Hi. apply Hitems. by right.
    + eapply visit_sound; [done | exact Hw | | exact Hacc | exact E].
      apply Hitems. by left.
Qed.

(** The files pushed stay, and a file of the directory whose name ends in
    [.md] is pushed. *)
Lemma walk_complete (items : list (string * bool)) (acc files : list string) (w w' : world) :
  walk X recurse directory items acc w = (inr (Some files), w') →
  (∀ p, p ∈ acc → p ∈ files)
  ∧ (∀ name, (name, true) ∈ items → endsWith ".md" name = true →
       join X directory name ∈ files).
Proof.
  revert acc w. induction items as [| item items IH]; intros acc w.
  - intros [= <- <-]. split; [done |]. intros name Hin. by apply elem_of_nil in Hin.
  - cbn [walk].
    destruct (quiet_visit recurse directory item acc recurse_quiet w) as (r & w1 & E & _ & _).
    rewrite E. destruct r as [acc' |]; [| done].
    intros Hwalk. destruct (IH acc' w1 Hwalk) as [Hacc' Hrest].
    assert (Hstep : (∀ p, p ∈ acc → p ∈ acc')
                    ∧ (∀ name, item = (name, true) → endsWith ".md" name = true →
                         join X directory name ∈ acc')).
    { clear Hwalk IH Hacc' Hrest. unfold visit in E. destruct item as [name isFile].
      cbn [fst snd] in E.
      destruct (negb isFile && negb (startsWith "." name))%bool eqn:Ed.
      - unfold bind in E.
        destruct (recurse_quiet (join X directory name) w) as (r & w2 & E2 & _ & _).
        rewrite E2 in E. destruct r as [sub |]; [| done]. injection E as <- <-.
        split; [intros p Hp; apply elem_of_app; by left |].
        intros name' [= -> ->]. by simpl in Ed.
      - destruct (isFile && endsWith ".md" name)%bool eqn:Emd.
        + injection E as <- <-.
          split; [intros p Hp; apply elem_of_app; by left |].
          intros name' [= -> _] _. apply elem_of_app. right. by left.
        + injection E as <- <-. split; [done |].
          intros name' [= -> ->] Hmd. by rewrite Hmd in Emd. }
    destruct Hstep as [Hmono Hitem]. split.
    + intros p Hp. by apply Hacc', Hmono.
    + intros name [Heq | Hin]%elem_of_cons Hmd; [| by apply Hrest].
      by apply Hacc', Hitem.
Qed.

End Sound.

Section Enough.

Variable ns : gmap string node.
Variable recurse : string → M (option (list string)).
Variable directory : string.

Hypothesis recurse_quiet : ∀ d, returns_quietly listing (recurse d).
Hypothesis recurse_returns : ∀ name w0,
  (name, false) ∈ entries ns directory → nodes w0 = ns →
  ∃ sub w1, recurse (join X directory name) w0 = (inr (Some sub), w1).

Lemma walk_enough (items : list (string * bool)) (acc : list string) (w : world) :
  nodes w = ns →
  (∀ item, item ∈ items → item ∈ entries ns directory) →
  ∃ files w', walk X recurse directory items acc w = (inr (Some files), w').
Proof.
  revert acc w. induction items as [| item items IH]; intros acc w Hw Hitems.
  - by eexists _, _.
  - cbn [walk].
    destruct (quiet_visit recurse directory item acc recurse_quiet w) as (r & w1 & E & N & _).
    rewrite E.
    assert (Hr : ∃ acc', r = Some acc').
    { unfold visit in E. destruct item as [name isFile]. cbn [fst snd] in E.
      destruct (negb isFile && negb (startsWith "." name))%bool eqn:Ed.
      - apply andb_true_iff in Ed as [Hf _]. apply negb_true_iff in Hf. subst isFile.
        destruct (recurse_returns name w) as (sub & w2 & E2); [| done |].
        { apply Hitems. by left. }
        unfold bind in E. rewrite E2 in E. injection E as <- _. by eexists.
      - destruct (isFile && endsWith ".md" name)%bool; injection E as <- _; by eexists. }
    destruct Hr as [acc' ->]. apply IH; [congruence |].
    intros i Hi. apply Hitems. by right.
Qed.

End Enough.

Lemma longest_path_bound (ns : gmap string node) (p : string) (n : node) :
  ns !! p = Some n → (String.length p ≤ longest_path ns)%nat.
Proof.
  intros H. apply elem_of_map_to_list in H. unfold longest_path.
  induction (map_to_list ns) as [| e l IH]; [by apply elem_of_nil in H |].
  apply elem_of_cons in H as [<- | H]; simpl; [lia |]. specialize (IH H). lia.
Qed.

Lemma joins_extend_child (ns : gmap string node) (d name : string) :
  joins_extend X ns = true → ns !! d = Some Dir → (name, false) ∈ entries ns d →
  join X d name = d +:+ "/" +:+ name.
Proof.
  unfold joins_extend. rewrite forallb_forall. intros H Hd Hin.
  apply elem_of_map_to_list, list_elem_of_In in Hd. specialize (H _ Hd). cbn in H.
  rewrite forallb_forall in H. apply list_elem_of_In in Hin. specialize (H _ Hin).
  cbn in H. by apply String.eqb_eq in H.
Qed.

(** The depth the walk needs: the paths of the store are finite, and each
    level of the recursion is on a longer path. *)
Lemma getAllMarkdownFiles_enough (ns : gmap string node) :
  joins_extend X ns = true →
  ∀ depth d w, nodes w = ns → (1 ≤ depth)%nat →
    (longest_path ns + 2 ≤ depth + String.length d)%nat →
    ∃ files w', getAllMarkdownFiles X depth d w = (inr (Some files), w').
Proof.
  intros HJ. induction depth as [| depth IH]; intros d w Hw H1 HL; [lia |].
  cbn [getAllMarkdownFiles]. unfold Runtime.fs_readdir. rewrite Hw.
  destruct (ns !! d) as [[c mt |] |] eqn:Ed; [by eexists _, _ | | by eexists _, _].
  pose proof (longest_path_bound ns d Dir Ed) as Hd.
  apply (walk_enough ns (getAllMarkdownFiles X depth) d (quiet_getAllMarkdownFiles depth));
    [| done | done].
  intros name w0 Hin Hw0. rewrite (joins_extend_child ns d name HJ Ed Hin).
  apply IH; [done | lia |]. rewrite !length_append. simpl. lia.
Qed.

Lemma getAllMarkdownFiles_sound (depth : nat) (directory : string) (w w' : world)
    (files : list string) :
  getAllMarkdownFiles X depth directory w = (inr (Some files), w') →
  Forall (markdown_file_of X (nodes w)) files.
Proof.
  revert directory w w' files. induction depth as [| depth IH]; intros directory w w' files.
  - done.
  - cbn [getAllMarkdownFiles]. unfold Runtime.fs_readdir.
    destruct (nodes w !! directory) as [[c mt |] |] eqn:Ed.
    + intros [= <- <-]. constructor.
    + apply (walk_sound (nodes w) (getAllMarkdownFiles X depth) directory
               (quiet_getAllMarkdownFiles depth) Ed); [| done | done | constructor].
      intros d w0 sub w1 Hw0 Hrun. rewrite <- Hw0. by eapply IH.
    + intros [= <- <-]. constructor.
Qed.

Lemma search_loop_cons (searchTerm file : string) (files acc : list string) (w : world) :
  search_loop this toLowerCase searchTerm (file :: files) acc w
  = search_loop this toLowerCase searchTerm files
      (match nodes w !! file with
       | Some (File content _) =>
           if Js.includes (toLowerCase searchTerm) (toLowerCase content)
           then (acc ++ [relative_path this file])%list else acc
       | _ => acc
       end)
      (log (FsReadFile file) w).
Proof.
  cbn [search_loop]. unfold bind at 1. unfold try_catch, bind at 1, Runtime.fs_readFile.
  destruct (nodes w !! file) as [[c mt |] |]; [| done | done].
  by destruct (Js.includes _ _).
Qed.

(** What the loop of [searchFiles] pushes: the relative paths of the files
    it could read and whose text holds the term. *)
Lemma search_loop_results (ns : gmap string node) (searchTerm : string)
    (files acc results : list string) (w w' : world) :
  nodes w = ns →
  search_loop this toLowerCase searchTerm files acc w = (inr results, w') →
  ∀ x, x ∈ results
       ↔ x ∈ acc
         ∨ ∃ file content mtime,
             file ∈ files ∧ ns !! file = Some (File content mtime)
             ∧ Js.includes (toLowerCase searchTerm) (toLowerCase content) = true
             ∧ x = relative_path this file.
Proof.
  revert acc w. induction files as [| file files IH]; intros acc w Hw.
  - intros [= <- <-] x. split; [by left |]. intros [? | (f & c & m & Hin & _)]; [done |].
    by apply elem_of_nil in Hin.
  - rewrite search_loop_cons, Hw. destruct (ns !! file) as [[c mt |] |] eqn:Ef.
    + destruct (Js.includes (toLowerCase searchTerm) (toLowerCase c)) eqn:Ei.
      * intros Hrun x. rewrite (IH _ (log (FsReadFile file) w) Hw Hrun x), elem_of_app, list_elem_of_singleton.
        split.
        -- intros [[Hx | ->] | (f & c' & m & Hin & Hf & Hi & ->)].
           ++ by left.
           ++ right. exists file, c, mt. split; [by left | done].
           ++ right. exists f, c', m. split; [by right | done].
        -- intros [Hx | (f & c' & m & [-> | Hin]%elem_of_cons & Hf & Hi & ->)].
           ++ left. by left.
           ++ left. by right.
           ++ right. by exists f, c', m.
      * intros Hrun x. rewrite (IH _ (log (FsReadFile file) w) Hw Hrun x). split.
        -- intros [Hx | (f & c' & m & Hin & Hf & Hi & ->)]; [by left |].
           right. exists f, c', m. split; [by right | done].
        -- intros [Hx | (f & c' & m & [-> | Hin]%elem_of_cons & Hf & Hi & ->)]; [by left | |].
           ++ rewrite Ef in Hf. injection Hf as <- _. congruence.
           ++ right. by exists f, c', m.
    + intros Hrun x. rewrite (IH _ (log (FsReadFile file) w) Hw Hrun x). split.
      * intros [Hx | (f & c' & m & Hin & Hf & Hi & ->)]; [by left |].
        right. exists f, c', m. split; [by right | done].
      * intros [Hx | (f & c' & m & [-> | Hin]%elem_of_cons & Hf & Hi & ->)]; [by left | |].
        -- congruence.
        -- right. by exists f, c', m.
    + intros Hrun x. rewrite (IH _ (log (FsReadFile file) w) Hw Hrun x). split.
      * intros [Hx | (f & c' & m & Hin & Hf & Hi & ->)]; [by left |].
        right. exists f, c', m. split; [by right | done].
      * intros [Hx | (f & c' & m & [-> | Hin]%elem_of_cons & Hf & Hi & ->)]; [by left | |].
        -- congruence.
        -- right. by exists f, c', m.
Qed.

(** A run of [searchFiles] with a result: the walk, then the loop. *)
Lemma searchFiles_run (depth : nat) (searchTerm directory : string) (w w' : world)
    (results : list string) :
  searchFiles X this toLowerCase depth searchTerm directory w = (inr (Some results), w') →
  ∃ files w1,
    getAllMarkdownFiles X depth (getAbsolutePath X this directory) w = (inr (Some files), w1)
    ∧ nodes w1 = nodes w
    ∧ search_loop this toLowerCase searchTerm files [] w1 = (inr results, w').
Proof.
  unfold searchFiles, try_catch. unfold bind at 1.
  destruct (quiet_getAllMarkdownFiles depth (getAbsolutePath X this directory) w)
    as (r & w1 & E1 & N1 & _).
  rewrite E1. destruct r as [files |]; [| done].
  unfold bind.
  destruct (quiet_search_loop searchTerm files [] w1) as (res & w2 & E2 & _ & _).
  rewrite E2. intros [= <- <-]. by exists files, w1.
Qed.

End Walk.

(** X18: the walk of [getAllMarkdownFiles] ends and returns a list. In a
    store where [join] makes the path of a subdirectory by putting a slash
    between the directory and the name, the recursion is never deeper than
    the longest path of the store is long; it throws nothing, whatever the
    directory is, changes nothing in the store, and its only calls are
    listings of directories. *)
Theorem getAllMarkdownFiles_returns (X : externals) (depth : nat) (directory : string)
    (w : world) :
  joins_extend X (nodes w) = true →
  (longest_path (nodes w) + 2 ≤ depth)%nat →
  ∃ files w',
    getAllMarkdownFiles X depth directory w = (inr (Some files), w')
    ∧ nodes w' = nodes w
    ∧ emits listing w w'.
Proof.
  intros HJ Hd.
  destruct (getAllMarkdownFiles_enough X (nodes w) HJ depth directory w) as (files & w' & E);
    [done | lia | lia |].
  destruct (quiet_getAllMarkdownFiles X depth directory w) as (r & w1 & E1 & N1 & T1).
  rewrite E in E1. injection E1 as <- <-. by exists files, w'.
Qed.

Lemma getAllMarkdownFiles_returns_witness :
  ∃ files w',
    getAllMarkdownFiles node_externals 24 "/vault" Example5.library = (inr (Some files), w')
    ∧ nodes w' = nodes Example5.library
    ∧ emits listing Example5.library w'.
Proof.
  apply (getAllMarkdownFiles_returns node_externals 24 "/vault" Example5.library).
  - vm_compute. reflexivity.
  - apply Nat.leb_le. vm_compute. reflexivity.
Defined.

(** X19: what [getAllMarkdownFiles] returns. Every path of the list is the
    one [join] makes for a file of the store whose name ends in [.md], in a
    directory of the store; and every such file directly in the directory
    asked for is in the list. *)
Theorem getAllMarkdownFiles_lists_markdown (X : externals) (depth : nat)
    (directory : string) (w w' : world) (files : list string) :
  getAllMarkdownFiles X depth directory w = (inr (Some files), w') →
  Forall (markdown_file_of X (nodes w)) files
  ∧ ∀ name content mtime,
      nodes w !! directory = Some Dir →
      nodes w !! (directory +:+ "/" +:+ name) = Some (File content mtime) →
      name ≠ EmptyString → Js.includes "/" name = false →
      endsWith ".md" name = true →
      join X directory name ∈ files.
Proof.
  intros Hrun. split; [by eapply getAllMarkdownFiles_sound |].
  intros name content mtime Hd Hf Hne Hslash Hmd.
  destruct depth as [| depth]; [done |].
  cbn [getAllMarkdownFiles] in Hrun. unfold Runtime.fs_readdir in Hrun. rewrite Hd in Hrun.
  apply (walk_complete X (getAllMarkdownFiles X depth) directory
           (quiet_getAllMarkdownFiles X depth)) in Hrun as [_ Hall].
  apply Hall; [| done]. apply elem_of_entries. by exists (File content mtime).
Qed.

Lemma getAllMarkdownFiles_lists_markdown_witness :
  Forall (markdown_file_of node_externals (nodes Example5.library))
    ["/vault/notes/a.md"; "/vault/notes/b.md"; "/vault/notes/deep/d.md"]
  ∧ ∀ name content mtime,
      nodes Example5.library !! "/vault/notes" = Some Dir →
      nodes Example5.library !! ("/vault/notes" +:+ "/" +:+ name) = Some (File content mtime) →
      name ≠ EmptyString → Js.includes "/" name = false →
      endsWith ".md" name = true →
      join node_externals "/vault/notes" name
      ∈ ["/vault/notes/a.md"; "/vault/notes/b.md"; "/vault/notes/deep/d.md"].
Proof.
  apply (getAllMarkdownFiles_lists_markdown node_externals 3 "/vault/notes" Example5.library
           (snd (getAllMarkdownFiles node_externals 3 "/vault/notes" Example5.library))).
  apply run_inr. vm_compute. reflexivity.
Defined.

(** X20: [searchFiles] returns a list and never fails with [Search failed]:
    in a store where [join] extends the paths of the directories, whatever
    the term and the directory are, it throws nothing, changes nothing in
    the store, and its only calls are listings of directories and readings
    of files. *)
Theorem searchFiles_reads_only (X : externals) (this : FileSystemHelper)
    (toLowerCase : string → string) (depth : nat) (searchTerm directory : string)
    (w : world) :
  joins_extend X (nodes w) = true →
  (longest_path (nodes w) + 2 ≤ depth)%nat →
  ∃ results w',
    searchFiles X this toLowerCase depth searchTerm directory w = (inr (Some results), w')
    ∧ nodes w' = nodes w
    ∧ emits reading w w'.
Proof.
  intros HJ Hd.
  destruct (quiet_searchFiles X this toLowerCase depth searchTerm directory w)
    as (r & w' & E & N & T).
  destruct (getAllMarkdownFiles_enough X (nodes w) HJ depth
              (getAbsolutePath X this directory) w) as (files & w1 & E1); [done | lia | lia |].
  destruct (quiet_search_loop this toLowerCase searchTerm files [] w1)
    as (res & w2 & E2 & _ & _).
  assert (Hr : r = Some res).
  { unfold searchFiles, try_catch in E. unfold bind at 1 in E. rewrite E1 in E.
    unfold bind in E. rewrite E2 in E. by injection E as <- _. }
  subst r. by exists res, w'.
Qed.

Lemma searchFiles_reads_only_witness :
  ∃ results w',
    searchFiles node_externals Example.store Example5.ascii_lower 24 "tea" "notes"
      Example5.library = (inr (Some results), w')
    ∧ nodes w' = nodes Example5.library
    ∧ emits reading Example5.library w'.
Proof.
  apply (searchFiles_reads_only node_externals Example.store Example5.ascii_lower 24
           "tea" "notes" Example5.library).
  - vm_compute. reflexivity.
  - apply Nat.leb_le. vm_compute. reflexivity.
Defined.

(** X21: the results of [searchFiles]. Each one is the relative path of a
    file that the walk listed and that could be read, whose text in lower
    case holds the term in lower case; and a file directly in the directory
    asked for whose name ends in [.md] and whose text holds the term is
    among the results. *)
Theorem searchFiles_results (X : externals) (this : FileSystemHelper)
    (toLowerCase : string → string) (depth : nat) (searchTerm directory : string)
    (w w' : world) (results : list string) :
  searchFiles X this toLowerCase depth searchTerm directory w = (inr (Some results), w') →
  (∀ x, x ∈ results →
     ∃ file content mtime,
       markdown_file_of X (nodes w) file
       ∧ nodes w !! file = Some (File content mtime)
       ∧ Js.includes (toLowerCase searchTerm) (toLowerCase content) = true
       ∧ x = relative_path this file)
  ∧ ∀ name content mtime,
      let dirPath := getAbsolutePath X this directory in
      nodes w !! dirPath = Some Dir →
      join X dirPath name = dirPath +:+ "/" +:+ name →
      nodes w !! (dirPath +:+ "/" +:+ name) = Some (File content mtime) →
      name ≠ EmptyString → Js.includes "/" name = false →
      endsWith ".md" name = true →
      Js.includes (toLowerCase searchTerm) (toLowerCase content) = true →
      relative_path this (dirPath +:+ "/" +:+ name) ∈ results.
Proof.
  intros Hrun. apply searchFiles_run in Hrun as (files & w1 & Hwalk & N1 & Hloop).
  pose proof (search_loop_results this toLowerCase (nodes w) searchTerm files [] results
                w1 w' N1 Hloop) as Hres.
  destruct (getAllMarkdownFiles_lists_markdown X depth _ w w1 files Hwalk) as [Hsound Hdirect].
  split.
  - intros x Hx. apply Hres in Hx as [Hx | (file & content & mtime & Hin & Hf & Hi & ->)];
      [by apply elem_of_nil in Hx |].
    exists file, content, mtime. split; [| done].
    rewrite Forall_forall in Hsound. by apply Hsound.
  - intros name content mtime dirPath Hd Hjoin Hf Hne Hslash Hmd Hi.
    apply Hres. right. exists (dirPath +:+ "/" +:+ name), content, mtime.
    split; [| done]. rewrite <- Hjoin. by eapply Hdirect.
Qed.

Lemma searchFiles_results_witness :
  (∀ x, x ∈ ["notes/a.md"; "notes/deep/d.md"] →
     ∃ file content mtime,
       markdown_file_of node_externals (nodes Example5.library) file
       ∧ nodes Example5.library !! file = Some (File content mtime)
       ∧ Js.includes (Example5.ascii_lower "tea") (Example5.ascii_lower content) = true
       ∧ x = relative_path Example.store file)
  ∧ ∀ name content mtime,
      let dirPath := getAbsolutePath node_externals Example.store "notes" in
      nodes Example5.library !! dirPath = Some Dir →
      join node_externals dirPath name = dirPath +:+ "/" +:+ name →
      nodes Example5.library !! (dirPath +:+ "/" +:+ name) = Some (File content mtime) →
      name ≠ EmptyString → Js.includes "/" name = false →
      endsWith ".md" name = true →
      Js.includes (Example5.ascii_lower "tea") (Example5.ascii_lower content) = true →
      relative_path Example.store (dirPath +:+ "/" +:+ name)
      ∈ ["notes/a.md"; "notes/deep/d.md"].
Proof.
  apply (searchFiles_results node_externals Example.store Example5.ascii_lower 3 "tea"
           "notes" Example5.library
           (snd (searchFiles node_externals Example.store Example5.ascii_lower 3 "tea"
                   "notes" Example5.library))).
  apply run_inr. vm_compute. reflexivity.
Defined.

(** X22: when the directory cannot be listed, because it is missing or is
    a file, [searchFiles] returns the empty list after that one attempt;
    it does not fail. *)
Theorem searchFiles_unlisted_directory (X : externals) (this : FileSystemHelper)
    (toLowerCase : string → string) (depth : nat) (searchTerm directory : string)
    (w : world) :
  nodes w !! getAbsolutePath X this directory ≠ Some Dir →
  searchFiles X this toLowerCase (S depth) searchTerm directory w
  = (inr (Some []), log (FsReaddir (getAbsolutePath X this directory)) w).
Proof.
  intros Hd. unfold searchFiles, try_catch. unfold bind at 1.
  cbn [getAllMarkdownFiles]. unfold Runtime.fs_readdir.
  by destruct (nodes w !! _) as [[] |].
Qed.

Lemma searchFiles_unlisted_directory_witness :
  searchFiles node_externals Example.store Example5.ascii_lower 1 "tea" "missing"
    Example5.library
  = (inr (Some []),
     log (FsReaddir (getAbsolutePath node_externals Example.store "missing"))
       Example5.library).
Proof.
  apply (searchFiles_unlisted_directory node_externals Example.store Example5.ascii_lower 0
           "tea" "missing" Example5.library).
  vm_compute. discriminate.
Defined.

(** * The server *)

Lemma execute_throws_Error (X : externals) (this : FileSystemHelper)
    (configuredVault : string) (request : TranslationRequest.t) (w w' : world) (e : thrown) :
  execute X this configuredVault request w = (inl e, w') → instanceof_Error e = true.
Proof.
  unfold execute, try_catch.
  match goal with |- context [match ?m w with _ => _ end] => destruct (m w) as [[e0 | r] w0] end;
    [| done].
  destruct (instanceof_Error e0) eqn:E; unfold throw; intros [= <- <-]; done.
Qed.

Lemma mapErrorCode_names (message : string) :
  mapErrorCode message
  = if names_invalid_params message then Mcp.InvalidParams else Mcp.InternalError.
Proof.
  unfold mapErrorCode, names_invalid_params.
  destruct (Js.includes ErrorCode.INVALID_URL message); [done |].
  destruct (Js.includes ErrorCode.FILE_NOT_FOUND message); [done |].
  destruct (Js.includes ErrorCode.VAULT_MISMATCH message); [done |].
  by destruct (Js.includes ErrorCode.PERMISSION_DENIED message).
Qed.

Section ServerProperties.

Variable X : externals.
Variable this : FileSystemHelper.
Variable configuredVault : string.
Variable substring_to : nat → string → string.
Variable length_of : string → nat.
Variable handleCreateNote handleReadNote handleUpdateNote handleSearchNotes
  handleSearchNotesByTags : M (Mcp.error + tool_response).

Local Abbreviation call := (callTool X this configuredVault substring_to length_of
  handleCreateNote handleReadNote handleUpdateNote handleSearchNotes
  handleSearchNotesByTags).

(** X23: a call of the translation tool that gives no usable address does
    not start the pipeline: no call is made on the file system or the
    service, and nothing changes. With an arguments object whose address is
    missing or empty the call is refused with the code [InvalidParams] and
    the message [URL is required]; with no arguments object at all the
    destructuring throws, and the call is refused with the code
    [InternalError] and the message of that [TypeError]. *)
Theorem callTool_translate_without_url (args : option translate_arguments) (w : world) :
  Js.truthy (default EmptyString (args ≫= arg_url)) = false →
  call "translate_obsidian_note" args w
  = (inr (inl match args with
              | Some _ => {| Mcp.error_code := Mcp.InvalidParams;
                             Mcp.error_message := "URL is required" |}
              | None => {| Mcp.error_code := Mcp.InternalError;
                           Mcp.error_message :=
                             "Cannot destructure property 'url' of 'args' as it is undefined." |}
              end), w).
Proof.
  intros Hu. unfold callTool, try_catch, handleTranslateNote.
  rewrite String.eqb_refl. destruct args as [args |]; simpl in Hu.
  - by rewrite Hu.
  - reflexivity.
Qed.

(** X24: every failure of the pipeline reaches the client as an [McpError]
    that carries the message of the error unchanged; its code is
    [InvalidParams] when the message holds the name of [INVALID_OBSIDIAN_URL],
    [FILE_NOT_FOUND] or [VAULT_MISMATCH], wherever in the message, and
    [InternalError] otherwise; the world is as the pipeline left it. *)
Theorem callTool_translate_failure (args : translate_arguments) (url : string)
    (w w' : world) (e : thrown) :
  arg_url args = Some url →
  Js.truthy url = true →
  execute X this configuredVault
    {| TranslationRequest.url := url;
       TranslationRequest.targetLanguage := arg_targetLanguage args;
       TranslationRequest.mode := arg_mode args |} w = (inl e, w') →
  ∃ name message,
    e = ErrorObj name message
    ∧ call "translate_obsidian_note" (Some args) w
      = (inr (inl {| Mcp.error_code :=
                       if names_invalid_params message
                       then Mcp.InvalidParams else Mcp.InternalError;
                     Mcp.error_message := message |}), w').
Proof.
  intros Hurl Ht Hrun. pose proof (execute_throws_Error _ _ _ _ _ _ _ Hrun) as He.
  destruct e as [name message | r]; [| done]. exists name, message. split; [done |].
  unfold callTool, try_catch, handleTranslateNote.
  rewrite String.eqb_refl, Hurl. change (default EmptyString (Some url)) with url.
  rewrite Ht. unfold bind. rewrite Hrun.
  unfold ret. cbn [message_of]. by rewrite mapErrorCode_names.
Qed.

End ServerProperties.

Lemma callTool_translate_without_url_witness :
  callTool node_externals Example.store "Main" Example6.prefix String.length Example6.idle
    Example6.idle Example6.idle Example6.idle Example6.idle "translate_obsidian_note"
    (Some Example6.no_address) Example.two_notes
  = (inr (inl {| Mcp.error_code := Mcp.InvalidParams;
                 Mcp.error_message := "URL is required" |}), Example.two_notes).
Proof.
  apply (callTool_translate_without_url node_externals Example.store "Main" Example6.prefix
           String.length Example6.idle Example6.idle Example6.idle Example6.idle
           Example6.idle (Some Example6.no_address) Example.two_notes).
  reflexivity.
Defined.

(** A call without an arguments object is an internal error. *)
Example callTool_translate_undefined_arguments :
  callTool node_externals Example.store "Main" Example6.prefix String.length Example6.idle
    Example6.idle Example6.idle Example6.idle Example6.idle "translate_obsidian_note"
    None Example.two_notes
  = (inr (inl {| Mcp.error_code := Mcp.InternalError;
                 Mcp.error_message :=
                   "Cannot destructure property 'url' of 'args' as it is undefined." |}),
     Example.two_notes).
Proof. reflexivity. Qed.

Lemma callTool_translate_failure_witness :
  ∃ name message,
    new_Error (ErrorCode.FILE_NOT_FOUND +:+ ": File 'notes/b.md' not found")
    = ErrorObj name message
    ∧ callTool node_externals Example.store "Main" Example6.prefix String.length
        Example6.idle Example6.idle Example6.idle Example6.idle Example6.idle
        "translate_obsidian_note" (Some Example6.missing_note) Example.two_notes
      = (inr (inl {| Mcp.error_code :=
                       if names_invalid_params message
                       then Mcp.InvalidParams else Mcp.InternalError;
                     Mcp.error_message := message |}),
         snd (execute node_externals Example.store "Main"
                {| TranslationRequest.url := Example.address "notes/b.md";
                   TranslationRequest.targetLanguage := Some "French";
                   TranslationRequest.mode := None |} Example.two_notes)).
Proof.
  apply (callTool_translate_failure node_externals Example.store "Main" Example6.prefix
           String.length Example6.idle Example6.idle Example6.idle Example6.idle
           Example6.idle Example6.missing_note (Example.address "notes/b.md")
           Example.two_notes).
  - reflexivity.
  - reflexivity.
  - apply run_inl. vm_compute. reflexivity.
Defined.

(** The missing note of the example is reported as invalid parameters. *)
Example callTool_missing_note :
  fst (callTool node_externals Example.store "Main" Example6.prefix String.length
         Example6.idle Example6.idle Example6.idle Example6.idle Example6.idle
         "translate_obsidian_note" (Some Example6.missing_note) Example.two_notes)
  = inr (inl {| Mcp.error_code := Mcp.InvalidParams;
                Mcp.error_message := "FILE_NOT_FOUND: File 'notes/b.md' not found" |}).
Proof. vm_compute. reflexivity. Qed.

(** * The two scans of the guard *)

Section Scan.

Variable placeholder_of : nat → string.
Hypothesis placeholder_inj : ∀ a b, placeholder_of a = placeholder_of b → a = b.
Variable re : Js.matcher.
Hypothesis re_split : ∀ s m rest,
  re s = Some (m, rest) → s = m +:+ rest ∧ m ≠ EmptyString.

(** A pass with enough fuel is the scan: every match is replaced, by the
    placeholder of its number, and nothing else is. *)
Lemma pass_scanned (fuel : nat) (s out : string) (n n' : nat)
    (ps ps' : list (string * string)) :
  (String.length s < fuel)%nat →
  Js.replace_all_fuel fuel re (Guard.callback placeholder_of) s (n, ps) = (out, (n', ps')) →
  (∀ e k, e ∈ ps → (n ≤ k)%nat → fst e ≠ placeholder_of k) →
  ∃ new,
    ps' = (ps ++ new)%list
    ∧ n' = n + List.length new
    ∧ scanned re new out s
    ∧ ∀ i e, new !! i = Some e → fst e = placeholder_of (n + i).
Proof.
  revert s out n n' ps ps'.
  induction fuel as [| fuel IH]; intros s out n n' ps ps' Hlen; [lia |]. simpl.
  destruct s as [| c s'].
  { intros [= <- <- <-] _. exists []. rewrite app_nil_r.
    split; [done |]. split; [done |]. split; [constructor | done]. }
  destruct (re (String c s')) as [[m rest] |] eqn:E.
  - destruct (Js.replace_all_fuel fuel re _ rest _) as [out1 [n1 ps1]] eqn:E1.
    intros [= <- <- <-] Hfresh.
    rewrite map_set_fresh in E1.
    2: { intros e He. apply (Hfresh e n He). lia. }
    destruct (re_split _ _ _ E) as [Hs Hm].
    assert (Hrest : (String.length rest < fuel)%nat).
    { apply (f_equal String.length) in Hs. rewrite length_append in Hs.
      destruct m; [done |]. simpl in Hs, Hlen. lia. }
    apply (IH _ _ _ _ _ _ Hrest) in E1 as (new & -> & -> & Hscan & Hkeys).
    + exists ((placeholder_of n, m) :: new). rewrite <- app_assoc. simpl.
      split; [done |]. split; [lia |]. split.
      * rewrite Hs. constructor; [done | by rewrite <- Hs | done].
      * intros [| i] e; simpl.
        -- intros [= <-]. simpl. by rewrite Nat.add_0_r.
        -- intros He. rewrite (Hkeys i e He). f_equal. lia.
    + intros e k [He | ->%list_elem_of_singleton]%elem_of_app Hk.
      * apply (Hfresh e k He). lia.
      * simpl. intros Heq. apply placeholder_inj in Heq. lia.
  - destruct (Js.replace_all_fuel fuel re _ s' _) as [out1 [n1 ps1]] eqn:E1.
    intros [= <- <- <-] Hfresh.
    apply IH in E1 as (new & -> & -> & Hscan & Hkeys); [| simpl in Hlen; lia | done].
    exists new. split; [done |]. split; [done |]. split; [by constructor | done].
Qed.

End Scan.

(** X11: [protectCodeBlocks] is two scans. The first replaces, from left to
    right, every match of the inline pattern in the body, and only those;
    the second does the same with the fenced pattern in the text the first
    has made. Every match replaced has an entry of its own in the map: the
    entries of the first scan, then those of the second, in the order of the
    text, under the placeholders numbered from 0 on, which are pairwise
    distinct. *)
Theorem protectCodeBlocks_scanned (content : string) :
  ∃ (afterInline : string) (inline blocks : list (string * string)),
    snd (Guard.protectCodeBlocks content) = (inline ++ blocks)%list
    ∧ scanned Guard.inline_re inline afterInline content
    ∧ scanned Guard.fenced_re blocks (fst (Guard.protectCodeBlocks content)) afterInline
    ∧ (∀ i e, inline !! i = Some e → fst e = Guard.inline_placeholder i)
    ∧ (∀ j e, blocks !! j = Some e →
         fst e = Guard.block_placeholder (List.length inline + j))
    ∧ NoDup (map fst (inline ++ blocks)%list).
Proof.
  unfold Guard.protectCodeBlocks.
  destruct (Js.replace_all Guard.inline_re _ content _) as [after [n1 ps1]] eqn:E1.
  destruct (Js.replace_all Guard.fenced_re _ after _) as [out [n2 ps2]] eqn:E2.
  unfold Js.replace_all, Guard.inline_callback, Guard.block_callback in *.
  apply (pass_scanned _ inline_placeholder_inj Guard.inline_re) in E1
    as (inline & -> & -> & S1 & K1).
  2: { intros s m rest H. destruct (inline_re_split _ _ _ H) as [Hs (code & _ & _ & ->)].
       by split. }
  2: lia.
  2: { intros e k He. by apply elem_of_nil in He. }
  cbn [Nat.add app] in *.
  apply (pass_scanned _ block_placeholder_inj Guard.fenced_re) in E2
    as (blocks & -> & -> & S2 & K2).
  2: { intros s m rest H. destruct (fenced_re_split _ _ _ H) as [Hs [_ [m' ->]]].
       by split. }
  2: lia.
  2: { intros e k [i Hi]%list_elem_of_lookup _. rewrite (K1 i e Hi). apply inline_not_block. }
  cbn [fst snd]. exists after, inline, blocks.
  split; [done |]. split; [done |]. split; [done |]. split; [done |]. split; [done |].
  apply NoDup_alt. intros i j k. rewrite !list_lookup_fmap.
  destruct ((inline ++ blocks)%list !! i) as [e1 |] eqn:Ei; [| done].
  destruct ((inline ++ blocks)%list !! j) as [e2 |] eqn:Ej; [| done].
  simpl. intros [= <-] [= Hk].
  apply lookup_app_Some in Ei as [Ei | [Hi Ei]]; apply lookup_app_Some in Ej as [Ej | [Hj Ej]].
  - rewrite (K1 _ _ Ei), (K1 _ _ Ej) in Hk. by apply inline_placeholder_inj in Hk.
  - rewrite (K1 _ _ Ei), (K2 _ _ Ej) in Hk. symmetry in Hk. by apply inline_not_block in Hk.
  - rewrite (K2 _ _ Ei), (K1 _ _ Ej) in Hk. by apply inline_not_block in Hk.
  - rewrite (K2 _ _ Ei), (K2 _ _ Ej) in Hk. apply block_placeholder_inj in Hk. lia.
Qed.

(** ** A fenced block goes to the first scan *)

Lemma span_no_backtick_app (inner rest : string) :
  no_backtick inner = true →
  Guard.span_no_backtick (inner +:+ String Guard.backtick rest)
  = (inner, String Guard.backtick rest).
Proof.
  induction inner as [| c inner IH]; intros Hnb.
  - reflexivity.
  - simpl in Hnb. apply andb_true_iff in Hnb as [Hc Hnb]. apply negb_true_iff in Hc.
    rewrite append_cons. cbn [Guard.span_no_backtick]. by rewrite Hc, (IH Hnb).
Qed.

Lemma inline_pass_two_backticks {St} (fuel : nat)
    (callback : string → St → string * St) (st : St) :
  Js.replace_all_fuel fuel Guard.inline_re callback "``" st = ("``", st).
Proof. destruct fuel as [| [| [| fuel]]]; reflexivity. Qed.

(** The first pass on a fenced block without a backtick inside: the third
    backtick of the opening fence and the first of the closing one are taken
    for the backticks of an inline span. *)
Lemma inline_pass_fenced (fuel n : nat) (ps : list (string * string)) (inner : string) :
  no_backtick inner = true →
  inner ≠ EmptyString →
  Js.replace_all_fuel (S (S (S fuel))) Guard.inline_re Guard.inline_callback
    ("```" +:+ inner +:+ "```") (n, ps)
  = ("``" +:+ Guard.inline_placeholder n +:+ "``",
     (S n, Js.map_set (Guard.inline_placeholder n) ("`" +:+ inner +:+ "`") ps)).
Proof.
  intros Hnb Hne. destruct inner as [| a code]; [done |].
  change ("```" +:+ String a code +:+ "```")
    with (String Guard.backtick (String Guard.backtick (String Guard.backtick
            (String a code +:+ String Guard.backtick "``")))).
  assert (Ha : Ascii.eqb a Guard.backtick = false).
  { simpl in Hnb. apply andb_true_iff in Hnb as [Hc _]. by apply negb_true_iff in Hc. }
  assert (Hspan := span_no_backtick_app (String a code) "``" Hnb).
  cbn [Js.replace_all_fuel].
  assert (H0 : ∀ t, Guard.inline_re (String Guard.backtick (String Guard.backtick t)) = None).
  { intros t. reflexivity. }
  rewrite !H0.
  assert (H2 : Guard.inline_re (String Guard.backtick
                                  (String a code +:+ String Guard.backtick "``"))
               = Some (String Guard.backtick
                         (String a code +:+ String Guard.backtick EmptyString), "``")).
  { cbn [Guard.inline_re]. rewrite Ascii.eqb_refl, Hspan. reflexivity. }
  rewrite H2. unfold Guard.inline_callback at 1. cbn [Guard.callback].
  rewrite inline_pass_two_backticks.
  reflexivity.
Qed.

(** Where the pattern matches at no position of the text, the pass leaves
    the text as it is. *)
Lemma replace_all_no_fence {St} (re : Js.matcher) (callback : string → St → string * St)
    (fuel : nat) (s : string) (st : St) :
  matches_nowhere re s = true → Js.replace_all_fuel fuel re callback s st = (s, st).
Proof.
  revert s. induction fuel as [| fuel IH]; intros s; [done |].
  destruct s as [| c s]; [done |]. cbn [matches_nowhere Js.replace_all_fuel].
  destruct (re (String c s)); [done |]. intros H. by rewrite (IH s H).
Qed.

Lemma fenced_pass_placeholder (fuel : nat) (st : Guard.guard_state) :
  Js.replace_all_fuel fuel Guard.fenced_re Guard.block_callback
    ("``" +:+ Guard.inline_placeholder 0 +:+ "``") st
  = ("``" +:+ Guard.inline_placeholder 0 +:+ "``", st).
Proof.
  apply replace_all_no_fence. vm_compute. reflexivity.
Qed.

(** C5, against the claim: a fenced block without a backtick inside is not
    matched as a block. The inline pass runs first and takes the third
    backtick of the opening fence, the text of the block and the first
    backtick of the closing fence for one inline span; the second pass finds
    no fence in what is left, and no block is recorded. *)
Theorem protectCodeBlocks_fence_as_inline (inner : string) :
  no_backtick inner = true →
  inner ≠ EmptyString →
  Guard.protectCodeBlocks ("```" +:+ inner +:+ "```")
  = ("``__INLINE_CODE_0__``", [("__INLINE_CODE_0__", "`" +:+ inner +:+ "`")]).
Proof.
  intros Hnb Hne. unfold Guard.protectCodeBlocks, Js.replace_all.
  change (String.length ("```" +:+ inner +:+ "```"))
    with (S (S (S (String.length (inner +:+ "```"))))).
  rewrite (inline_pass_fenced _ 0 [] inner Hnb Hne).
  by rewrite fenced_pass_placeholder.
Qed.

Lemma protectCodeBlocks_fence_as_inline_witness :
  Guard.protectCodeBlocks fenced_js
  = ("``__INLINE_CODE_0__``",
     [("__INLINE_CODE_0__",
       "`" +:+ ("js" +:+ newline +:+ "let x = 1;" +:+ newline) +:+ "`")]).
Proof.
  apply (protectCodeBlocks_fence_as_inline ("js" +:+ newline +:+ "let x = 1;" +:+ newline)).
  - reflexivity.
  - discriminate.
Defined.

(** * [translateBatch], document by document *)

Section InTurn.

Variable X : externals.





End InTurn.

